(** * 6unpack: the chunked archive unpacking engine of 6pack/6unpack.c

    A shallow embedding of [src/6pack/6unpack.c] and theorems about it.

    Conventions of the embedding.
    - The data model is LP64: [int] and [unsigned] are 32 bits wide,
      [long], [unsigned long] and [size_t] are 64 bits wide.  Every C
      integer is a [Z]; the wrap-around of each operation is written out
      with [ulong], [uint] and [sint].  Conversions to [int] and left
      shifts in [int] wrap in two's complement.
    - A byte is a [Byte.byte]; a block of memory is a [list byte].  Reading
      a block past the end of its list yields [x00].
    - [NULL] is [None].
    - A [FILE] opened for reading is its contents and its position; a
      [FILE] opened for writing is the path it was opened with, and
      [fwrite] appends to that path on the [disk] at once (stdio buffering
      is not modelled, so [fclose] leaves the disk as it is).  The [disk]
      is thus the disk as it is once the streams are flushed: after a
      [return] it is the disk the process leaves, after an [abort()] the
      last bytes written to the file that is open may be missing from it.
    - [fopen(p, "rb")] succeeds on a file that exists and may be read;
      [fopen(p, "wb")] creates the file or truncates it, when the
      environment allows it.
    - Text sent to stdout is not modelled, and neither is [percent], which
      the source only uses to print the progress bar.
    - [FREE] is the variant that resets its argument to [NULL] (the one the
      source compiles without TESTING).
    - What the environment decides is a field of [env]: the contents of
      uninitialised memory, whether a [malloc] succeeds, whether a file may
      be read, whether a path can be created or truncated, and
      [fastlz_decompress], whose code is in fastlz.c. *)

From Stdlib Require Import ZArith List Lia Bool Strings.Byte.
Import ListNotations.
Open Scope Z_scope.

(** ** Machine integers *)

Definition ulong (x : Z) : Z := x mod 2 ^ 64.
Definition uint (x : Z) : Z := x mod 2 ^ 32.
Definition sint (x : Z) : Z := (x + 2 ^ 31) mod 2 ^ 32 - 2 ^ 31.
Definition slong (x : Z) : Z := (x + 2 ^ 63) mod 2 ^ 64 - 2 ^ 63.

Definition INT_MAX : Z := 2147483647.

(** ** Bytes and memory *)

Definition byte := Byte.byte.

Definition b2z (b : byte) : Z := Z.of_N (Byte.to_N b).

Definition z2b (z : Z) : byte :=
  match Byte.of_N (Z.to_N (z mod 256)) with
  | Some b => b
  | None => x00
  end.

(** [ptr[i]] *)
Definition peek (ptr : list byte) (i : nat) : byte := nth i ptr x00.

(** The [n] bytes found at [ptr + off]. *)
Definition mem_read (ptr : list byte) (off n : nat) : list byte :=
  map (fun i => peek ptr (off + i)) (seq 0 n).

(** The block [ptr] after [got] has been stored at its start. *)
Definition mem_write (ptr got : list byte) : list byte :=
  got ++ skipn (length got) ptr.

(** ** Adler-32 (lines 80-123) *)

Module Adler.

Definition ADLER32_BASE : Z := 65521.

(** The accumulators and the read pointer. *)
Definition acc : Type := Z * Z * list byte.

(** [s1 += *ptr++; s2 += s1;] *)
Definition adler_byte (a : acc) : acc :=
  let '(s1, s2, ptr) := a in
  let s1 := ulong (s1 + b2z (hd x00 ptr)) in
  let s2 := ulong (s2 + s1) in
  (s1, s2, tl ptr).

(** [while (k >= 8) { ...eight bytes...; k -= 8; }] *)
Fixpoint adler_unrolled (fuel : nat) (k : Z) (a : acc) : Z * acc :=
  match fuel with
  | O => (k, a)
  | S fuel' =>
      if 8 <=? k then
        let a := adler_byte a in
        let a := adler_byte a in
        let a := adler_byte a in
        let a := adler_byte a in
        let a := adler_byte a in
        let a := adler_byte a in
        let a := adler_byte a in
        let a := adler_byte a in
        adler_unrolled fuel' (uint (k - 8)) a
      else (k, a)
  end.

(** [while (k-- > 0) { s1 += *ptr++; s2 += s1; }] *)
Fixpoint adler_tail (fuel : nat) (k : Z) (a : acc) : acc :=
  match fuel with
  | O => a
  | S fuel' =>
      if 0 <? k then adler_tail fuel' (uint (k - 1)) (adler_byte a) else a
  end.

(** [while (len > 0) { k = len < 5552 ? len : 5552; ...; s1 %= BASE; s2 %= BASE; }] *)
Fixpoint adler_blocks (fuel : nat) (len : Z) (a : acc) : acc :=
  match fuel with
  | O => a
  | S fuel' =>
      if 0 <? len then
        let k := uint (if len <? 5552 then len else 5552) in
        let len := sint (len - k) in
        let '(k, a) := adler_unrolled (Z.to_nat k) k a in
        let '(s1, s2, ptr) := adler_tail (Z.to_nat k) k a in
        adler_blocks fuel' len (s1 mod ADLER32_BASE, s2 mod ADLER32_BASE, ptr)
      else a
  end.

(** [update_adler32(checksum, buf, len)]: [len] is an [int].  Every loop
    gets as much fuel as its counter, which is more than it uses
    ([adler_blocks_fuel] below). *)
Definition update_adler32 (checksum : Z) (buf : list byte) (len : Z) : Z :=
  let s1 := Z.land checksum 65535 in
  let s2 := Z.land (Z.shiftr checksum 16) 65535 in
  let '(s1, s2, _) := adler_blocks (Z.to_nat len) len (s1, s2, buf) in
  ulong (Z.shiftl s2 16 + s1).

(** Adler-32 as RFC 1950 defines it: [s1] is one plus the sum of the bytes
    and [s2] the sum of the successive values of [s1], both modulo 65521;
    the checksum is [(s2 << 16) | s1]. *)
Definition rfc_step (st : Z * Z) (b : byte) : Z * Z :=
  let s1 := (fst st + b2z b) mod ADLER32_BASE in
  (s1, (snd st + s1) mod ADLER32_BASE).

Definition rfc_sums (st : Z * Z) (bs : list byte) : Z * Z :=
  fold_left rfc_step bs st.

Definition pack (st : Z * Z) : Z := Z.lor (Z.shiftl (snd st) 16) (fst st).

(** The two sums before any reduction. *)
Definition raw_step (st : Z * Z) (b : byte) : Z * Z :=
  (fst st + b2z b, snd st + (fst st + b2z b)).

Definition raw_sums (st : Z * Z) (bs : list byte) : Z * Z :=
  fold_left raw_step bs st.

(** Both sums are below the base. *)
Definition reduced (a : acc) : Prop :=
  (0 <= fst (fst a) < ADLER32_BASE) /\ (0 <= snd (fst a) < ADLER32_BASE).

Definition rfc_adler32 (bs : list byte) : Z := pack (rfc_sums (1, 0) bs).

End Adler.

(** ** Streams opened for reading *)

Record FILE : Type := mkFILE { contents : list byte; fpos : Z }.

Definition SEEK_SET : Z := 0.
Definition SEEK_CUR : Z := 1.
Definition SEEK_END : Z := 2.

(** [fseek(stream, offset, whence)], [offset] a [long]; a seek to a negative
    position fails and leaves the stream where it is. *)
Definition fseek (stream : FILE) (offset whence : Z) : FILE :=
  let target :=
    if whence =? SEEK_SET then offset
    else if whence =? SEEK_CUR then fpos stream + offset
    else Z.of_nat (length (contents stream)) + offset in
  if target <? 0 then stream else mkFILE (contents stream) target.

Definition ftell (stream : FILE) : Z := fpos stream.

(** [fread(_, 1, n, stream)]: the bytes obtained, at most [n] and no more
    than the stream still has, and the stream after them. *)
Definition fread (n : Z) (stream : FILE) : list byte * FILE :=
  let got :=
    firstn (Z.to_nat n) (skipn (Z.to_nat (fpos stream)) (contents stream)) in
  (got, mkFILE (contents stream) (fpos stream + Z.of_nat (length got))).

(** ** The disk *)

Definition path : Type := list byte.

Fixpoint path_eqb (p q : path) : bool :=
  match p, q with
  | [], [] => true
  | a :: p', b :: q' => Byte.eqb a b && path_eqb p' q'
  | _, _ => false
  end.

(** Paths and the bytes stored under them, oldest file first. *)
Definition disk : Type := list (path * list byte).

Fixpoint disk_lookup (p : path) (d : disk) : option (list byte) :=
  match d with
  | [] => None
  | (q, v) :: d' => if path_eqb p q then Some v else disk_lookup p d'
  end.

Fixpoint disk_store (p : path) (v : list byte) (d : disk) : disk :=
  match d with
  | [] => [(p, v)]
  | (q, w) :: d' =>
      if path_eqb p q then (q, v) :: d' else (q, w) :: disk_store p v d'
  end.

Definition disk_append (p : path) (bytes : list byte) (d : disk) : disk :=
  match disk_lookup p d with
  | Some old => disk_store p (old ++ bytes) d
  | None => disk_store p bytes d
  end.

(** [d'] is [d] with [w] appended to the file [p]. *)
Definition appended (p : path) (w : list byte) (d d' : disk) : Prop :=
  (forall old, disk_lookup p d = Some old -> disk_lookup p d' = Some (old ++ w))
  /\ (forall q, q <> p -> disk_lookup q d' = disk_lookup q d).

(** The C string that starts a block: its bytes up to the first NUL. *)
Fixpoint cstring (block : list byte) : path :=
  match block with
  | [] => []
  | b :: rest => if Byte.eqb b x00 then [] else b :: cstring rest
  end.

(** ** The environment *)

Record env : Type := mkEnv {
  (** byte [i] of a block that has not been written yet *)
  uninit : nat -> byte;
  (** whether the [n]-th call of [malloc], for [size] bytes, succeeds *)
  malloc_ok : nat -> Z -> bool;
  (** whether [fopen(p, "rb")] succeeds on a file that exists: whether the
      file may be read *)
  readable : path -> bool;
  (** whether [fopen(p, "wb")] succeeds: whether the file may be created,
      or truncated when it exists *)
  creatable : path -> bool;
  (** [fastlz_decompress(input, length, output, maxout)]: the [int] it
      returns and the bytes it stores at the start of [output] *)
  fastlz_decompress :
    list byte -> Z -> option (list byte) -> Z -> Z * list byte
}.

(** ** Chunk headers (lines 166-191) *)

Record chunk : Type := mkChunk {
  chunk_id : Z;
  chunk_options : Z;
  chunk_size : Z;
  chunk_checksum : Z;
  chunk_extra : Z
}.

Definition BLOCK_SIZE : Z := 65536.

Definition sixpack_magic : list byte :=
  [x89; x36; x50; x4b; x0d; x0a; x1a; x0a].

(** [ptr[0] + (ptr[1] << 8)], computed in [int], returned as
    [unsigned long]. *)
Definition readU16 (ptr : list byte) : Z :=
  ulong (sint (b2z (peek ptr 0) + sint (Z.shiftl (b2z (peek ptr 1)) 8))).

(** [ptr[0] + (ptr[1] << 8) + (ptr[2] << 16) + (ptr[3] << 24)], computed in
    [int] and sign-extended by the conversion to [unsigned long]. *)
Definition readU32 (ptr : list byte) : Z :=
  ulong
    (sint
       (sint
          (sint (b2z (peek ptr 0) + sint (Z.shiftl (b2z (peek ptr 1)) 8))
           + sint (Z.shiftl (b2z (peek ptr 2)) 16))
        + sint (Z.shiftl (b2z (peek ptr 3)) 24))).

(** The five assignments of [read_chunk_header] on its [buffer]. *)
Definition decode_header (buffer : list byte) : chunk :=
  mkChunk
    (sint (Z.land (readU16 buffer) 0xffff))
    (sint (Z.land (readU16 (skipn 2 buffer)) 0xffff))
    (Z.land (readU32 (skipn 4 buffer)) 0xffffffff)
    (Z.land (readU32 (skipn 8 buffer)) 0xffffffff)
    (Z.land (readU32 (skipn 12 buffer)) 0xffffffff).

(** Modelled from the spec: the encoder of a chunk header, which is in
    6pack.c and not among the sources.  The spec fixes the layout: 16 bytes,
    little-endian, id at bytes 0-1, options at 2-3, size at 4-7, checksum at
    8-11, extra at 12-15. *)
Definition le_bytes (n : nat) (x : Z) : list byte :=
  map (fun i => z2b (Z.shiftr x (8 * Z.of_nat i))) (seq 0 n).

Definition encode_header (h : chunk) : list byte :=
  le_bytes 2 (chunk_id h) ++ le_bytes 2 (chunk_options h)
  ++ le_bytes 4 (chunk_size h) ++ le_bytes 4 (chunk_checksum h)
  ++ le_bytes 4 (chunk_extra h).

(** ** The state of [unpack_file] *)

Record state : Type := mkState {
  in_file : FILE;                              (* in *)
  buffer : list byte;                          (* buffer[BLOCK_SIZE] *)
  decompressed_size : Z;
  total_extracted : Z;
  output_file : option (list byte);
  f : option path;
  compressed_buffer : option (list byte);
  decompressed_buffer : option (list byte);
  compressed_bufsize : Z;
  decompressed_bufsize : Z;
  files : disk;                                (* the disk *)
  mallocs : nat                                (* calls of malloc so far *)
}.

Definition set_in_file (v : FILE) (s : state) : state :=
  mkState v (buffer s) (decompressed_size s) (total_extracted s)
    (output_file s) (f s) (compressed_buffer s) (decompressed_buffer s)
    (compressed_bufsize s) (decompressed_bufsize s) (files s) (mallocs s).

Definition set_buffer (v : list byte) (s : state) : state :=
  mkState (in_file s) v (decompressed_size s) (total_extracted s)
    (output_file s) (f s) (compressed_buffer s) (decompressed_buffer s)
    (compressed_bufsize s) (decompressed_bufsize s) (files s) (mallocs s).

Definition set_decompressed_size (v : Z) (s : state) : state :=
  mkState (in_file s) (buffer s) v (total_extracted s)
    (output_file s) (f s) (compressed_buffer s) (decompressed_buffer s)
    (compressed_bufsize s) (decompressed_bufsize s) (files s) (mallocs s).

Definition set_total_extracted (v : Z) (s : state) : state :=
  mkState (in_file s) (buffer s) (decompressed_size s) v
    (output_file s) (f s) (compressed_buffer s) (decompressed_buffer s)
    (compressed_bufsize s) (decompressed_bufsize s) (files s) (mallocs s).

Definition set_output_file (v : option (list byte)) (s : state) : state :=
  mkState (in_file s) (buffer s) (decompressed_size s)
    (total_extracted s) v (f s) (compressed_buffer s) (decompressed_buffer s)
    (compressed_bufsize s) (decompressed_bufsize s) (files s) (mallocs s).

Definition set_f (v : option path) (s : state) : state :=
  mkState (in_file s) (buffer s) (decompressed_size s)
    (total_extracted s) (output_file s) v (compressed_buffer s)
    (decompressed_buffer s) (compressed_bufsize s) (decompressed_bufsize s)
    (files s) (mallocs s).

Definition set_compressed (size : Z) (v : option (list byte)) (s : state)
  : state :=
  mkState (in_file s) (buffer s) (decompressed_size s)
    (total_extracted s) (output_file s) (f s) v (decompressed_buffer s)
    size (decompressed_bufsize s) (files s) (mallocs s).

Definition set_decompressed (size : Z) (v : option (list byte)) (s : state)
  : state :=
  mkState (in_file s) (buffer s) (decompressed_size s)
    (total_extracted s) (output_file s) (f s) (compressed_buffer s) v
    (compressed_bufsize s) size (files s) (mallocs s).

Definition set_files (v : disk) (s : state) : state :=
  mkState (in_file s) (buffer s) (decompressed_size s)
    (total_extracted s) (output_file s) (f s) (compressed_buffer s)
    (decompressed_buffer s) (compressed_bufsize s) (decompressed_bufsize s)
    v (mallocs s).

Definition set_mallocs (v : nat) (s : state) : state :=
  mkState (in_file s) (buffer s) (decompressed_size s)
    (total_extracted s) (output_file s) (f s) (compressed_buffer s)
    (decompressed_buffer s) (compressed_bufsize s) (decompressed_bufsize s)
    (files s) v.

(** How one pass through the body of the main loop ends: at the bottom of
    the loop, in a [return], or in [abort()]. *)
Inductive flow : Type :=
  | Continue (s : state)
  | Return (code : Z) (s : state)
  | Abort (s : state).

Definition and_then (r : flow) (k : state -> flow) : flow :=
  match r with
  | Continue s => k s
  | _ => r
  end.

Notation "s <- r ;; k" := (and_then r (fun s => k))
  (at level 61, r at next level, right associativity).

(** How [unpack_file] ends: the value it returns, or [abort()], and the
    disk it leaves, all streams flushed (see [fwrite] for the file that is
    open at an [abort()]). *)
Inductive outcome : Type :=
  | Exited (code : Z) (d : disk)
  | Crashed (d : disk).

Section Unpack.

Variable E : env.

(** A block nobody has written yet. *)
Definition fresh (n : nat) : list byte := map (uninit E) (seq 0 n).

(** [fopen(p, "rb")]: the bytes of the file, or [NULL] when the file does
    not exist or may not be read. *)
Definition fopen_rb (p : path) (d : disk) : option (list byte) :=
  if readable E p then disk_lookup p d else None.

(** [malloc(size)] *)
Definition malloc (size : Z) (s : state) : option (list byte) * state :=
  let s' := set_mallocs (S (mallocs s)) s in
  if malloc_ok E (mallocs s) size
  then (Some (fresh (Z.to_nat size)), s')
  else (None, s').

(** [fwrite(ptr, 1, n, f)].  The bytes are appended to the file at once;
    the program's stay in the buffer of the stream until it is flushed, by
    [fclose] or when the process exits.  So [files] is the disk as it is once
    the streams are flushed; when [abort()] is called, the last bytes written
    to the file that is open may not have reached it. *)
Definition fwrite (ptr : list byte) (n : Z) (s : state) : state :=
  match f s with
  | Some p => set_files (disk_append p (mem_read ptr 0 (Z.to_nat n)) (files s)) s
  | None => s
  end.

(** [fread(buffer, 1, n, in)]: the number of bytes read and the state. *)
Definition fread_buffer (n : Z) (s : state) : Z * state :=
  let '(got, stream) := fread n (in_file s) in
  (Z.of_nat (length got),
   set_buffer (mem_write (buffer s) got) (set_in_file stream s)).

(** *** detect_magic (lines 140-164) *)

(** [for (c = 0; c < 8; c++) if (buffer[c] != sixpack_magic[c]) return 0;]
    and the [return -1] after it. *)
Fixpoint magic_scan (cs : list nat) (buffer : list byte) : Z :=
  match cs with
  | [] => -1
  | c :: cs' =>
      if negb (Byte.eqb (peek buffer c) (peek sixpack_magic c)) then 0
      else magic_scan cs' buffer
  end.

(** The source passes [SEEK_SET] as the offset and 0 as [whence]. *)
Definition detect_magic (stream : FILE) : Z * FILE :=
  let buffer := fresh 8 in
  let stream := fseek stream SEEK_SET 0 in
  let '(got, stream) := fread 8 stream in
  let buffer := mem_write buffer got in
  let bytes_read := Z.of_nat (length got) in
  let stream := fseek stream SEEK_SET 0 in
  if bytes_read <? 8 then (0, stream)
  else (magic_scan (seq 0 8) buffer, stream).

(** *** read_chunk_header (lines 178-191) *)

Definition read_chunk_header (stream : FILE) : chunk * FILE :=
  let buffer := fresh 16 in
  let '(got, stream) := fread 16 stream in
  (decode_header (mem_write buffer got), stream).

(** *** The file entry, [chunk_id == 1] (lines 275-376) *)

(** Lines 303-307: [name_length], clamped. *)
Definition entry_name_length (buffer : list byte) (size : Z) : Z :=
  let name_length := sint (readU16 (skipn 8 buffer)) in
  if name_length >? sint size - 10 then sint (ulong (size - 10))
  else name_length.

(** Lines 317-320: the bytes copied into [output_file]. *)
Definition entry_name (buffer : list byte) (size : Z) : list byte :=
  mem_read buffer 10 (Z.to_nat (entry_name_length buffer size)).

(** [fclose(f); f = 0; FREE(output_file);] *)
Definition abandon (s : state) : state :=
  set_output_file None (set_f None s).

Definition file_entry (h : chunk) (s : state) : flow :=
  (* if (output_file) FREE(output_file);  if (f) fclose(f); *)
  let s := set_output_file None s in
  let '(_, s) := fread_buffer (chunk_size h) s in
  let checksum := Adler.update_adler32 1 (buffer s) (sint (chunk_size h)) in
  if negb (checksum =? chunk_checksum h) then
    (* fclose(in); return -1; *)
    Return (-1) s
  else
    let s := set_decompressed_size (readU32 (buffer s)) s in
    let s := set_total_extracted 0 s in
    let name_length := entry_name_length (buffer s) (chunk_size h) in
    let '(block, s) := malloc (ulong (sint (name_length + 1))) s in
    match block with
    | None => Abort s
    | Some _ =>
        (* memset(output_file, 0, name_length + 1) and the copy *)
        let block := entry_name (buffer s) (chunk_size h) ++ [x00] in
        let s := set_output_file (Some block) s in
        match fopen_rb (cstring block) (files s) with
        | Some _ =>
            (* already exists: fclose(f); FREE(output_file); f = 0 *)
            Continue (set_f None (set_output_file None s))
        | None =>
            (* f = fopen(output_file, "wb") *)
            if creatable E (cstring block) then
              Continue
                (set_f (Some (cstring block))
                   (set_files (disk_store (cstring block) [] (files s)) s))
            else Continue (set_output_file None (set_f None s))
        end
    end.

(** *** The data chunk, [chunk_id == 17] (lines 378-528) *)

(** Lines 391-404, from the state and the values of [remaining] and
    [checksum]; the checksum at the [break] and the state. *)
Fixpoint stored_loop (fuel : nat) (remaining checksum : Z) (s : state)
  : Z * state :=
  match fuel with
  | O => (checksum, s)
  | S fuel' =>
      let r := if BLOCK_SIZE <? remaining then BLOCK_SIZE else remaining in
      let '(bytes_read, s') := fread_buffer r s in
      if bytes_read =? 0 then (checksum, s')
      else
        let s := fwrite (buffer s') bytes_read s' in
        let checksum :=
          Adler.update_adler32 checksum (buffer s) (sint bytes_read) in
        stored_loop fuel' (ulong (remaining - bytes_read)) checksum s
  end.

(** [case 0], lines 386-419.  The loop reads at least one byte in every
    pass but its last, so [chunk_size + 1] passes are enough. *)
Definition stored_chunk (h : chunk) (s : state) : flow :=
  let s := set_total_extracted (ulong (total_extracted s + chunk_size h)) s in
  let '(checksum, s) :=
    stored_loop (S (Z.to_nat (chunk_size h))) (chunk_size h) 1 s in
  if negb (checksum =? chunk_checksum h) then Continue (abandon s)
  else Continue s.

(** Lines 424-431 and 434-441. *)
Definition grow_compressed (h : chunk) (s : state) : state :=
  if chunk_size h >? compressed_bufsize s then
    let '(block, s) := malloc (chunk_size h) s in
    set_compressed (chunk_size h) block s
  else s.

Definition grow_decompressed (h : chunk) (s : state) : state :=
  if chunk_extra h >? decompressed_bufsize s then
    let '(block, s) := malloc (chunk_extra h) s in
    set_decompressed (chunk_extra h) block s
  else s.

(** The state of a compressed chunk when line 444 tests
    [compressed_buffer]. *)
Definition grown (h : chunk) (s : state) : state :=
  grow_decompressed h (grow_compressed h s).

(** [case 1], lines 422-495. *)
Definition compressed_chunk (h : chunk) (s : state) : flow :=
  let s := grown h s in
  match compressed_buffer s with
  | None => Abort s
  | Some block =>
      let '(got, stream) := fread (chunk_size h) (in_file s) in
      let block := mem_write block got in
      let s :=
        set_compressed (compressed_bufsize s) (Some block)
          (set_in_file stream s) in
      let checksum := Adler.update_adler32 1 block (sint (chunk_size h)) in
      let s :=
        set_total_extracted (ulong (total_extracted s + chunk_extra h)) s in
      if negb (checksum =? chunk_checksum h) then Continue (abandon s)
      else
        let '(result, stored) :=
          fastlz_decompress E block (sint (chunk_size h))
            (decompressed_buffer s) (sint (chunk_extra h)) in
        let s :=
          set_decompressed (decompressed_bufsize s)
            (option_map (fun out => mem_write out stored)
               (decompressed_buffer s)) s in
        let remaining := ulong (sint result) in
        if negb (remaining =? chunk_extra h) then Continue (abandon s)
        else
          match decompressed_buffer s with
          | None => Abort s
          | Some out => Continue (fwrite out (chunk_extra h) s)
          end
  end.

(** What a data chunk is checked against: the checksum line 407 compares
    for a stored chunk; for a compressed one the block line 451 fills, the
    checksum line 452 computes and the length line 470 stores in
    [remaining]. *)
Definition stored_checksum (h : chunk) (s : state) : Z :=
  fst (stored_loop (S (Z.to_nat (chunk_size h))) (chunk_size h) 1
         (set_total_extracted (ulong (total_extracted s + chunk_size h)) s)).

Definition compressed_block (h : chunk) (s : state) : option (list byte) :=
  option_map
    (fun block =>
       mem_write block (fst (fread (chunk_size h) (in_file (grown h s)))))
    (compressed_buffer (grown h s)).

Definition compressed_checksum (h : chunk) (s : state) : option Z :=
  option_map
    (fun block => Adler.update_adler32 1 block (sint (chunk_size h)))
    (compressed_block h s).

Definition decompressed_length (h : chunk) (s : state) : option Z :=
  option_map
    (fun block =>
       ulong (sint (fst (fastlz_decompress E block (sint (chunk_size h))
                           (decompressed_buffer (grown h s))
                           (sint (chunk_extra h))))))
    (compressed_block h s).

(** [switch (chunk_options)] *)
Definition data_chunk (h : chunk) (s : state) : flow :=
  if chunk_options h =? 0 then stored_chunk h s
  else if chunk_options h =? 1 then compressed_chunk h s
  else Continue (abandon s).

(** *** The main loop (lines 258-532) *)

Definition is_set {A : Type} (p : option A) : bool :=
  match p with Some _ => true | None => false end.

(** The header the next pass decodes. *)
Definition next_header (s : state) : chunk :=
  fst (read_chunk_header (in_file s)).

(** The state once the header has been read. *)
Definition past_header (s : state) : state :=
  set_in_file (snd (read_chunk_header (in_file s))) s.

(** Where line 531 seeks to. *)
Definition next_chunk (pos : Z) (h : chunk) (s : state) : state :=
  set_in_file
    (fseek (in_file s) (slong (ulong (pos + 16 + chunk_size h))) SEEK_SET) s.

(** The window line 288 fills and the checksum line 289 computes for the
    next chunk. *)
Definition entry_window (s : state) : list byte :=
  buffer (snd (fread_buffer (chunk_size (next_header s)) (past_header s))).

Definition entry_checksum (s : state) : Z :=
  Adler.update_adler32 1 (entry_window s) (sint (chunk_size (next_header s))).

(** The payload of the next chunk: the bytes that follow its header in the
    stream. *)
Definition payload (s : state) : list byte :=
  firstn (Z.to_nat (chunk_size (next_header s)))
    (skipn (Z.to_nat (ftell (in_file s) + 16)) (contents (in_file s))).

(** The stream holds the next chunk whole. *)
Definition chunk_complete (s : state) : Prop :=
  0 <= ftell (in_file s)
  /\ ftell (in_file s) + 16 + chunk_size (next_header s)
     <= Z.of_nat (length (contents (in_file s))).

(** The conditions of lines 275 and 378. *)
Definition is_entry (h : chunk) : bool :=
  (chunk_id h =? 1) && (chunk_size h >? 10) && (chunk_size h <? BLOCK_SIZE).

Definition is_data (h : chunk) (s : state) : bool :=
  (chunk_id h =? 17) && is_set (f s) && is_set (output_file s)
  && negb (decompressed_size s =? 0).

(** One pass, entered with [pos < fsize]. *)
Definition loop_body (s : state) : flow :=
  let pos := ftell (in_file s) in
  let '(h, stream) := read_chunk_header (in_file s) in
  let s := set_in_file stream s in
  s <- (if is_entry h then file_entry h s else Continue s) ;;
  s <- (if is_data h s then data_chunk h s else Continue s) ;;
  Continue (next_chunk pos h s).

(** Lines 534-550. *)
Definition epilogue (s : state) : flow :=
  Return 0
    (set_output_file None
       (set_decompressed (decompressed_bufsize s) None
          (set_compressed (compressed_bufsize s) None s))).

(** [for (;;)], with [fsize] as line 230 set it: [None] when the fuel does
    not reach the end of the loop. *)
Fixpoint main_loop (fuel : nat) (fsize : Z) (s : state) : option flow :=
  match fuel with
  | O => None
  | S fuel' =>
      if ftell (in_file s) >=? fsize then Some (epilogue s)
      else
        match loop_body s with
        | Continue s' => main_loop fuel' fsize s'
        | r => Some r
        end
  end.

(** Lines 244-255. *)
Definition initial_state (stream : FILE) (d : disk) : state :=
  mkState (fseek stream 8 SEEK_SET) (fresh (Z.to_nat BLOCK_SIZE))
    0 0 None None None None 0 0 d O.

Definition finished (r : flow) : outcome :=
  match r with
  | Continue s => Exited 0 (files s)
  | Return code s => Exited code (files s)
  | Abort s => Crashed (files s)
  end.

(** [unpack_file(input_file)] on the disk [d].  The main loop gets one unit
    of fuel more than the archive has bytes. *)
Definition unpack_file (input_file : path) (d : disk) : option outcome :=
  match fopen_rb input_file d with
  | None => Some (Exited (-1) d)
  | Some bytes =>
      let stream := mkFILE bytes 0 in
      let stream := fseek stream 0 SEEK_END in
      let fsize := ulong (ftell stream) in
      let stream := fseek stream 0 SEEK_SET in
      let '(magic, stream) := detect_magic stream in
      if magic =? 0 then Some (Exited (-1) d)
      else
        option_map finished
          (main_loop (S (length bytes)) fsize (initial_state stream d))
  end.

End Unpack.

(** ** main (lines 553-608) *)

(** "-h", "--help", "-v", "--version" *)
Definition dash_h : path := [x2d; x68].

Definition dash_help : path := [x2d; x2d; x68; x65; x6c; x70].

Definition dash_v : path := [x2d; x76].

Definition dash_version : path :=
  [x2d; x2d; x76; x65; x72; x73; x69; x6f; x6e].

(** [!strcmp(a, b)] *)
Definition same_string (a b : path) : bool :=
  path_eqb (cstring a) (cstring b).

(** [for (i = 1; i <= argc; i++) if (argv[i]) if (!strcmp(argv[i], x) ||
    !strcmp(argv[i], y)) return 0;]: whether the loop returns.  [argv] holds
    [argv[0]] to [argv[argc - 1]]; [argv[argc]] is [NULL]. *)
Fixpoint flag_scan (x y : path) (argv : list path) (indices : list nat)
  : bool :=
  match indices with
  | [] => false
  | i :: indices' =>
      match nth_error argv i with
      | Some a =>
          if same_string a x || same_string a y then true
          else flag_scan x y argv indices'
      | None => flag_scan x y argv indices'
      end
  end.

Section Main.

Variable E : env.

(** [main(argc, argv)] on the disk [d], [argc] being the length of [argv]. *)
Definition main (argv : list path) (d : disk) : option outcome :=
  let argc := length argv in
  if (argc =? 1)%nat then Some (Exited 0 d)
  else if flag_scan dash_h dash_help argv (seq 1 argc) then Some (Exited 0 d)
  else if flag_scan dash_v dash_version argv (seq 1 argc)
  then Some (Exited 0 d)
  else if (argc <=? 1)%nat then Some (Exited 0 d)
  else unpack_file E (cstring (nth 1 argv [])) d.

End Main.

(** ** What a run leaves *)

(** The state a pass ends in, however it ends. *)
Definition flow_state (r : flow) : state :=
  match r with
  | Continue s => s
  | Return _ s => s
  | Abort s => s
  end.

Definition outcome_disk (o : outcome) : disk :=
  match o with
  | Exited _ d => d
  | Crashed d => d
  end.

Definition outcome_code (o : outcome) : option Z :=
  match o with
  | Exited code _ => Some code
  | Crashed _ => None
  end.

(** Every file of [d] that may be read is a file of [d'], with the same
    bytes. *)
Definition keeps (E : env) (d d' : disk) : Prop :=
  forall q v,
    readable E q = true ->
    disk_lookup q d = Some v -> disk_lookup q d' = Some v.

(** The files of [d0] that may be read are as they were, and the file that
    is open, if any, is not one of them. *)
Definition untouched (E : env) (d0 : disk) (s : state) : Prop :=
  keeps E d0 (files s)
  /\ forall p, f s = Some p -> fopen_rb E p d0 = None.

(** The blocks have the sizes the program believes they have: the window
    has [BLOCK_SIZE] bytes, and each of the two buffers, when it is not
    [NULL], has as many bytes as its [bufsize]. *)
Definition blocks_sized (s : state) : Prop :=
  Z.of_nat (length (buffer s)) = BLOCK_SIZE
  /\ 0 <= compressed_bufsize s
  /\ 0 <= decompressed_bufsize s
  /\ (forall b, compressed_buffer s = Some b ->
                Z.of_nat (length b) = compressed_bufsize s)
  /\ (forall b, decompressed_buffer s = Some b ->
                Z.of_nat (length b) = decompressed_bufsize s).

(** [t] has its blocks sized, and its two buffers are no smaller than
    those of [s]. *)
Definition blocks_kept (s t : state) : Prop :=
  blocks_sized t
  /\ compressed_bufsize s <= compressed_bufsize t
  /\ decompressed_bufsize s <= decompressed_bufsize t.

(** The bytes a block has room for; [NULL] has room for none. *)
Definition room (block : option (list byte)) : Z :=
  match block with
  | Some b => Z.of_nat (length b)
  | None => 0
  end.

(** A buffer is [NULL] only while its [bufsize] is 0. *)
Definition nulls_empty (s : state) : Prop :=
  (compressed_buffer s = None -> compressed_bufsize s = 0)
  /\ (decompressed_buffer s = None -> decompressed_bufsize s = 0).

(** [t] has the two buffers of [s], with their sizes. *)
Definition same_buffers (s t : state) : Prop :=
  compressed_buffer t = compressed_buffer s
  /\ decompressed_buffer t = decompressed_buffer s
  /\ compressed_bufsize t = compressed_bufsize s
  /\ decompressed_bufsize t = decompressed_bufsize s.

(** The decompressor stores no more than [maxout] bytes (fastlz.h:
    "guaranteed not to write the output buffer more than what is specified
    in maxout"). *)
Definition within_maxout (E : env) : Prop :=
  forall input n out maxout,
    Z.of_nat (length (snd (fastlz_decompress E input n out maxout)))
    <= Z.max 0 maxout.

(** ** The integrity errors of a data chunk

    The errors of the next chunk of [s] as the specification names them, on
    the payload that follows the header in the stream and not on what the
    program has computed: the Adler-32 of the payload is not the checksum of
    the header, for a stored or for a compressed chunk; the decompressor,
    run on the payload as line 471 runs it (the payload at the start of the
    compressed buffer [cb], the decompressed buffer [ob] as output), returns
    an [int] that is not [extra], the checksum being right; [options] is
    neither 0 nor 1. *)
Inductive payload_error (E : env) (s : state) : Prop :=
  | stored_payload_corrupt :
      chunk_options (next_header E s) = 0 ->
      Adler.rfc_adler32 (payload E s) <> chunk_checksum (next_header E s) ->
      payload_error E s
  | compressed_payload_corrupt :
      chunk_options (next_header E s) = 1 ->
      Adler.rfc_adler32 (payload E s) <> chunk_checksum (next_header E s) ->
      payload_error E s
  | decompressed_length_differs (cb ob : list byte) (result : Z) :
      chunk_options (next_header E s) = 1 ->
      Adler.rfc_adler32 (payload E s) = chunk_checksum (next_header E s) ->
      compressed_buffer (grown E (next_header E s) (past_header E s))
      = Some cb ->
      decompressed_buffer (grown E (next_header E s) (past_header E s))
      = Some ob ->
      fst (fastlz_decompress E (mem_write cb (payload E s))
             (chunk_size (next_header E s)) (Some ob)
             (sint (chunk_extra (next_header E s)))) = result ->
      - 2 ^ 31 <= result < 2 ^ 31 ->
      result <> chunk_extra (next_header E s) ->
      payload_error E s
  | options_unknown :
      chunk_options (next_header E s) <> 0 ->
      chunk_options (next_header E s) <> 1 ->
      payload_error E s.

(** What such a chunk has appended to the open file when the file is
    abandoned: the payload of a stored chunk, which is written before it is
    checked, and nothing otherwise. *)
Definition partial_output (E : env) (s : state) : list byte :=
  if chunk_options (next_header E s) =? 0 then payload E s else [].

(** ** Sample archives

    Small archives and environments on which the theorems below are
    instantiated and the code is run. *)

Module Sample.

(** A chunk: its header and its payload. *)
Definition chunk_bytes (id options extra checksum : Z) (bytes : list byte)
  : list byte :=
  encode_header
    (mkChunk id options (Z.of_nat (length bytes)) checksum extra)
  ++ bytes.

(** A chunk whose header carries the checksum of its payload. *)
Definition sealed (id options extra : Z) (bytes : list byte) : list byte :=
  chunk_bytes id options extra
    (Adler.update_adler32 1 bytes (Z.of_nat (length bytes))) bytes.

(** The payload of a file entry: the decompressed size at offset 0, the
    length of the name at offset 8 and the name at offset 10. *)
Definition entry_bytes (size name_length : Z) (name : list byte) : list byte :=
  le_bytes 4 size ++ le_bytes 4 0 ++ le_bytes 2 name_length ++ name.

(** "hello.txt" and "world" *)
Definition hello_txt : list byte :=
  [x68; x65; x6c; x6c; x6f; x2e; x74; x78; x74].

Definition world : list byte := [x77; x6f; x72; x6c; x64].

(** "a.6pk", "b" *)
Definition a_6pk : path := [x61; x2e; x36; x70; x6b].

Definition b_name : list byte := [x62].

(** A stand-in for the decompressor: it takes its input for literal bytes. *)
Definition copy_decompress
  (input : list byte) (length : Z) (output : option (list byte)) (maxout : Z)
  : Z * list byte :=
  if length <=? maxout then (length, firstn (Z.to_nat length) input)
  else (0, []).

(** Memory starts zeroed, every allocation succeeds, every file may be
    read, every path can be created. *)
Definition plain : env :=
  mkEnv (fun _ => x00) (fun _ _ => true) (fun _ => true) (fun _ => true)
    copy_decompress.

(** The same, but hello.txt may not be read (it may be written). *)
Definition write_only : env :=
  mkEnv (fun _ => x00) (fun _ _ => true)
    (fun p => negb (path_eqb p hello_txt)) (fun _ => true) copy_decompress.

(** The same, but the third allocation of the run fails: with the
    archives below it is the one of the decompressed buffer. *)
Definition third_malloc_fails : env :=
  mkEnv (fun _ => x00) (fun n _ => negb (n =? 2)%nat) (fun _ => true)
    (fun _ => true) copy_decompress.

(** hello.txt, 5 bytes, stored as "world". *)
Definition hello_archive : list byte :=
  sixpack_magic
  ++ sealed 1 0 0 (entry_bytes 5 9 hello_txt)
  ++ sealed 17 0 5 world.

(** The same entry with a name length of 300 in place of 9. *)
Definition long_name_archive : list byte :=
  sixpack_magic
  ++ sealed 1 0 0 (entry_bytes 5 300 hello_txt)
  ++ sealed 17 0 5 world.

(** The same entry with a checksum that is not the one of its payload. *)
Definition bad_entry_archive : list byte :=
  sixpack_magic
  ++ chunk_bytes 1 0 0 7 (entry_bytes 5 9 hello_txt)
  ++ sealed 17 0 5 world.

(** hello.txt with a stored chunk whose checksum is wrong, then b, stored
    as "world". *)
Definition bad_stored_archive : list byte :=
  sixpack_magic
  ++ sealed 1 0 0 (entry_bytes 5 9 hello_txt)
  ++ chunk_bytes 17 0 5 7 world
  ++ sealed 1 0 0 (entry_bytes 5 1 b_name)
  ++ sealed 17 0 5 world.

(** hello.txt with a compressed chunk of 5 bytes for 7 whose checksum is
    wrong, then b, stored as "world". *)
Definition bad_compressed_archive : list byte :=
  sixpack_magic
  ++ sealed 1 0 0 (entry_bytes 7 9 hello_txt)
  ++ chunk_bytes 17 1 7 7 world
  ++ sealed 1 0 0 (entry_bytes 5 1 b_name)
  ++ sealed 17 0 5 world.

(** hello.txt with a compressed chunk of 5 bytes for 5. *)
Definition compressed_archive : list byte :=
  sixpack_magic
  ++ sealed 1 0 0 (entry_bytes 5 9 hello_txt)
  ++ sealed 17 1 5 world.

(** The disk with nothing but the archive, under the name a.6pk. *)
Definition disk_with (archive : list byte) : disk := [(a_6pk, archive)].

(** The state in which the loop is entered on that disk. *)
Definition start (E : env) (archive : list byte) : state :=
  initial_state E (mkFILE archive 0) (disk_with archive).

(** The state a pass ends in. *)
Definition after (E : env) (s : state) : state :=
  match loop_body E s with
  | Continue s' => s'
  | Return _ s' => s'
  | Abort s' => s'
  end.

(** hello.txt with a compressed chunk of no bytes for no bytes whose
    checksum is wrong (7 for 1). *)
Definition corrupt_empty_archive : list byte :=
  sixpack_magic
  ++ sealed 1 0 0 (entry_bytes 5 9 hello_txt)
  ++ chunk_bytes 17 1 0 7 [].

(** hello.txt with a compressed chunk of no bytes for no bytes. *)
Definition empty_compressed_archive : list byte :=
  sixpack_magic
  ++ sealed 1 0 0 (entry_bytes 5 9 hello_txt)
  ++ sealed 17 1 0 [].

(** The disk with the archive and a file hello.txt that holds "!". *)
Definition occupied_disk (archive : list byte) : disk :=
  [(a_6pk, archive); (hello_txt, [x21])].

(** Whether a pass reaches the bottom of the loop. *)
Definition goes_on (r : flow) : bool :=
  match r with
  | Continue _ => true
  | _ => false
  end.

(** Whether a pass ends in [abort()]. *)
Definition aborts (r : flow) : bool :=
  match r with
  | Abort _ => true
  | _ => false
  end.

End Sample.

(** * Machine integers and bytes *)

Lemma b2z_range (b : byte) : 0 <= b2z b < 256.
Proof. unfold b2z. pose proof (Byte.to_N_bounded b). lia. Qed.

Lemma b2z_z2b (z : Z) : b2z (z2b z) = z mod 256.
Proof.
  unfold b2z, z2b.
  assert (0 <= z mod 256 < 256) by (apply Z.mod_pos_bound; lia).
  destruct (Byte.of_N (Z.to_N (z mod 256))) eqn:E.
  - apply Byte.to_of_N in E. rewrite E. lia.
  - apply Byte.of_N_None_iff in E. lia.
Qed.

Lemma ulong_small (x : Z) : 0 <= x < 2 ^ 64 -> ulong x = x.
Proof. intros. unfold ulong. apply Z.mod_small. lia. Qed.

Lemma uint_small (x : Z) : 0 <= x < 2 ^ 32 -> uint x = x.
Proof. intros. unfold uint. apply Z.mod_small. lia. Qed.

Lemma sint_small (x : Z) : - 2 ^ 31 <= x < 2 ^ 31 -> sint x = x.
Proof. intros. unfold sint. rewrite Z.mod_small; lia. Qed.

Lemma slong_small (x : Z) : - 2 ^ 63 <= x < 2 ^ 63 -> slong x = x.
Proof. intros. unfold slong. rewrite Z.mod_small; lia. Qed.

Lemma lor_shiftl_16 (hi lo : Z) :
  0 <= hi -> 0 <= lo < 2 ^ 16 -> Z.lor (Z.shiftl hi 16) lo = hi * 2 ^ 16 + lo.
Proof.
  intros Hhi Hlo.
  assert (D : Z.land (Z.shiftl hi 16) lo = 0).
  { apply Z.bits_inj'. intros n Hn.
    rewrite Z.land_spec, Z.bits_0.
    destruct (Z.ltb_spec n 16).
    - rewrite Z.shiftl_spec_low by lia. reflexivity.
    - replace (Z.testbit lo n) with false; [apply andb_false_r|].
      symmetry. destruct (Z.eqb_spec lo 0) as [->|].
      + apply Z.bits_0.
      + apply Z.bits_above_log2; [lia|].
        assert (Z.log2 lo < 16) by (apply Z.log2_lt_pow2; lia). lia. }
  pose proof (Z.add_lor_land (Z.shiftl hi 16) lo) as A.
  rewrite D in A. rewrite (Z.shiftl_mul_pow2 hi 16) in * by lia. lia.
Qed.

(** * Adler-32 *)

Section AdlerFacts.

Import Adler.

Lemma iter_adler_byte (n : nat) :
  forall s1 s2 ptr,
    (n <= length ptr)%nat ->
    0 <= s1 -> 0 <= s2 ->
    s1 + 255 * Z.of_nat n <= 2 ^ 21 ->
    s2 + Z.of_nat n * 2 ^ 21 <= 2 ^ 40 ->
    Nat.iter n adler_byte (s1, s2, ptr)
    = (raw_sums (s1, s2) (firstn n ptr), skipn n ptr).
Proof.
  induction n as [|n IH]; intros s1 s2 ptr Hlen H1 H2 B1 B2.
  - reflexivity.
  - destruct ptr as [|b ptr]; [simpl in Hlen; lia|].
    rewrite Nat.iter_succ_r. cbn [adler_byte hd tl].
    pose proof (b2z_range b).
    rewrite (ulong_small (s1 + b2z b)) by lia.
    rewrite (ulong_small (s2 + (s1 + b2z b))) by lia.
    rewrite IH by (simpl in Hlen; lia).
    reflexivity.
Qed.

Lemma adler_unrolled_spec (fuel : nat) :
  forall k a,
    0 <= k < 2 ^ 32 -> k <= Z.of_nat fuel ->
    adler_unrolled fuel k a
    = (k mod 8, Nat.iter (Z.to_nat (8 * (k / 8))) adler_byte a).
Proof.
  induction fuel as [|fuel IH]; intros k a Hk Hf.
  - assert (k = 0) by lia. subst. reflexivity.
  - cbn [adler_unrolled]. destruct (Z.leb_spec 8 k) as [G|G].
    + rewrite (uint_small (k - 8)) by lia.
      rewrite IH by lia.
      replace ((k - 8) mod 8) with (k mod 8)
        by (Z.to_euclidean_division_equations; lia).
      assert (Q : k / 8 = (k - 8) / 8 + 1)
        by (Z.to_euclidean_division_equations; lia).
      assert (0 <= (k - 8) / 8) by (apply Z.div_pos; lia).
      replace (Z.to_nat (8 * (k / 8)))
        with (Z.to_nat (8 * ((k - 8) / 8)) + 8)%nat by (rewrite Q; lia).
      rewrite Nat.iter_add. reflexivity.
    + rewrite Z.mod_small, Z.div_small by lia. reflexivity.
Qed.

Lemma adler_tail_spec (fuel : nat) :
  forall k a,
    0 <= k < 2 ^ 32 -> k <= Z.of_nat fuel ->
    adler_tail fuel k a = Nat.iter (Z.to_nat k) adler_byte a.
Proof.
  induction fuel as [|fuel IH]; intros k a Hk Hf.
  - assert (k = 0) by lia. subst. reflexivity.
  - cbn [adler_tail]. destruct (Z.ltb_spec 0 k) as [G|G].
    + rewrite (uint_small (k - 1)) by lia.
      rewrite IH by lia.
      replace (Z.to_nat k) with (S (Z.to_nat (k - 1))) by lia.
      rewrite Nat.iter_succ_r. reflexivity.
    + assert (k = 0) by lia. subst. reflexivity.
Qed.

(** The two inner loops together handle [k] bytes. *)
Lemma adler_inner_loops (k : Z) (a : acc) :
  0 <= k < 2 ^ 32 ->
  (let '(k', a') := adler_unrolled (Z.to_nat k) k a in
   adler_tail (Z.to_nat k') k' a')
  = Nat.iter (Z.to_nat k) adler_byte a.
Proof.
  intros Hk. rewrite adler_unrolled_spec by lia.
  assert (0 <= k mod 8 < 8) by (apply Z.mod_pos_bound; lia).
  rewrite adler_tail_spec by lia.
  rewrite <- Nat.iter_add. f_equal.
  assert (0 <= k / 8) by (apply Z.div_pos; lia).
  pose proof (Z.div_mod k 8). lia.
Qed.

Lemma rfc_sums_app st bs cs :
  rfc_sums st (bs ++ cs) = rfc_sums (rfc_sums st bs) cs.
Proof. apply fold_left_app. Qed.

Lemma rfc_step_reduced st b :
  0 <= fst (rfc_step st b) < ADLER32_BASE
  /\ 0 <= snd (rfc_step st b) < ADLER32_BASE.
Proof.
  unfold rfc_step, ADLER32_BASE; cbn [fst snd].
  split; apply Z.mod_pos_bound; lia.
Qed.

Lemma rfc_sums_reduced bs :
  forall st,
    0 <= fst st < ADLER32_BASE -> 0 <= snd st < ADLER32_BASE ->
    0 <= fst (rfc_sums st bs) < ADLER32_BASE
    /\ 0 <= snd (rfc_sums st bs) < ADLER32_BASE.
Proof.
  induction bs as [|b bs IH]; intros st H1 H2; [now split|].
  cbn [rfc_sums fold_left]. apply IH; apply rfc_step_reduced.
Qed.

Lemma rfc_sums_nonempty_reduced bs st :
  bs <> [] ->
  0 <= fst (rfc_sums st bs) < ADLER32_BASE
  /\ 0 <= snd (rfc_sums st bs) < ADLER32_BASE.
Proof.
  destruct bs as [|b bs]; [congruence|]. intros _.
  cbn [rfc_sums fold_left]. apply rfc_sums_reduced; apply rfc_step_reduced.
Qed.

(** Reducing after every byte or once at the end of a block is the same. *)
Lemma raw_sums_congruent bs :
  forall st st',
    fst st mod ADLER32_BASE = fst st' mod ADLER32_BASE ->
    snd st mod ADLER32_BASE = snd st' mod ADLER32_BASE ->
    fst (raw_sums st bs) mod ADLER32_BASE
    = fst (rfc_sums st' bs) mod ADLER32_BASE
    /\ snd (raw_sums st bs) mod ADLER32_BASE
       = snd (rfc_sums st' bs) mod ADLER32_BASE.
Proof.
  induction bs as [|b bs IH]; intros st st' H1 H2; [now split|].
  cbn [raw_sums rfc_sums fold_left]. apply IH.
  - unfold raw_step, rfc_step; cbn [fst snd].
    rewrite Z.mod_mod by (unfold ADLER32_BASE; lia).
    rewrite (Z.add_mod (fst st)), H1, <- Z.add_mod
      by (unfold ADLER32_BASE; lia).
    reflexivity.
  - unfold raw_step, rfc_step; cbn [fst snd].
    rewrite Z.mod_mod by (unfold ADLER32_BASE; lia).
    rewrite (Z.add_mod (snd st)), H2 by (unfold ADLER32_BASE; lia).
    rewrite (Z.add_mod (fst st)), H1, <- (Z.add_mod (fst st'))
      by (unfold ADLER32_BASE; lia).
    rewrite (Z.add_mod (snd st') ((fst st' + b2z b) mod ADLER32_BASE))
      by (unfold ADLER32_BASE; lia).
    rewrite Z.mod_mod by (unfold ADLER32_BASE; lia).
    reflexivity.
Qed.

Lemma raw_sums_reduce bs st :
  bs <> [] ->
  (fst (raw_sums st bs) mod ADLER32_BASE,
   snd (raw_sums st bs) mod ADLER32_BASE)
  = rfc_sums st bs.
Proof.
  intros Hne.
  destruct (raw_sums_congruent bs st st eq_refl eq_refl) as [A B].
  destruct (rfc_sums_nonempty_reduced bs st Hne) as [C D].
  rewrite A, B, !Z.mod_small by assumption.
  destruct (rfc_sums st bs); reflexivity.
Qed.

Lemma firstn_plus {A : Type} (n m : nat) :
  forall l : list A, firstn (n + m) l = firstn n l ++ firstn m (skipn n l).
Proof.
  induction n as [|n IH]; intros [|x l]; cbn [Nat.add firstn skipn app];
    try reflexivity.
  - now rewrite firstn_nil.
  - now rewrite IH.
Qed.

(** The outer loop: with fuel for [len] passes it handles the first [len]
    bytes, and leaves the sums reduced as soon as there is one byte. *)
Lemma adler_blocks_spec (fuel : nat) :
  forall len s1 s2 ptr,
    0 <= len <= INT_MAX ->
    len <= Z.of_nat fuel ->
    len <= Z.of_nat (length ptr) ->
    0 <= s1 < 2 ^ 16 -> 0 <= s2 < 2 ^ 16 ->
    adler_blocks fuel len (s1, s2, ptr)
    = if len =? 0 then (s1, s2, ptr)
      else (rfc_sums (s1, s2) (firstn (Z.to_nat len) ptr),
            skipn (Z.to_nat len) ptr).
Proof.
  induction fuel as [|fuel IH]; intros len s1 s2 ptr Hlen Hf Hp H1 H2.
  - assert (len = 0) by lia. subst. reflexivity.
  - cbn [adler_blocks]. destruct (Z.ltb_spec 0 len) as [G|G].
    2:{ assert (len = 0) by lia. subst. reflexivity. }
    replace (len =? 0) with false by (symmetry; apply Z.eqb_neq; lia).
    set (k := if len <? 5552 then len else 5552).
    assert (Hk : 0 < k <= 5552 /\ k <= len).
    { unfold k. destruct (Z.ltb_spec len 5552); lia. }
    clearbody k. unfold INT_MAX in *.
    rewrite (uint_small k) by lia.
    rewrite (sint_small (len - k)) by lia.
    pose proof (adler_inner_loops k (s1, s2, ptr)) as L.
    destruct (adler_unrolled (Z.to_nat k) k (s1, s2, ptr)) as [k' a'].
    rewrite L by lia. clear L.
    rewrite iter_adler_byte by lia.
    assert (Hne : firstn (Z.to_nat k) ptr <> []).
    { intro E. apply (f_equal (@length byte)) in E.
      rewrite length_firstn in E. simpl in E. lia. }
    pose proof (raw_sums_reduce (firstn (Z.to_nat k) ptr) (s1, s2) Hne) as R.
    destruct (rfc_sums_nonempty_reduced _ (s1, s2) Hne) as [C D].
    rewrite <- R in C, D. cbn [fst snd] in C, D.
    destruct (raw_sums (s1, s2) (firstn (Z.to_nat k) ptr)) as [r1 r2].
    cbn [fst snd] in R, C, D. cbv beta iota.
    unfold ADLER32_BASE in *.
    rewrite IH; try lia.
    2:{ rewrite length_skipn. lia. }
    rewrite R.
    destruct (Z.eqb_spec (len - k) 0) as [Z0|NZ].
    + replace len with k by lia. reflexivity.
    + replace (skipn (Z.to_nat len) ptr)
        with (skipn (Z.to_nat (len - k)) (skipn (Z.to_nat k) ptr))
        by (rewrite skipn_skipn; f_equal; lia).
      replace (firstn (Z.to_nat len) ptr)
        with (firstn (Z.to_nat k) ptr
              ++ firstn (Z.to_nat (len - k)) (skipn (Z.to_nat k) ptr))
        by (rewrite <- firstn_plus; f_equal; lia).
      rewrite rfc_sums_app. reflexivity.
Qed.

(** What [update_adler32] returns on the first [len] bytes of a block, for a
    [len] an [int] can hold. *)
Lemma update_adler32_spec (checksum : Z) (buf : list byte) (len : Z) :
  0 < len <= INT_MAX ->
  len <= Z.of_nat (length buf) ->
  update_adler32 checksum buf len
  = pack (rfc_sums (Z.land checksum 65535,
                    Z.land (Z.shiftr checksum 16) 65535)
            (firstn (Z.to_nat len) buf)).
Proof.
  intros Hlen Hb. unfold update_adler32.
  assert (M : forall x, 0 <= Z.land x 65535 < 2 ^ 16).
  { intros x. change 65535 with (Z.ones 16). rewrite Z.land_ones by lia.
    apply Z.mod_pos_bound. lia. }
  rewrite adler_blocks_spec; try lia; try apply M.
  replace (len =? 0) with false by (symmetry; apply Z.eqb_neq; lia).
  assert (Hne : firstn (Z.to_nat len) buf <> []).
  { intro E. apply (f_equal (@length byte)) in E.
    rewrite length_firstn in E. simpl in E. lia. }
  destruct (rfc_sums_nonempty_reduced _
              (Z.land checksum 65535, Z.land (Z.shiftr checksum 16) 65535)
              Hne) as [C D].
  destruct (rfc_sums _ _) as [r1 r2]. cbn [fst snd] in *.
  unfold ADLER32_BASE in *. unfold pack; cbn [fst snd].
  rewrite lor_shiftl_16 by lia.
  rewrite Z.shiftl_mul_pow2 by lia. apply ulong_small. lia.
Qed.

Lemma update_adler32_no_bytes (checksum : Z) (buf : list byte) (len : Z) :
  len <= 0 ->
  update_adler32 checksum buf len
  = ulong (Z.shiftl (Z.land (Z.shiftr checksum 16) 65535) 16
           + Z.land checksum 65535).
Proof.
  intros H. unfold update_adler32.
  replace (Z.to_nat len) with O by lia. reflexivity.
Qed.

Lemma unpack_pack (s1 s2 : Z) :
  0 <= s1 < 2 ^ 16 -> 0 <= s2 < 2 ^ 16 ->
  pack (s1, s2) = s2 * 2 ^ 16 + s1
  /\ Z.land (pack (s1, s2)) 65535 = s1
  /\ Z.land (Z.shiftr (pack (s1, s2)) 16) 65535 = s2.
Proof.
  intros H1 H2. unfold pack; cbn [fst snd].
  rewrite lor_shiftl_16 by lia.
  change 65535 with (Z.ones 16). rewrite !Z.land_ones by lia.
  rewrite Z.shiftr_div_pow2 by lia.
  repeat split; Z.to_euclidean_division_equations; lia.
Qed.

Lemma update_adler32_of_pack (st : Z * Z) (bs : list byte) :
  0 <= fst st < ADLER32_BASE -> 0 <= snd st < ADLER32_BASE ->
  Z.of_nat (length bs) <= INT_MAX ->
  update_adler32 (pack st) bs (Z.of_nat (length bs)) = pack (rfc_sums st bs).
Proof.
  destruct st as [s1 s2]; cbn [fst snd]; unfold ADLER32_BASE; intros H1 H2 Hn.
  destruct (unpack_pack s1 s2) as (P & L & Hh); try lia.
  destruct bs as [|b bs].
  - rewrite update_adler32_no_bytes by (simpl; lia).
    rewrite L, Hh, Z.shiftl_mul_pow2, ulong_small by lia.
    symmetry. exact P.
  - rewrite update_adler32_spec; try (cbn [length] in *; lia).
    rewrite L, Hh, Nat2Z.id, firstn_all. reflexivity.
Qed.

Lemma update_adler32_from_1 (bs : list byte) :
  Z.of_nat (length bs) <= INT_MAX ->
  update_adler32 1 bs (Z.of_nat (length bs)) = rfc_adler32 bs.
Proof.
  intros H. change 1 with (pack (1, 0)) at 1.
  apply update_adler32_of_pack; cbn [fst snd]; unfold ADLER32_BASE; lia.
Qed.

Lemma adler_blocks_reduced (fuel : nat) :
  forall len a, reduced a -> reduced (adler_blocks fuel len a).
Proof.
  induction fuel as [|fuel IH]; intros len a Ha; [exact Ha|].
  cbn [adler_blocks]. destruct (0 <? len); [|exact Ha].
  destruct (adler_unrolled _ _ a) as [k' a'].
  destruct (adler_tail _ k' a') as [[s1 s2] ptr].
  apply IH. split; cbn [fst snd]; apply Z.mod_pos_bound;
    unfold ADLER32_BASE; lia.
Qed.

Lemma adler_blocks_first_pass (len : Z) (a : acc) :
  0 < len -> reduced (adler_blocks (Z.to_nat len) len a).
Proof.
  intros H. destruct (Z.to_nat len) as [|fuel] eqn:F; [lia|].
  cbn [adler_blocks]. replace (0 <? len) with true
    by (symmetry; apply Z.ltb_lt; lia).
  destruct (adler_unrolled _ _ a) as [k' a'].
  destruct (adler_tail _ k' a') as [[s1 s2] ptr].
  apply adler_blocks_reduced. split; cbn [fst snd]; apply Z.mod_pos_bound;
    unfold ADLER32_BASE; lia.
Qed.

End AdlerFacts.

(** C4.  [update_adler32] of 1 and the empty sequence is 1; computing the
    checksum of a prefix [A] and resuming with the suffix [B] gives the
    checksum of [A ++ B]; and the
    checksum of the whole sequence is [(s2 << 16) | s1] for the sums [s1] and
    [s2] of RFC 1950, both reduced modulo 65521.  The length is passed as an
    [int], so the sequence has at most [INT_MAX] bytes. *)
Theorem update_adler32_chunked (A B : list byte) :
  Z.of_nat (length (A ++ B)) <= INT_MAX ->
  Adler.update_adler32 1 [] 0 = 1
  /\ Adler.update_adler32
       (Adler.update_adler32 1 A (Z.of_nat (length A)))
       B (Z.of_nat (length B))
     = Adler.update_adler32 1 (A ++ B) (Z.of_nat (length (A ++ B)))
  /\ (let s1 := fst (Adler.rfc_sums (1, 0) (A ++ B)) in
      let s2 := snd (Adler.rfc_sums (1, 0) (A ++ B)) in
      Adler.update_adler32 1 (A ++ B) (Z.of_nat (length (A ++ B)))
      = Z.lor (Z.shiftl s2 16) s1
      /\ 0 <= s1 < 65521 /\ 0 <= s2 < 65521).
Proof.
  intros H. pose proof H as H'. rewrite length_app in H'.
  assert (R0 : 0 <= fst (1, 0) < Adler.ADLER32_BASE
               /\ 0 <= snd (1, 0) < Adler.ADLER32_BASE)
    by (cbn [fst snd]; unfold Adler.ADLER32_BASE; lia).
  split; [reflexivity|]. split.
  - rewrite (update_adler32_from_1 A) by lia.
    rewrite (update_adler32_from_1 (A ++ B)) by lia.
    unfold Adler.rfc_adler32.
    rewrite update_adler32_of_pack; try lia.
    + now rewrite rfc_sums_app.
    + apply rfc_sums_reduced; apply R0.
    + apply rfc_sums_reduced; apply R0.
  - cbv zeta. split.
    + rewrite update_adler32_from_1 by lia. reflexivity.
    + apply (rfc_sums_reduced (A ++ B) (1, 0)); apply R0.
Qed.

(** C10, as the code has it.  On no bytes ([len <= 0]) [update_adler32]
    returns its seed, for every seed below 2^32, that is for every value
    that is a 32-bit checksum; on at least one byte the low and the high 16
    bits of what it returns are both below 65521, for every seed. *)
Theorem update_adler32_canonical (seed : Z) (buf : list byte) (len : Z) :
  (0 <= seed < 2 ^ 32 -> len <= 0 -> Adler.update_adler32 seed buf len = seed)
  /\ (0 < len ->
      Z.land (Adler.update_adler32 seed buf len) 65535 < 65521
      /\ Z.land (Z.shiftr (Adler.update_adler32 seed buf len) 16) 65535
         < 65521).
Proof.
  split.
  - intros Hs Hl. rewrite update_adler32_no_bytes by assumption.
    change 65535 with (Z.ones 16). rewrite !Z.land_ones by lia.
    rewrite Z.shiftr_div_pow2, Z.shiftl_mul_pow2 by lia.
    unfold ulong. Z.to_euclidean_division_equations; lia.
  - intros Hl. unfold Adler.update_adler32.
    pose proof (adler_blocks_first_pass len
                  (Z.land seed 65535, Z.land (Z.shiftr seed 16) 65535, buf) Hl)
      as [R1 R2].
    destruct (Adler.adler_blocks _ _ _) as [[s1 s2] ptr].
    cbn [fst snd] in R1, R2. unfold Adler.ADLER32_BASE in *.
    rewrite Z.shiftl_mul_pow2, ulong_small by lia.
    change 65535 with (Z.ones 16). rewrite !Z.land_ones by lia.
    rewrite Z.shiftr_div_pow2 by lia.
    split; Z.to_euclidean_division_equations; lia.
Qed.

(** * Chunk headers *)

Lemma readU16_le (x : Z) (rest : list byte) :
  0 <= x < 2 ^ 16 -> readU16 (le_bytes 2 x ++ rest) = x.
Proof.
  intros H. unfold readU16, le_bytes, peek. cbn [seq map app nth].
  rewrite !b2z_z2b.
  change (8 * Z.of_nat 0) with 0. change (8 * Z.of_nat 1) with 8.
  rewrite Z.shiftr_0_r, Z.shiftr_div_pow2, Z.shiftl_mul_pow2 by lia.
  assert (B1 : 0 <= (x / 2 ^ 8) mod 256 < 256) by (apply Z.mod_pos_bound; lia).
  assert (B0 : 0 <= x mod 256 < 256) by (apply Z.mod_pos_bound; lia).
  rewrite (sint_small (_ * _)) by lia.
  rewrite sint_small by lia. rewrite ulong_small by lia.
  Z.to_euclidean_division_equations; lia.
Qed.

Lemma readU32_le (x : Z) (rest : list byte) :
  0 <= x < 2 ^ 32 -> Z.land (readU32 (le_bytes 4 x ++ rest)) 0xffffffff = x.
Proof.
  intros H. unfold readU32, le_bytes, peek. cbn [seq map app nth].
  rewrite !b2z_z2b.
  change (8 * Z.of_nat 0) with 0. change (8 * Z.of_nat 1) with 8.
  change (8 * Z.of_nat 2) with 16. change (8 * Z.of_nat 3) with 24.
  rewrite Z.shiftr_0_r, !Z.shiftr_div_pow2, !Z.shiftl_mul_pow2 by lia.
  set (b0 := x mod 256). set (b1 := (x / 2 ^ 8) mod 256).
  set (b2 := (x / 2 ^ 16) mod 256). set (b3 := (x / 2 ^ 24) mod 256).
  assert (B0 : 0 <= b0 < 256) by (apply Z.mod_pos_bound; lia).
  assert (B1 : 0 <= b1 < 256) by (apply Z.mod_pos_bound; lia).
  assert (B2 : 0 <= b2 < 256) by (apply Z.mod_pos_bound; lia).
  assert (B3 : 0 <= b3 < 256) by (apply Z.mod_pos_bound; lia).
  assert (X : x = b0 + b1 * 2 ^ 8 + b2 * 2 ^ 16 + b3 * 2 ^ 24).
  { unfold b0, b1, b2, b3. Z.to_euclidean_division_equations; lia. }
  clearbody b0 b1 b2 b3.
  rewrite (sint_small (b1 * _)) by lia.
  rewrite (sint_small (b2 * _)) by lia.
  rewrite (sint_small (b0 + _)) by lia.
  rewrite (sint_small (b0 + _ + _)) by lia.
  change 0xffffffff with (Z.ones 32). rewrite Z.land_ones by lia.
  unfold ulong, sint.
  Z.to_euclidean_division_equations; lia.
Qed.

Lemma decode_encode_header (h : chunk) (rest : list byte) :
  0 <= chunk_id h < 2 ^ 16 ->
  0 <= chunk_options h < 2 ^ 16 ->
  0 <= chunk_size h < 2 ^ 32 ->
  0 <= chunk_checksum h < 2 ^ 32 ->
  0 <= chunk_extra h < 2 ^ 32 ->
  decode_header (encode_header h ++ rest) = h.
Proof.
  intros Hi Ho Hs Hc He. destruct h as [i o sz c e]; cbn [chunk_id
    chunk_options chunk_size chunk_checksum chunk_extra] in *.
  unfold decode_header, encode_header.
  cbn [chunk_id chunk_options chunk_size chunk_checksum chunk_extra].
  rewrite <- !app_assoc.
  rewrite (readU16_le i) by assumption.
  change (skipn 2 (le_bytes 2 i ++ ?l)) with l.
  change (skipn 4 (le_bytes 2 i ++ le_bytes 2 o ++ ?l)) with l.
  change (skipn 8 (le_bytes 2 i ++ le_bytes 2 o ++ le_bytes 4 sz ++ ?l))
    with l.
  change (skipn 12 (le_bytes 2 i ++ le_bytes 2 o ++ le_bytes 4 sz
                    ++ le_bytes 4 c ++ ?l)) with l.
  rewrite (readU16_le o), (readU32_le sz), (readU32_le c), (readU32_le e)
    by assumption.
  change 0xffff with (Z.ones 16). rewrite !Z.land_ones by lia.
  rewrite !Z.mod_small by lia. rewrite !sint_small by lia.
  reflexivity.
Qed.

Lemma skipn_length_app {A : Type} (l r : list A) : skipn (length l) (l ++ r) = r.
Proof. induction l as [|x l IH]; [reflexivity | exact IH]. Qed.

Lemma firstn_length_app {A : Type} (l r : list A) :
  firstn (length l) (l ++ r) = l.
Proof. induction l as [|x l IH]; [reflexivity | cbn; now rewrite IH]. Qed.

(** Reading a block that the stream holds at its position. *)
Lemma fread_block (before block rest : list byte) :
  fread (Z.of_nat (length block))
    (mkFILE (before ++ block ++ rest) (Z.of_nat (length before)))
  = (block,
     mkFILE (before ++ block ++ rest)
       (Z.of_nat (length before) + Z.of_nat (length block))).
Proof.
  unfold fread; cbn [contents fpos]. rewrite !Nat2Z.id.
  rewrite skipn_length_app, firstn_length_app. reflexivity.
Qed.

(** C5.  A header whose id and options fit 16 bits and whose size, checksum
    and extra fit 32 bits, laid out in 16 little-endian bytes, is what the
    decoder returns: from the 16 bytes, and through [read_chunk_header] from
    a stream that holds them at its position. *)
Theorem chunk_header_round_trip
  (E : env) (h : chunk) (before rest : list byte) :
  0 <= chunk_id h < 2 ^ 16 ->
  0 <= chunk_options h < 2 ^ 16 ->
  0 <= chunk_size h < 2 ^ 32 ->
  0 <= chunk_checksum h < 2 ^ 32 ->
  0 <= chunk_extra h < 2 ^ 32 ->
  length (encode_header h) = 16%nat
  /\ decode_header (encode_header h) = h
  /\ read_chunk_header E
       (mkFILE (before ++ encode_header h ++ rest)
          (Z.of_nat (length before)))
     = (h, mkFILE (before ++ encode_header h ++ rest)
             (Z.of_nat (length before) + 16)).
Proof.
  intros Hi Ho Hs Hc He.
  assert (L : length (encode_header h) = 16%nat) by reflexivity.
  split; [exact L|]. split.
  - rewrite <- (app_nil_r (encode_header h)).
    now apply decode_encode_header.
  - unfold read_chunk_header.
    change 16 with (Z.of_nat 16). rewrite <- L, fread_block.
    unfold mem_write. rewrite decode_encode_header by assumption.
    reflexivity.
Qed.

(** * detect_magic *)

Lemma byte_eqb_neq (a b : byte) : a <> b -> Byte.eqb a b = false.
Proof.
  intros H. destruct (Byte.eqb a b) eqn:Q; [|reflexivity].
  apply Byte.byte_dec_bl in Q. contradiction.
Qed.

Lemma magic_scan_mismatch (buffer : list byte) (c : nat) (cs : list nat) :
  In c cs ->
  peek buffer c <> peek sixpack_magic c ->
  magic_scan cs buffer = 0.
Proof.
  intros Hin Hne. induction cs as [|d cs IH]; [destruct Hin|].
  cbn [magic_scan].
  destruct (Byte.eqb (peek buffer d) (peek sixpack_magic d)) eqn:Q;
    [|reflexivity].
  cbn [negb]. destruct Hin as [->|Hin]; [|now apply IH].
  rewrite byte_eqb_neq in Q by assumption. discriminate.
Qed.

Lemma fseek_start (stream : FILE) :
  fseek stream SEEK_SET 0 = mkFILE (contents stream) 0.
Proof. reflexivity. Qed.

Lemma detect_magic_unfold (E : env) (bytes : list byte) (pos : Z) :
  detect_magic E (mkFILE bytes pos)
  = (if Z.of_nat (length (firstn 8 bytes)) <? 8 then 0
     else magic_scan (seq 0 8) (mem_write (fresh E 8) (firstn 8 bytes)),
     mkFILE bytes 0).
Proof.
  unfold detect_magic. rewrite fseek_start. unfold fread.
  rewrite fseek_start. cbn [contents fpos].
  change (Z.to_nat 0) with O. change (Z.to_nat 8) with 8%nat. cbn [skipn].
  destruct (Z.of_nat (length (firstn 8 bytes)) <? 8); reflexivity.
Qed.

(** C6.  On a stream shorter than 8 bytes, or with a byte among its first 8
    that is not the byte of the signature, [detect_magic] returns 0 and
    leaves the stream at its start; on a stream that starts with the
    signature it returns non-zero (-1) and leaves the stream at its start. *)
Theorem detect_magic_spec (E : env) (stream : FILE) :
  ((length (contents stream) < 8)%nat
   \/ (exists c, (c < 8)%nat
                 /\ peek (contents stream) c <> peek sixpack_magic c) ->
   detect_magic E stream = (0, mkFILE (contents stream) 0))
  /\ (firstn 8 (contents stream) = sixpack_magic ->
      detect_magic E stream = (-1, mkFILE (contents stream) 0)).
Proof.
  destruct stream as [bytes pos]. rewrite detect_magic_unfold.
  cbn [contents]. split.
  - intros [Hshort | (c & Hc & Hne)].
    + rewrite length_firstn.
      replace (Z.of_nat (Nat.min 8 (length bytes)) <? 8) with true
        by (symmetry; apply Z.ltb_lt; lia).
      reflexivity.
    + destruct (Z.ltb_spec (Z.of_nat (length (firstn 8 bytes))) 8);
        [reflexivity|].
      rewrite (magic_scan_mismatch _ c); [reflexivity| |].
      * apply in_seq. lia.
      * unfold mem_write, peek in *. rewrite app_nth1.
        -- rewrite nth_firstn.
           replace (c <? 8)%nat with true
             by (symmetry; apply Nat.ltb_lt; lia).
           exact Hne.
        -- lia.
  - intros Hm. rewrite Hm. reflexivity.
Qed.

(** * The main loop *)

Ltac fields :=
  cbn [in_file buffer decompressed_size total_extracted output_file f
       compressed_buffer decompressed_buffer compressed_bufsize
       decompressed_bufsize files mallocs
       set_in_file set_buffer set_decompressed_size set_total_extracted
       set_output_file set_f set_compressed set_decompressed set_files
       set_mallocs] in *.

Lemma fopen_rb_some (E : env) (p : path) (d : disk) (bytes : list byte) :
  fopen_rb E p d = Some bytes ->
  readable E p = true /\ disk_lookup p d = Some bytes.
Proof. unfold fopen_rb. destruct (readable E p); [auto | discriminate]. Qed.

Lemma fopen_rb_missing (E : env) (p : path) (d : disk) :
  disk_lookup p d = None -> fopen_rb E p d = None.
Proof. intros H. unfold fopen_rb. now destruct (readable E p). Qed.

Lemma fopen_rb_readable (E : env) (p : path) (d : disk) :
  readable E p = true -> fopen_rb E p d = disk_lookup p d.
Proof. intros H. unfold fopen_rb. now rewrite H. Qed.

Section LoopFacts.

Variable E : env.

Lemma and_then_continue (r : flow) (k : state -> flow) (s' : state) :
  and_then r k = Continue s' -> exists s1, r = Continue s1 /\ k s1 = Continue s'.
Proof. destruct r; try discriminate. intros H. eauto. Qed.

Lemma loop_body_eq (s : state) :
  loop_body E s
  = (s1 <- (if is_entry (next_header E s)
            then file_entry E (next_header E s) (past_header E s)
            else Continue (past_header E s)) ;;
     s2 <- (if is_data (next_header E s) s1
            then data_chunk E (next_header E s) s1 else Continue s1) ;;
     Continue (next_chunk (ftell (in_file s)) (next_header E s) s2)).
Proof.
  unfold loop_body, next_header, past_header.
  destruct (read_chunk_header E (in_file s)) as [h stream]. reflexivity.
Qed.

Lemma land_ones_32 (x : Z) : 0 <= Z.land x 0xffffffff < 2 ^ 32.
Proof.
  change 0xffffffff with (Z.ones 32). rewrite Z.land_ones by lia.
  apply Z.mod_pos_bound. lia.
Qed.

Lemma next_header_size (s : state) :
  0 <= chunk_size (next_header E s) < 2 ^ 32.
Proof.
  unfold next_header, read_chunk_header.
  destruct (fread 16 (in_file s)) as [got stream]. cbn [fst].
  unfold decode_header; cbn [chunk_size]. apply land_ones_32.
Qed.

Lemma fseek_set (stream : FILE) (offset : Z) :
  0 <= offset -> fseek stream offset SEEK_SET = mkFILE (contents stream) offset.
Proof.
  intros H. unfold fseek. change (SEEK_SET =? SEEK_SET) with true. cbv iota.
  destruct (Z.ltb_spec offset 0); [lia | reflexivity].
Qed.

Lemma next_chunk_position (pos : Z) (h : chunk) (s : state) :
  0 <= pos -> pos + 16 + chunk_size h < 2 ^ 63 -> 0 <= chunk_size h ->
  ftell (in_file (next_chunk pos h s)) = pos + 16 + chunk_size h.
Proof.
  intros H0 H1 H2. unfold next_chunk. fields.
  rewrite ulong_small, slong_small, fseek_set by lia. reflexivity.
Qed.

(** Every pass that reaches the bottom of the loop leaves the stream at
    [pos + 16 + chunk_size]. *)
Lemma loop_body_position (s s' : state) :
  0 <= ftell (in_file s) ->
  ftell (in_file s) + 16 + 2 ^ 32 < 2 ^ 63 ->
  loop_body E s = Continue s' ->
  ftell (in_file s')
  = ftell (in_file s) + 16 + chunk_size (next_header E s).
Proof.
  intros H0 H1 L. rewrite loop_body_eq in L.
  pose proof (next_header_size s) as Hs.
  apply and_then_continue in L as (s1 & _ & L).
  apply and_then_continue in L as (s2 & _ & L).
  inversion L; subst. apply next_chunk_position; lia.
Qed.

(** The loop ends: the distance to [fsize] bounds the number of passes. *)
Lemma main_loop_terminates (fsize : Z) (fuel : nat) :
  forall s,
    0 <= ftell (in_file s) ->
    fsize + 16 + 2 ^ 32 < 2 ^ 63 ->
    fsize - ftell (in_file s) <= Z.of_nat fuel ->
    exists r, main_loop E (S fuel) fsize s = Some r.
Proof.
  induction fuel as [|fuel IH]; intros s H0 Hs Hf; cbn [main_loop];
    rewrite Z.geb_leb; destruct (Z.leb_spec fsize (ftell (in_file s)));
    eauto; try lia.
  destruct (loop_body E s) as [s'| |] eqn:L; eauto.
  pose proof (loop_body_position s s' H0 ltac:(lia) L) as P.
  pose proof (next_header_size s).
  apply IH; lia.
Qed.

Lemma initial_state_position (stream : FILE) (d : disk) :
  ftell (in_file (initial_state E stream d)) = 8.
Proof. unfold initial_state. fields. now rewrite fseek_set. Qed.

(** [unpack_file] returns or aborts on every disk, whatever the archive
    holds (an archive on a real disk has fewer than 2^62 bytes). *)
Lemma unpack_file_terminates (input_file : path) (d : disk) :
  (forall bytes, disk_lookup input_file d = Some bytes ->
                 Z.of_nat (length bytes) < 2 ^ 62) ->
  exists o, unpack_file E input_file d = Some o.
Proof.
  intros Hsmall. unfold unpack_file.
  destruct (fopen_rb E input_file d) as [bytes|] eqn:Q; [|eauto].
  apply fopen_rb_some in Q as [_ Q]. specialize (Hsmall bytes Q).
  destruct (detect_magic E _) as [magic stream].
  destruct (magic =? 0); [eauto|].
  destruct (main_loop_terminates
              (ulong (ftell (fseek (mkFILE bytes 0) 0 SEEK_END)))
              (length bytes) (initial_state E stream d)) as [r Hr].
  - rewrite initial_state_position. lia.
  - unfold fseek, ftell. change (SEEK_END =? SEEK_SET) with false.
    change (SEEK_END =? SEEK_CUR) with false. cbn [contents fpos].
    rewrite Z.add_0_r.
    destruct (Z.ltb_spec (Z.of_nat (length bytes)) 0); [lia|].
    cbn [fpos]. rewrite ulong_small; lia.
  - rewrite initial_state_position.
    unfold fseek, ftell. change (SEEK_END =? SEEK_SET) with false.
    change (SEEK_END =? SEEK_CUR) with false. cbn [contents fpos].
    rewrite Z.add_0_r.
    destruct (Z.ltb_spec (Z.of_nat (length bytes)) 0); [lia|].
    cbn [fpos]. rewrite ulong_small; lia.
  - rewrite Hr. cbn [option_map]. eauto.
Qed.

End LoopFacts.

(** * The file entry *)

Section EntryFacts.

Variable E : env.

Lemma is_entry_true (h : chunk) :
  chunk_id h = 1 -> 10 < chunk_size h < BLOCK_SIZE -> is_entry h = true.
Proof.
  intros Hid Hs. unfold is_entry. rewrite Hid.
  replace (chunk_size h >? 10) with true
    by (symmetry; rewrite Z.gtb_ltb; apply Z.ltb_lt; lia).
  replace (chunk_size h <? BLOCK_SIZE) with true
    by (symmetry; apply Z.ltb_lt; lia).
  reflexivity.
Qed.

Lemma fread_buffer_set_output_file (n : Z) (v : option (list byte)) (s : state) :
  fread_buffer n (set_output_file v s)
  = (fst (fread_buffer n s), set_output_file v (snd (fread_buffer n s))).
Proof.
  unfold fread_buffer. fields. destruct (fread n (in_file s)). reflexivity.
Qed.

Lemma fread_buffer_files (n : Z) (v : option (list byte)) (s : state) :
  files (set_output_file v (snd (fread_buffer n s))) = files s.
Proof.
  unfold fread_buffer. destruct (fread n (in_file s)). reflexivity.
Qed.

(** Lines 290-296. *)
Lemma file_entry_mismatch (h : chunk) (s : state) :
  Adler.update_adler32 1 (buffer (snd (fread_buffer (chunk_size h) s)))
    (sint (chunk_size h)) <> chunk_checksum h ->
  file_entry E h s
  = Return (-1) (set_output_file None (snd (fread_buffer (chunk_size h) s))).
Proof.
  intros H. unfold file_entry. rewrite fread_buffer_set_output_file.
  fields. apply Z.eqb_neq in H. rewrite H. reflexivity.
Qed.

Lemma update_adler32_firstn (checksum : Z) (buf : list byte) (len : Z) :
  len <= INT_MAX -> len <= Z.of_nat (length buf) ->
  Adler.update_adler32 checksum buf len
  = Adler.update_adler32 checksum (firstn (Z.to_nat len) buf) len.
Proof.
  intros H1 H2. destruct (Z.leb_spec len 0).
  - now rewrite !update_adler32_no_bytes.
  - rewrite !update_adler32_spec; try lia.
    + now rewrite firstn_firstn, Nat.min_id.
    + rewrite length_firstn. lia.
Qed.

(** With the chunk whole in the stream, the window starts with its
    payload. *)
Lemma entry_window_payload (s : state) :
  chunk_complete E s ->
  firstn (Z.to_nat (chunk_size (next_header E s))) (entry_window E s)
  = payload E s
  /\ length (payload E s) = Z.to_nat (chunk_size (next_header E s)).
Proof.
  intros [H0 H1]. pose proof (next_header_size E s) as Hs.
  unfold entry_window, payload, fread_buffer, past_header, read_chunk_header,
    ftell in *.
  set (n := chunk_size (next_header E s)) in *. clearbody n.
  destruct (in_file s) as [bytes pos]; cbn [contents fpos] in *.
  unfold fread. fields. cbn [snd contents fpos].
  assert (L16 : length (firstn (Z.to_nat 16) (skipn (Z.to_nat pos) bytes))
                = 16%nat).
  { rewrite length_firstn, length_skipn. lia. }
  rewrite L16. change (Z.of_nat 16) with 16.
  set (got := firstn (Z.to_nat n) (skipn (Z.to_nat (pos + 16)) bytes)).
  assert (Lg : length got = Z.to_nat n).
  { unfold got. rewrite length_firstn, length_skipn. lia. }
  split; [|exact Lg].
  unfold mem_write. rewrite <- Lg. apply firstn_length_app.
Qed.

Lemma entry_checksum_payload (s : state) :
  chunk_complete E s ->
  chunk_size (next_header E s) < BLOCK_SIZE ->
  entry_checksum E s
  = Adler.update_adler32 1 (payload E s) (chunk_size (next_header E s)).
Proof.
  intros Hc Hb. pose proof (next_header_size E s) as Hs.
  destruct (entry_window_payload s Hc) as [W L].
  unfold entry_checksum, BLOCK_SIZE, INT_MAX in *.
  rewrite sint_small by lia. rewrite <- W.
  apply update_adler32_firstn; unfold INT_MAX; try lia.
  apply (f_equal (@length byte)) in W.
  rewrite length_firstn in W. lia.
Qed.

Lemma entry_checksum_eq (s : state) :
  entry_checksum E s
  = Adler.update_adler32 1
      (buffer (snd (fread_buffer (chunk_size (next_header E s))
                      (past_header E s))))
      (sint (chunk_size (next_header E s))).
Proof. reflexivity. Qed.

Lemma loop_body_entry_mismatch (s : state) :
  chunk_id (next_header E s) = 1 ->
  10 < chunk_size (next_header E s) < BLOCK_SIZE ->
  entry_checksum E s <> chunk_checksum (next_header E s) ->
  loop_body E s
  = Return (-1)
      (set_output_file None
         (snd (fread_buffer (chunk_size (next_header E s))
                 (past_header E s)))).
Proof.
  intros Hid Hsize Hck.
  rewrite loop_body_eq, is_entry_true by assumption.
  rewrite entry_checksum_eq in Hck.
  rewrite (file_entry_mismatch _ _ Hck). reflexivity.
Qed.

Lemma main_loop_stops (fsize : Z) (s : state) (fuel : nat) (r : flow) :
  ftell (in_file s) < fsize ->
  loop_body E s = r ->
  (forall s', r <> Continue s') ->
  main_loop E (S fuel) fsize s = Some r.
Proof.
  intros Hpos L Hr. cbn [main_loop]. rewrite Z.geb_leb.
  destruct (Z.leb_spec fsize (ftell (in_file s))); [lia|].
  rewrite L. destruct r; try reflexivity. now destruct (Hr s0).
Qed.

Lemma mem_read_0 (l : list byte) :
  forall n, (n <= length l)%nat -> mem_read l 0 n = firstn n l.
Proof.
  induction l as [|x l IH]; intros [|n] H; try reflexivity;
    [simpl in H; lia|].
  unfold mem_read in *. cbn [seq map firstn]. rewrite <- seq_shift, map_map.
  cbn [Nat.add peek nth]. f_equal. apply IH. simpl in H. lia.
Qed.

Lemma mem_read_skipn (l : list byte) (off n : nat) :
  mem_read l off n = mem_read (skipn off l) 0 n.
Proof.
  unfold mem_read, peek. apply map_ext. intros i.
  now rewrite nth_skipn.
Qed.

Lemma mem_read_firstn_skipn (l : list byte) (off n : nat) :
  (off + n <= length l)%nat -> mem_read l off n = firstn n (skipn off l).
Proof.
  intros H. rewrite mem_read_skipn. apply mem_read_0.
  rewrite length_skipn. lia.
Qed.

Lemma length_mem_read (l : list byte) (off n : nat) :
  length (mem_read l off n) = n.
Proof. unfold mem_read. now rewrite length_map, length_seq. Qed.

(** Lines 303-307: the u16 at offset 8, clamped to [size - 10]. *)
Lemma entry_name_length_min (w : list byte) (size : Z) :
  10 < size < BLOCK_SIZE ->
  entry_name_length w size
  = Z.min (b2z (peek w 8) + 256 * b2z (peek w 9)) (size - 10).
Proof.
  intros H. unfold entry_name_length, readU16, peek, BLOCK_SIZE in *.
  rewrite !nth_skipn. cbn [Nat.add].
  pose proof (b2z_range (nth 8 w x00)). pose proof (b2z_range (nth 9 w x00)).
  rewrite Z.shiftl_mul_pow2 by lia.
  rewrite (sint_small (_ * _)) by lia.
  rewrite (sint_small (_ + _)) by lia.
  rewrite ulong_small by lia.
  rewrite (sint_small (_ + _)) by lia.
  rewrite (sint_small size) by lia.
  rewrite (ulong_small (size - 10)) by lia.
  rewrite (sint_small (size - 10)) by lia.
  rewrite Z.gtb_ltb.
  destruct (Z.ltb_spec (size - 10) (b2z (nth 8 w x00) + b2z (nth 9 w x00) * 2 ^ 8));
    lia.
Qed.

(** What [file_entry] does once the checksum has passed: it aborts when
    [malloc] fails, and otherwise goes on, with the new file open or with
    no file open. *)
Lemma file_entry_accepts (h : chunk) (s : state) :
  let w := buffer (snd (fread_buffer (chunk_size h) s)) in
  let block := entry_name w (chunk_size h) ++ [x00] in
  Adler.update_adler32 1 w (sint (chunk_size h)) = chunk_checksum h ->
  if malloc_ok E (mallocs s)
       (ulong (sint (entry_name_length w (chunk_size h) + 1)))
  then
    exists s1,
      file_entry E h s = Continue s1
      /\ total_extracted s1 = 0
      /\ in_file s1 = in_file (snd (fread_buffer (chunk_size h) s))
      /\ ((fopen_rb E (cstring block) (files s) = None
           /\ creatable E (cstring block) = true
           /\ output_file s1 = Some block
           /\ f s1 = Some (cstring block)
           /\ files s1 = disk_store (cstring block) [] (files s))
          \/ ((fopen_rb E (cstring block) (files s) <> None
               \/ creatable E (cstring block) = false)
              /\ output_file s1 = None
              /\ f s1 = None
              /\ files s1 = files s))
  else exists s1, file_entry E h s = Abort s1 /\ files s1 = files s.
Proof.
  intros w block Hck. unfold file_entry.
  rewrite fread_buffer_set_output_file. fields.
  fold w. rewrite Hck, Z.eqb_refl. cbn [negb].
  unfold malloc. fields.
  assert (Hf : files (snd (fread_buffer (chunk_size h) s)) = files s).
  { unfold fread_buffer. now destruct (fread _ _). }
  destruct (malloc_ok E _ _).
  - fields. fold w. fold block. rewrite Hf.
    destruct (fopen_rb E (cstring block) (files s)) eqn:Q.
    + eexists. split; [reflexivity|]. fields.
      repeat split. right. repeat split; try exact Hf. left. congruence.
    + destruct (creatable E (cstring block)) eqn:C.
      * eexists. split; [reflexivity|]. fields.
        repeat split. left. repeat split; try exact Hf; now rewrite ?Hf.
      * eexists. split; [reflexivity|]. fields.
        repeat split. right. repeat split; try exact Hf. now right.
  - eexists. split; [reflexivity|]. fields. exact Hf.
Qed.

Lemma entry_window_eq (s : state) :
  entry_window E s
  = buffer (snd (fread_buffer (chunk_size (next_header E s))
                   (past_header E s))).
Proof. reflexivity. Qed.

Lemma is_data_not_17 (h : chunk) (s : state) :
  chunk_id h <> 17 -> is_data h s = false.
Proof.
  intros H. unfold is_data. apply Z.eqb_neq in H. now rewrite H.
Qed.

(** The pass over an accepted file entry. *)
Lemma loop_body_entry_accepts (s : state) :
  let h := next_header E s in
  let w := entry_window E s in
  let block := entry_name w (chunk_size h) ++ [x00] in
  chunk_id h = 1 ->
  10 < chunk_size h < BLOCK_SIZE ->
  entry_checksum E s = chunk_checksum h ->
  if malloc_ok E (mallocs s)
       (ulong (sint (entry_name_length w (chunk_size h) + 1)))
  then
    exists s1,
      loop_body E s = Continue (next_chunk (ftell (in_file s)) h s1)
      /\ total_extracted s1 = 0
      /\ ((fopen_rb E (cstring block) (files s) = None
           /\ creatable E (cstring block) = true
           /\ output_file s1 = Some block
           /\ f s1 = Some (cstring block)
           /\ files s1 = disk_store (cstring block) [] (files s))
          \/ ((fopen_rb E (cstring block) (files s) <> None
               \/ creatable E (cstring block) = false)
              /\ output_file s1 = None
              /\ f s1 = None
              /\ files s1 = files s))
  else exists s1, loop_body E s = Abort s1 /\ files s1 = files s.
Proof.
  intros h w block Hid Hsize Hck.
  rewrite entry_checksum_eq, <- entry_window_eq in Hck. fold h w in Hck.
  pose proof (file_entry_accepts h (past_header E s)) as A.
  cbv zeta in A. unfold h in A.
  rewrite <- entry_window_eq in A. fold h w block in A.
  specialize (A Hck).
  change (mallocs (past_header E s)) with (mallocs s) in A.
  change (files (past_header E s)) with (files s) in A.
  rewrite loop_body_eq. fold h. rewrite (is_entry_true h Hid Hsize).
  destruct (malloc_ok E _ _).
  - destruct A as (s1 & -> & T & _ & D). cbn [and_then].
    rewrite is_data_not_17 by lia. exists s1. auto.
  - destruct A as (s1 & -> & F). cbn [and_then]. exists s1. auto.
Qed.

End EntryFacts.

(** C1.  When the next chunk has id 1 and a size between 10 and
    [BLOCK_SIZE], and the Adler-32 of its payload, seeded with 1, is not the
    checksum of its header, the pass returns -1 and so does the loop: no
    later chunk is looked at, and the disk is as it was before the pass.
    The checksum is the one line 289 computes on the window; it is the
    checksum of the payload whenever the stream holds the chunk whole. *)
Theorem entry_checksum_mismatch_is_fatal (E : env) (fsize : Z) (s : state) :
  ftell (in_file s) < fsize ->
  chunk_id (next_header E s) = 1 ->
  10 < chunk_size (next_header E s) < BLOCK_SIZE ->
  entry_checksum E s <> chunk_checksum (next_header E s) ->
  (chunk_complete E s ->
   entry_checksum E s
   = Adler.update_adler32 1 (payload E s) (chunk_size (next_header E s)))
  /\ exists s',
      loop_body E s = Return (-1) s'
      /\ files s' = files s
      /\ (forall fuel, main_loop E (S fuel) fsize s = Some (Return (-1) s'))
      /\ finished (Return (-1) s') = Exited (-1) (files s).
Proof.
  intros Hpos Hid Hsize Hck. split.
  - intros Hc. apply entry_checksum_payload; [assumption | lia].
  - pose proof (loop_body_entry_mismatch E s Hid Hsize Hck) as L.
    eexists. split; [exact L|].
    split; [now rewrite fread_buffer_files|]. split.
    + intros fuel. apply main_loop_stops; [assumption | exact L | discriminate].
    + cbn [finished]. now rewrite fread_buffer_files.
Qed.

(** C7.  For an accepted file entry (id 1, size between 10 and [BLOCK_SIZE],
    checksum passed) the name copied into [output_file] has
    [min(name_length, size - 10)] bytes, [name_length] being the u16 at
    offset 8 of the payload, and they are the bytes of the payload from
    offset 10 on.  A [name_length] that is too large is not an error: the
    pass never returns from [unpack_file], and unless [malloc] fails it goes
    on to the next chunk, with the file of that name open whenever it does
    not exist yet and can be created. *)
Theorem entry_name_is_clamped (E : env) (s : state) :
  let h := next_header E s in
  let w := entry_window E s in
  let name_length := b2z (peek w 8) + 256 * b2z (peek w 9) in
  let name := entry_name w (chunk_size h) in
  chunk_id h = 1 ->
  10 < chunk_size h < BLOCK_SIZE ->
  entry_checksum E s = chunk_checksum h ->
  Z.of_nat (length name) = Z.min name_length (chunk_size h - 10)
  /\ name = mem_read w 10 (length name)
  /\ (chunk_complete E s ->
      name_length
      = b2z (peek (payload E s) 8) + 256 * b2z (peek (payload E s) 9)
      /\ name = firstn (length name) (skipn 10 (payload E s)))
  /\ (forall code s', loop_body E s <> Return code s')
  /\ (malloc_ok E (mallocs s) (Z.of_nat (length name) + 1) = true ->
      exists s',
        loop_body E s = Continue s'
        /\ (output_file s' = Some (name ++ [x00]) \/ output_file s' = None)
        /\ (disk_lookup (cstring (name ++ [x00])) (files s) = None ->
            creatable E (cstring (name ++ [x00])) = true ->
            output_file s' = Some (name ++ [x00])
            /\ f s' = Some (cstring (name ++ [x00])))).
Proof.
  intros h w name_length name Hid Hsize Hck.
  pose proof (entry_name_length_min w (chunk_size h) Hsize) as N.
  fold name_length in N.
  assert (Hn : 0 <= name_length).
  { unfold name_length. pose proof (b2z_range (peek w 8)).
    pose proof (b2z_range (peek w 9)). lia. }
  assert (L : Z.of_nat (length name) = Z.min name_length (chunk_size h - 10)).
  { unfold name, entry_name. rewrite length_mem_read, N. lia. }
  assert (M : ulong (sint (entry_name_length w (chunk_size h) + 1))
              = Z.of_nat (length name) + 1).
  { rewrite L, N. unfold BLOCK_SIZE in Hsize.
    rewrite sint_small by lia. apply ulong_small. lia. }
  pose proof (loop_body_entry_accepts E s Hid Hsize Hck) as A.
  fold h w name in A. cbv zeta in A. rewrite M in A.
  split; [exact L|]. split.
  { unfold name at 1, entry_name. f_equal.
    unfold name, entry_name. now rewrite length_mem_read. }
  split.
  { intros Hc. destruct (entry_window_payload E s Hc) as [W Lp].
    fold h w in W, Lp. unfold BLOCK_SIZE in Hsize.
    assert (P : forall i, (i < Z.to_nat (chunk_size h))%nat ->
                          peek (payload E s) i = peek w i).
    { intros i Hi. rewrite <- W. unfold peek. rewrite nth_firstn.
      replace (i <? Z.to_nat (chunk_size h))%nat with true
        by (symmetry; apply Nat.ltb_lt; lia).
      reflexivity. }
    split.
    - unfold name_length. rewrite !P by lia. reflexivity.
    - assert (Lw : (Z.to_nat (chunk_size h) <= length w)%nat).
      { apply (f_equal (@length byte)) in W.
        rewrite length_firstn in W. lia. }
      unfold name at 1, entry_name. rewrite mem_read_firstn_skipn.
      + rewrite <- W, skipn_firstn_comm, firstn_firstn.
        unfold name, entry_name. rewrite length_mem_read.
        f_equal. lia.
      + lia. }
  split.
  { intros code s' R. destruct (malloc_ok E _ _).
    - destruct A as (s1 & A & _). congruence.
    - destruct A as (s1 & A & _). congruence. }
  intros Hm. rewrite Hm in A.
  destruct A as (s1 & A & _ & D). eexists. split; [exact A|].
  unfold next_chunk. fields.
  destruct D as [(D1 & D2 & D3 & D4 & D5) | (D1 & D2 & D3 & D4)].
  - split; [now left|]. intros _ _. now split.
  - split; [now right|]. intros Q C.
    apply (fopen_rb_missing E) in Q. destruct D1; congruence.
Qed.

(** * The disk *)

Lemma path_eqb_eq (p q : path) : path_eqb p q = true <-> p = q.
Proof.
  revert q. induction p as [|a p IH]; intros [|b q]; cbn [path_eqb];
    try (split; [discriminate | congruence]); [now split|].
  rewrite andb_true_iff, IH. split.
  - intros [H1 H2]. apply Byte.byte_dec_bl in H1. congruence.
  - intros H. inversion H; subst. split; [apply Byte.byte_dec_lb|]; reflexivity.
Qed.

Lemma path_eqb_refl (p : path) : path_eqb p p = true.
Proof. now apply path_eqb_eq. Qed.

Lemma path_eqb_neq (p q : path) : p <> q -> path_eqb p q = false.
Proof.
  intros H. destruct (path_eqb p q) eqn:Q; [|reflexivity].
  apply path_eqb_eq in Q. contradiction.
Qed.

Lemma disk_lookup_store (p q : path) (v : list byte) (d : disk) :
  disk_lookup q (disk_store p v d)
  = if path_eqb q p then Some v else disk_lookup q d.
Proof.
  induction d as [|[r w] d IH]; cbn [disk_store disk_lookup].
  - reflexivity.
  - destruct (path_eqb p r) eqn:P; cbn [disk_lookup].
    + apply path_eqb_eq in P. subst r.
      destruct (path_eqb q p); reflexivity.
    + rewrite IH. destruct (path_eqb q r) eqn:R; [|reflexivity].
      apply path_eqb_eq in R. subst r.
      rewrite path_eqb_neq; [reflexivity|].
      intros ->. rewrite path_eqb_refl in P. discriminate.
Qed.

Lemma appended_refl (p : path) (d : disk) : appended p [] d d.
Proof. split; [intros old ->; now rewrite app_nil_r | reflexivity]. Qed.

Lemma appended_disk_append (p : path) (w : list byte) (d : disk) :
  appended p w d (disk_append p w d).
Proof.
  unfold disk_append. split.
  - intros old ->. now rewrite disk_lookup_store, path_eqb_refl.
  - intros q Hq. destruct (disk_lookup p d);
      now rewrite disk_lookup_store, path_eqb_neq.
Qed.

Lemma appended_trans (p : path) (w w' : list byte) (d d' d'' : disk) :
  appended p w d d' -> appended p w' d' d'' -> appended p (w ++ w') d d''.
Proof.
  intros [A1 A2] [B1 B2]. split.
  - intros old H. rewrite app_assoc. auto.
  - intros q Hq. rewrite B2, A2 by assumption. reflexivity.
Qed.

(** * Data chunks *)

Section DataFacts.

Variable E : env.

Lemma fread_position (n : Z) (stream : FILE) :
  contents (snd (fread n stream)) = contents stream
  /\ fpos (snd (fread n stream))
     = fpos stream + Z.of_nat (length (fst (fread n stream)))
  /\ (length (fst (fread n stream)) <= Z.to_nat n)%nat.
Proof.
  unfold fread; cbn [fst snd contents fpos]. repeat split.
  apply firstn_le_length.
Qed.

Lemma fwrite_open (p : path) (ptr : list byte) (n : Z) (s : state) :
  f s = Some p ->
  fwrite ptr n s
  = set_files (disk_append p (mem_read ptr 0 (Z.to_nat n)) (files s)) s.
Proof. intros H. unfold fwrite. now rewrite H. Qed.

Lemma fwrite_in_file (ptr : list byte) (n : Z) (s : state) :
  in_file (fwrite ptr n s) = in_file s.
Proof. unfold fwrite. now destruct (f s). Qed.

(** The copy loop of a stored chunk keeps the session as it is and appends
    to the open file as many bytes as it takes from the stream. *)
Lemma stored_loop_session (fuel : nat) :
  forall remaining checksum s p,
    f s = Some p ->
    let s' := snd (stored_loop fuel remaining checksum s) in
    f s' = Some p
    /\ output_file s' = output_file s
    /\ total_extracted s' = total_extracted s
    /\ contents (in_file s') = contents (in_file s)
    /\ exists w,
        Z.of_nat (length w) = ftell (in_file s') - ftell (in_file s)
        /\ appended p w (files s) (files s').
Proof.
  induction fuel as [|fuel IH]; intros remaining checksum s p Hf.
  - cbn [stored_loop snd]. repeat split; try assumption.
    exists []. split; [cbn [length]; lia | apply appended_refl].
  - cbn [stored_loop]. unfold fread_buffer.
    pose proof (fread_position
                  (if BLOCK_SIZE <? remaining then BLOCK_SIZE else remaining)
                  (in_file s)) as (Fc & Fp & _).
    destruct (fread _ (in_file s)) as [got stream]. cbn [fst snd] in Fc, Fp.
    destruct (Z.of_nat (length got) =? 0) eqn:Z0.
    + cbn [snd]. fields. repeat split; try assumption.
      exists []. apply Z.eqb_eq in Z0. unfold ftell.
      split; [cbn [length]; lia | apply appended_refl].
    + fields. rewrite (fwrite_open p) by exact Hf. fields.
      match goal with
      | |- context [stored_loop fuel ?r ?c ?t] =>
          specialize (IH r c t p Hf); cbv zeta in IH;
          destruct (stored_loop fuel r c t) as [c' t'] eqn:Q
      end.
      cbn [snd] in *. fields.
      destruct IH as (I1 & I2 & I3 & I4 & w & Lw & A).
      repeat split; try congruence.
      exists (mem_read (got ++ skipn (length got) (buffer s)) 0
                (Z.to_nat (Z.of_nat (length got))) ++ w).
      split.
      * rewrite length_app, length_mem_read. unfold ftell in *. lia.
      * eapply appended_trans; [apply appended_disk_append | exact A].
Qed.

(** With the payload whole in the stream the loop takes all of it. *)
Lemma stored_loop_reads_all (fuel : nat) :
  forall remaining checksum s,
    0 <= ftell (in_file s) ->
    0 <= remaining < 2 ^ 64 ->
    ftell (in_file s) + remaining
    <= Z.of_nat (length (contents (in_file s))) ->
    remaining < Z.of_nat fuel ->
    ftell (in_file (snd (stored_loop fuel remaining checksum s)))
    = ftell (in_file s) + remaining.
Proof.
  induction fuel as [|fuel IH]; intros remaining checksum s H0 Hr Hc Hf;
    [lia|].
  cbn [stored_loop]. unfold fread_buffer, fread, ftell in *.
  set (r := if BLOCK_SIZE <? remaining then BLOCK_SIZE else remaining).
  assert (Hrr : 0 <= r <= remaining /\ (remaining = 0 \/ 0 < r)).
  { unfold r, BLOCK_SIZE. destruct (Z.ltb_spec 65536 remaining); lia. }
  clearbody r.
  set (got := firstn (Z.to_nat r)
                (skipn (Z.to_nat (fpos (in_file s))) (contents (in_file s)))).
  assert (Lg : Z.of_nat (length got) = r).
  { unfold got. rewrite length_firstn, length_skipn. lia. }
  clearbody got.
  destruct (Z.eqb_spec (Z.of_nat (length got)) 0) as [Z0|NZ].
  - cbn [snd]. fields. cbn [fpos]. lia.
  - fields. rewrite IH; rewrite ?fwrite_in_file; fields; cbn [fpos contents];
      rewrite ?ulong_small by lia; lia.
Qed.

(** [chunk_size + 1] passes are enough for the copy loop: more fuel does
    not change what it returns. *)
Lemma stored_loop_fuel (fuel : nat) :
  forall fuel' remaining checksum s,
    0 <= remaining < 2 ^ 64 ->
    remaining < Z.of_nat fuel -> remaining < Z.of_nat fuel' ->
    stored_loop fuel remaining checksum s
    = stored_loop fuel' remaining checksum s.
Proof.
  induction fuel as [|fuel IH]; intros [|fuel'] remaining checksum s Hr H1 H2;
    try lia.
  cbn [stored_loop]. unfold fread_buffer.
  pose proof (fread_position
                (if BLOCK_SIZE <? remaining then BLOCK_SIZE else remaining)
                (in_file s)) as (_ & _ & Fl).
  destruct (fread _ (in_file s)) as [got stream]. cbn [fst] in Fl.
  destruct (Z.eqb_spec (Z.of_nat (length got)) 0) as [Z0|NZ]; [reflexivity|].
  assert (Z.of_nat (length got) <= remaining).
  { unfold BLOCK_SIZE in Fl. destruct (Z.ltb_spec 65536 remaining); lia. }
  apply IH; rewrite ?ulong_small; lia.
Qed.

(** Growing the two buffers leaves the session and the disk alone. *)
Lemma grown_session (h : chunk) (s : state) :
  f (grown E h s) = f s
  /\ output_file (grown E h s) = output_file s
  /\ files (grown E h s) = files s
  /\ total_extracted (grown E h s) = total_extracted s.
Proof.
  unfold grown, grow_decompressed, grow_compressed, malloc.
  destruct (chunk_size h >? compressed_bufsize s);
    [destruct (malloc_ok E (mallocs s) (chunk_size h))|]; fields;
    (destruct (chunk_extra h >? decompressed_bufsize s);
     [destruct (malloc_ok E _ (chunk_extra h))|]); fields; auto.
Qed.

(** Lines 444-448: without a compressed buffer the run aborts. *)
Lemma compressed_chunk_no_buffer (h : chunk) (s : state) :
  compressed_buffer (grown E h s) = None ->
  compressed_chunk E h s = Abort (grown E h s).
Proof. intros H. unfold compressed_chunk. now rewrite H. Qed.

(** What a compressed chunk leaves when the pass goes on: the counter has
    grown by [chunk_extra], and either the file is abandoned and nothing was
    written, or it is still open and [chunk_extra] bytes were appended. *)
Lemma compressed_chunk_continue (h : chunk) (s s' : state) (p : path) :
  compressed_chunk E h s = Continue s' ->
  f s = Some p ->
  total_extracted s' = ulong (total_extracted s + chunk_extra h)
  /\ ((f s' = None /\ output_file s' = None /\ files s' = files s
       /\ (compressed_checksum E h s <> Some (chunk_checksum h)
           \/ decompressed_length E h s <> Some (chunk_extra h)))
      \/ (f s' = Some p /\ output_file s' = output_file s
          /\ compressed_checksum E h s = Some (chunk_checksum h)
          /\ decompressed_length E h s = Some (chunk_extra h)
          /\ exists w, length w = Z.to_nat (chunk_extra h)
                       /\ appended p w (files s) (files s'))).
Proof.
  intros H Hf. destruct (grown_session h s) as (G1 & G2 & G3 & G4).
  unfold compressed_checksum, decompressed_length, compressed_block.
  unfold compressed_chunk in H.
  destruct (compressed_buffer (grown E h s)) as [block|]; [|discriminate].
  cbn [option_map].
  destruct (fread (chunk_size h) (in_file (grown E h s))) as [got stream].
  cbn [fst]. fields.
  destruct (Z.eqb_spec
              (Adler.update_adler32 1 (mem_write block got)
                 (sint (chunk_size h)))
              (chunk_checksum h)) as [Ck|Ck]; cbn [negb] in H.
  - destruct (fastlz_decompress E (mem_write block got) (sint (chunk_size h))
                (decompressed_buffer (grown E h s)) (sint (chunk_extra h)))
      as [result stored].
    cbn [fst]. fields.
    destruct (Z.eqb_spec (ulong (sint result)) (chunk_extra h)) as [Ln|Ln];
      cbn [negb] in H.
    + destruct (decompressed_buffer (grown E h s)) as [out|];
        cbn [option_map] in H; [|discriminate].
      injection H as <-. rewrite (fwrite_open p) by (fields; congruence).
      fields. rewrite G4. split; [reflexivity|]. right.
      repeat split; try congruence.
      eexists. split; [apply length_mem_read|].
      rewrite G3. apply appended_disk_append.
    + injection H as <-. unfold abandon. fields. rewrite G4, G3.
      split; [reflexivity|]. left. repeat split. right. congruence.
  - injection H as <-. unfold abandon. fields. rewrite G4, G3.
    split; [reflexivity|]. left. repeat split. left. congruence.
Qed.

(** The same for a stored chunk: the counter has grown by [chunk_size], the
    bytes taken from the stream were appended, and the file is abandoned
    exactly when the checksum fails. *)
Lemma stored_chunk_continue (h : chunk) (s : state) (p : path) :
  f s = Some p ->
  exists s',
    stored_chunk h s = Continue s'
    /\ total_extracted s' = ulong (total_extracted s + chunk_size h)
    /\ (exists w,
           Z.of_nat (length w) = ftell (in_file s') - ftell (in_file s)
           /\ appended p w (files s) (files s'))
    /\ ((f s' = None /\ output_file s' = None
         /\ stored_checksum h s <> chunk_checksum h)
        \/ (f s' = Some p /\ output_file s' = output_file s
            /\ stored_checksum h s = chunk_checksum h)).
Proof.
  intros Hf. unfold stored_chunk, stored_checksum.
  pose proof (stored_loop_session (S (Z.to_nat (chunk_size h)))
                (chunk_size h) 1
                (set_total_extracted
                   (ulong (total_extracted s + chunk_size h)) s) p Hf) as L.
  cbv zeta in L.
  destruct (stored_loop _ _ _ _) as [checksum t]. cbn [fst snd] in *.
  fields. destruct L as (L1 & L2 & L3 & L4 & w & Lw & A).
  destruct (Z.eqb_spec checksum (chunk_checksum h)) as [Ck|Ck]; cbn [negb];
    eexists; (split; [reflexivity|]); unfold abandon; fields;
    (split; [exact L3|]); (split; [exists w; now split|]).
  - right. auto.
  - left. auto.
Qed.

(** Lines 470-490 when the decompressed buffer is [NULL]: the decompressor
    is called with [NULL] as its output, and the run aborts only if the
    length it returns is [chunk_extra]; otherwise the loop goes on, with the
    buffer still [NULL] and [decompressed_bufsize] unchanged. *)
Lemma compressed_chunk_null_output (h : chunk) (s : state) :
  decompressed_buffer (grown E h s) = None ->
  compressed_checksum E h s = Some (chunk_checksum h) ->
  exists block,
    compressed_block E h s = Some block
    /\ let result :=
         fst (fastlz_decompress E block (sint (chunk_size h)) None
                (sint (chunk_extra h))) in
       (ulong (sint result) = chunk_extra h ->
        exists s', compressed_chunk E h s = Abort s')
       /\ (ulong (sint result) <> chunk_extra h ->
           exists s',
             compressed_chunk E h s = Continue s'
             /\ decompressed_buffer s' = None
             /\ decompressed_bufsize s'
                = decompressed_bufsize (grown E h s)).
Proof.
  intros Hnull. unfold compressed_checksum, compressed_block, compressed_chunk.
  destruct (compressed_buffer (grown E h s)) as [block|]; cbn [option_map];
    [|discriminate].
  destruct (fread (chunk_size h) (in_file (grown E h s))) as [got stream].
  cbn [fst]. fields. intros Hck. injection Hck as Hck.
  exists (mem_write block got). split; [reflexivity|].
  rewrite Hck, Z.eqb_refl. cbn [negb]. rewrite Hnull.
  destruct (fastlz_decompress E (mem_write block got) (sint (chunk_size h))
              None (sint (chunk_extra h))) as [result stored].
  cbn [fst option_map]. fields. split; intros Hr.
  - rewrite Hr, Z.eqb_refl. cbn [negb]. eauto.
  - apply Z.eqb_neq in Hr. rewrite Hr. cbn [negb]. eexists.
    split; [reflexivity|]. unfold abandon. fields. auto.
Qed.

Lemma is_entry_not_1 (h : chunk) : chunk_id h <> 1 -> is_entry h = false.
Proof. intros H. unfold is_entry. apply Z.eqb_neq in H. now rewrite H. Qed.

Lemma is_data_true (h : chunk) (s : state) :
  chunk_id h = 17 -> f s <> None -> output_file s <> None ->
  decompressed_size s <> 0 ->
  is_data h s = true.
Proof.
  intros Hid Hf Ho Hd. unfold is_data. rewrite Hid.
  destruct (f s); [|contradiction].
  destruct (output_file s); [|contradiction].
  apply Z.eqb_neq in Hd. now rewrite Hd.
Qed.

(** The pass over a data chunk of an open session. *)
Lemma loop_body_data (s : state) :
  chunk_id (next_header E s) = 17 ->
  f s <> None -> output_file s <> None -> decompressed_size s <> 0 ->
  loop_body E s
  = (s2 <- data_chunk E (next_header E s) (past_header E s) ;;
     Continue (next_chunk (ftell (in_file s)) (next_header E s) s2)).
Proof.
  intros Hid Hf Ho Hd. rewrite loop_body_eq.
  rewrite is_entry_not_1 by lia. cbn [and_then].
  rewrite is_data_true by assumption. reflexivity.
Qed.

Lemma main_loop_end (fsize : Z) (fuel : nat) (t : state) :
  fsize <= ftell (in_file t) ->
  main_loop E (S fuel) fsize t = Some (epilogue t).
Proof.
  intros H. cbn [main_loop]. rewrite Z.geb_leb.
  destruct (Z.leb_spec fsize (ftell (in_file t))); [reflexivity | lia].
Qed.

Lemma main_loop_continues (fsize : Z) (fuel : nat) (s s' : state) :
  ftell (in_file s) < fsize ->
  loop_body E s = Continue s' ->
  main_loop E (S fuel) fsize s = main_loop E fuel fsize s'.
Proof.
  intros H L. cbn [main_loop]. rewrite Z.geb_leb.
  destruct (Z.leb_spec fsize (ftell (in_file s))); [lia|]. now rewrite L.
Qed.

Lemma is_entry_inv (h : chunk) :
  is_entry h = true -> chunk_id h = 1 /\ 10 < chunk_size h < BLOCK_SIZE.
Proof.
  unfold is_entry. rewrite !andb_true_iff, Z.gtb_ltb.
  intros [[H1 H2] H3].
  apply Z.eqb_eq in H1. apply Z.ltb_lt in H2, H3. lia.
Qed.

(** A file entry that lets the pass go on has reset the counter. *)
Lemma loop_body_entry_resets (s s' : state) :
  is_entry (next_header E s) = true ->
  loop_body E s = Continue s' ->
  total_extracted s' = 0.
Proof.
  intros He L. destruct (is_entry_inv _ He) as [Hid Hsize].
  destruct (Z.eq_dec (entry_checksum E s) (chunk_checksum (next_header E s)))
    as [Ck|Ck].
  - pose proof (loop_body_entry_accepts E s Hid Hsize Ck) as A.
    cbv zeta in A. destruct (malloc_ok E _ _).
    + destruct A as (s1 & A & T & _). rewrite A in L.
      injection L as <-. unfold next_chunk. fields. exact T.
    + destruct A as (s1 & A & _). congruence.
  - rewrite (loop_body_entry_mismatch E s Hid Hsize Ck) in L. discriminate.
Qed.

Lemma next_header_extra (s : state) :
  0 <= chunk_extra (next_header E s) < 2 ^ 32.
Proof.
  unfold next_header, read_chunk_header.
  destruct (fread 16 (in_file s)) as [got stream]. cbn [fst].
  unfold decode_header; cbn [chunk_extra]. apply land_ones_32.
Qed.

(** With the chunk whole in the stream, the header takes 16 bytes. *)
Lemma past_header_position (s : state) :
  chunk_complete E s ->
  ftell (in_file (past_header E s)) = ftell (in_file s) + 16
  /\ contents (in_file (past_header E s)) = contents (in_file s).
Proof.
  intros [H0 H1]. pose proof (next_header_size E s).
  unfold past_header, read_chunk_header, fread, ftell in *. fields.
  cbn [snd contents fpos]. rewrite length_firstn, length_skipn.
  split; [lia | reflexivity].
Qed.

(** A stored chunk that is whole in the stream is copied whole. *)
Lemma stored_chunk_position (h : chunk) (s s' : state) :
  0 <= ftell (in_file s) ->
  0 <= chunk_size h < 2 ^ 32 ->
  ftell (in_file s) + chunk_size h
  <= Z.of_nat (length (contents (in_file s))) ->
  stored_chunk h s = Continue s' ->
  ftell (in_file s') = ftell (in_file s) + chunk_size h.
Proof.
  intros H0 Hs Hc R. unfold stored_chunk in R.
  pose proof (stored_loop_reads_all (S (Z.to_nat (chunk_size h)))
                (chunk_size h) 1
                (set_total_extracted
                   (ulong (total_extracted s + chunk_size h)) s)) as P.
  fields. specialize (P H0 ltac:(lia) Hc ltac:(lia)).
  destruct (stored_loop _ _ _ _) as [checksum t]. cbn [snd] in P.
  destruct (negb _); injection R as <-; unfold abandon; fields; exact P.
Qed.

End DataFacts.

(** C9, as the code has it.  A file entry that is accepted resets
    [total_extracted] to 0.  A data chunk (id 17) of an open session adds to
    it, modulo 2^64 and before the chunk is checked, the size of a stored
    chunk or the extra of a compressed one, and nothing for other options.
    When the file is still open after the chunk, that amount is the number
    of bytes appended to the file: [chunk_extra] for a compressed chunk,
    [chunk_size] for a stored chunk that is whole in the stream. *)
Theorem total_extracted_accounting
  (E : env) (s s' : state) (p : path) (old : list byte) :
  let h := next_header E s in
  loop_body E s = Continue s' ->
  (is_entry h = true -> total_extracted s' = 0)
  /\ (chunk_id h = 17 ->
      f s = Some p ->
      output_file s <> None ->
      decompressed_size s <> 0 ->
      disk_lookup p (files s) = Some old ->
      (chunk_options h = 0 ->
       total_extracted s' = ulong (total_extracted s + chunk_size h))
      /\ (chunk_options h = 1 ->
          total_extracted s' = ulong (total_extracted s + chunk_extra h))
      /\ (chunk_options h <> 0 -> chunk_options h <> 1 ->
          total_extracted s' = total_extracted s)
      /\ (f s' <> None ->
          exists w,
            disk_lookup p (files s') = Some (old ++ w)
            /\ ((chunk_options h = 0
                 /\ (chunk_complete E s ->
                     Z.of_nat (length w) = chunk_size h))
                \/ (chunk_options h = 1
                    /\ Z.of_nat (length w) = chunk_extra h)))).
Proof.
  intros h L. split; [intros He; now apply (loop_body_entry_resets E s)|].
  intros Hid Hf Ho Hd Hold.
  rewrite loop_body_data in L by (assumption || congruence). fold h in L.
  apply and_then_continue in L as (s2 & R & L). injection L as <-.
  unfold next_chunk. fields.
  change (f (past_header E s) = Some p) in Hf.
  change (disk_lookup p (files (past_header E s)) = Some old) in Hold.
  change (total_extracted s) with (total_extracted (past_header E s)).
  pose proof (next_header_size E s) as Hsz. fold h in Hsz.
  pose proof (next_header_extra E s) as Hex. fold h in Hex.
  unfold data_chunk in R.
  destruct (Z.eqb_spec (chunk_options h) 0) as [O0|O0];
    [|destruct (Z.eqb_spec (chunk_options h) 1) as [O1|O1]].
  - destruct (stored_chunk_continue h (past_header E s) p Hf)
      as (t & R' & T & (w & Lw & [A _]) & D).
    rewrite R' in R. injection R as <-.
    repeat split; try (intros; lia); try (intros; exact T).
    intros Hopen. exists w. split; [now apply A|]. left.
    split; [assumption|]. intros Hc.
    destruct (past_header_position E s Hc) as [P1 P2].
    destruct Hc as [C0 C1]. fold h in C1.
    rewrite (stored_chunk_position h (past_header E s) t) in Lw;
      try assumption; try lia.
    rewrite P2. lia.
  - destruct (compressed_chunk_continue E h (past_header E s) s2 p R Hf)
      as (T & D).
    repeat split; try (intros; lia); try (intros; exact T).
    intros Hopen.
    destruct D as [(F & _) | (_ & _ & _ & _ & w & Lw & [A _])];
      [congruence|].
    exists w. split; [now apply A|]. right. split; [assumption | lia].
  - injection R as <-. unfold abandon. fields.
    repeat split; try (intros; lia); try reflexivity.
    intros Hopen. contradiction.
Qed.

(** * The theorems at sample inputs *)

Lemma after_goes_on (E : env) (s : state) :
  Sample.goes_on (loop_body E s) = true ->
  loop_body E s = Continue (Sample.after E s).
Proof.
  unfold Sample.after. destruct (loop_body E s); cbn [Sample.goes_on];
    [reflexivity | discriminate | discriminate].
Qed.

Lemma update_adler32_chunked_witness :
  Z.of_nat (length (Sample.hello_txt ++ Sample.world)) <= INT_MAX
  /\ Adler.update_adler32
       (Adler.update_adler32 1 Sample.hello_txt
          (Z.of_nat (length Sample.hello_txt)))
       Sample.world (Z.of_nat (length Sample.world))
     = Adler.update_adler32 1 (Sample.hello_txt ++ Sample.world)
         (Z.of_nat (length (Sample.hello_txt ++ Sample.world))).
Proof.
  assert (H : Z.of_nat (length (Sample.hello_txt ++ Sample.world)) <= INT_MAX)
    by (vm_compute; discriminate).
  split; [exact H|].
  exact (proj1 (proj2 (update_adler32_chunked Sample.hello_txt Sample.world H))).
Defined.

Lemma update_adler32_canonical_witness :
  Adler.update_adler32 300286872 Sample.world 0 = 300286872
  /\ Z.land (Adler.update_adler32 4294967295 Sample.world 5) 65535 < 65521
  /\ Z.land (Z.shiftr (Adler.update_adler32 4294967295 Sample.world 5) 16)
       65535 < 65521.
Proof.
  split.
  - apply (proj1 (update_adler32_canonical 300286872 Sample.world 0)).
    + split; [discriminate | reflexivity].
    + discriminate.
  - apply (proj2 (update_adler32_canonical 4294967295 Sample.world 5)).
    reflexivity.
Defined.

Lemma chunk_header_round_trip_witness :
  let h := mkChunk 17 1 5 7 7 in
  decode_header (encode_header h) = h
  /\ read_chunk_header Sample.plain
       (mkFILE (sixpack_magic ++ encode_header h ++ Sample.world)
          (Z.of_nat (length sixpack_magic)))
     = (h, mkFILE (sixpack_magic ++ encode_header h ++ Sample.world)
             (Z.of_nat (length sixpack_magic) + 16)).
Proof.
  apply (proj2 (chunk_header_round_trip Sample.plain (mkChunk 17 1 5 7 7)
                  sixpack_magic Sample.world
                  ltac:(split; [discriminate | reflexivity])
                  ltac:(split; [discriminate | reflexivity])
                  ltac:(split; [discriminate | reflexivity])
                  ltac:(split; [discriminate | reflexivity])
                  ltac:(split; [discriminate | reflexivity]))).
Defined.

Lemma detect_magic_spec_witness :
  detect_magic Sample.plain (mkFILE [x89; x36; x50] 2)
  = (0, mkFILE [x89; x36; x50] 0)
  /\ detect_magic Sample.plain (mkFILE Sample.world 0)
     = (0, mkFILE Sample.world 0)
  /\ detect_magic Sample.plain (mkFILE Sample.hello_archive 40)
     = (-1, mkFILE Sample.hello_archive 0).
Proof.
  split; [|split].
  - apply (proj1 (detect_magic_spec Sample.plain (mkFILE [x89; x36; x50] 2))).
    left. cbn [contents length]. apply Nat.ltb_lt. reflexivity.
  - apply (proj1 (detect_magic_spec Sample.plain (mkFILE Sample.world 0))).
    right. exists 0%nat. split; [apply Nat.ltb_lt; reflexivity|].
    vm_compute. discriminate.
  - apply (proj2 (detect_magic_spec Sample.plain
                    (mkFILE Sample.hello_archive 40))).
    vm_compute. reflexivity.
Defined.

Lemma entry_checksum_mismatch_is_fatal_witness :
  let E := Sample.plain in
  let s := Sample.start Sample.plain Sample.bad_entry_archive in
  (ftell (in_file s) < 64
   /\ chunk_id (next_header E s) = 1
   /\ 10 < chunk_size (next_header E s) < BLOCK_SIZE
   /\ entry_checksum E s <> chunk_checksum (next_header E s))
  /\ exists s',
      loop_body E s = Return (-1) s'
      /\ files s' = files s
      /\ (forall fuel, main_loop E (S fuel) 64 s = Some (Return (-1) s'))
      /\ finished (Return (-1) s') = Exited (-1) (files s).
Proof.
  intros E s.
  assert (H1 : ftell (in_file s) < 64) by (vm_compute; reflexivity).
  assert (H2 : chunk_id (next_header E s) = 1) by (vm_compute; reflexivity).
  assert (H3 : 10 < chunk_size (next_header E s) < BLOCK_SIZE)
    by (vm_compute; split; reflexivity).
  assert (H4 : entry_checksum E s <> chunk_checksum (next_header E s))
    by (vm_compute; discriminate).
  split; [repeat split; assumption || apply H3|].
  exact (proj2 (entry_checksum_mismatch_is_fatal E 64 s H1 H2 H3 H4)).
Defined.

Lemma entry_name_is_clamped_witness :
  let E := Sample.plain in
  let s := Sample.start Sample.plain Sample.long_name_archive in
  let h := next_header E s in
  let w := entry_window E s in
  let name_length := b2z (peek w 8) + 256 * b2z (peek w 9) in
  let name := entry_name w (chunk_size h) in
  (chunk_id h = 1 /\ 10 < chunk_size h < BLOCK_SIZE
   /\ entry_checksum E s = chunk_checksum h)
  /\ name_length = 300
  /\ name = Sample.hello_txt
  /\ Z.of_nat (length name) = Z.min name_length (chunk_size h - 10).
Proof.
  intros E s h w name_length name.
  assert (H1 : chunk_id h = 1) by (vm_compute; reflexivity).
  assert (H2 : 10 < chunk_size h < BLOCK_SIZE)
    by (vm_compute; split; reflexivity).
  assert (H3 : entry_checksum E s = chunk_checksum h)
    by (vm_compute; reflexivity).
  split; [repeat split; assumption || apply H2|].
  split; [vm_compute; reflexivity|].
  split; [vm_compute; reflexivity|].
  exact (proj1 (entry_name_is_clamped E s H1 H2 H3)).
Defined.

Lemma total_extracted_accounting_witness :
  let E := Sample.plain in
  let s := Sample.after E (Sample.start E Sample.hello_archive) in
  let s' := Sample.after E s in
  let h := next_header E s in
  loop_body E s = Continue s'
  /\ (chunk_id h = 17 /\ f s = Some Sample.hello_txt /\ output_file s <> None
      /\ decompressed_size s <> 0
      /\ disk_lookup Sample.hello_txt (files s) = Some []
      /\ chunk_options h = 0)
  /\ total_extracted s' = ulong (total_extracted s + chunk_size h).
Proof.
  intros E s s' h.
  assert (L : loop_body E s = Continue s')
    by (apply after_goes_on; vm_compute; reflexivity).
  assert (H2 : chunk_id h = 17) by (vm_compute; reflexivity).
  assert (H3 : f s = Some Sample.hello_txt) by (vm_compute; reflexivity).
  assert (H4 : output_file s <> None) by (vm_compute; discriminate).
  assert (H5 : decompressed_size s <> 0) by (vm_compute; discriminate).
  assert (H6 : disk_lookup Sample.hello_txt (files s) = Some [])
    by (vm_compute; reflexivity).
  assert (H7 : chunk_options h = 0) by (vm_compute; reflexivity).
  split; [exact L|]. split; [repeat split; assumption|].
  exact (proj1 (proj2 (total_extracted_accounting E s s' Sample.hello_txt []
                         L) H2 H3 H4 H5 H6) H7).
Defined.

(** C9, where it fails.  The compressed chunk of [bad_compressed_archive]
    fails its checksum: nothing is written to hello.txt, which stays empty,
    and [total_extracted] goes from 0 to 7 all the same. *)
Lemma total_extracted_counts_unwritten_bytes :
  let E := Sample.plain in
  let s := Sample.after E (Sample.start E Sample.bad_compressed_archive) in
  let s' := Sample.after E s in
  let h := next_header E s in
  loop_body E s = Continue s'
  /\ chunk_id h = 17
  /\ f s = Some Sample.hello_txt
  /\ compressed_checksum E h (past_header E s) <> Some (chunk_checksum h)
  /\ disk_lookup Sample.hello_txt (files s) = Some []
  /\ disk_lookup Sample.hello_txt (files s') = Some []
  /\ total_extracted s = 0
  /\ total_extracted s' = 7.
Proof.
  intros E s s' h.
  split; [apply after_goes_on; vm_compute; reflexivity|].
  repeat split; try (vm_compute; reflexivity).
  vm_compute. discriminate.
Qed.

(** C8, where it fails.  In [bad_compressed_archive] the second chunk is
    compressed, with a size of 5, an extra of 7 and a wrong checksum.  When
    the [malloc] of the decompressed buffer fails, [unpack_file] does not
    abort: it abandons hello.txt, extracts the next file and returns 0. *)
Lemma failed_allocation_is_survived :
  let E := Sample.third_malloc_fails in
  let s := Sample.after E (Sample.start E Sample.bad_compressed_archive) in
  decompressed_buffer (grown E (next_header E s) (past_header E s)) = None
  /\ decompressed_bufsize (grown E (next_header E s) (past_header E s)) = 7
  /\ (exists s', loop_body E s = Continue s')
  /\ unpack_file E Sample.a_6pk (Sample.disk_with Sample.bad_compressed_archive)
     = Some (Exited 0 [(Sample.a_6pk, Sample.bad_compressed_archive);
                       (Sample.hello_txt, []);
                       (Sample.b_name, Sample.world)]).
Proof.
  intros E s. split; [vm_compute; reflexivity|].
  split; [vm_compute; reflexivity|]. split.
  - exists (Sample.after E s). apply after_goes_on. vm_compute. reflexivity.
  - vm_compute. reflexivity.
Qed.

(** * The samples, end to end *)

Example hello_extracted :
  unpack_file Sample.plain Sample.a_6pk (Sample.disk_with Sample.hello_archive)
  = Some (Exited 0 [(Sample.a_6pk, Sample.hello_archive);
                    (Sample.hello_txt, Sample.world)]).
Proof. vm_compute. reflexivity. Qed.

Example bad_stored_chunk_is_survived :
  unpack_file Sample.plain Sample.a_6pk
    (Sample.disk_with Sample.bad_stored_archive)
  = Some (Exited 0 [(Sample.a_6pk, Sample.bad_stored_archive);
                    (Sample.hello_txt, Sample.world);
                    (Sample.b_name, Sample.world)]).
Proof. vm_compute. reflexivity. Qed.

Example existing_file_is_skipped :
  unpack_file Sample.plain Sample.a_6pk
    [(Sample.a_6pk, Sample.hello_archive); (Sample.hello_txt, [x21])]
  = Some (Exited 0 [(Sample.a_6pk, Sample.hello_archive);
                    (Sample.hello_txt, [x21])]).
Proof. vm_compute. reflexivity. Qed.

Example bad_entry_is_fatal :
  unpack_file Sample.plain Sample.a_6pk
    (Sample.disk_with Sample.bad_entry_archive)
  = Some (Exited (-1) (Sample.disk_with Sample.bad_entry_archive)).
Proof. vm_compute. reflexivity. Qed.

Example adler_wikipedia :
  Adler.update_adler32 1 [x57; x69; x6b; x69; x70; x65; x64; x69; x61] 9
  = 300286872.
Proof. vm_compute. reflexivity. Qed.

(** * Rejected archives *)

Lemma fseek_contents (stream : FILE) (offset whence : Z) :
  contents (fseek stream offset whence) = contents stream.
Proof. unfold fseek. now destruct (_ <? 0). Qed.

Lemma magic_scan_values (cs : list nat) (buffer : list byte) :
  magic_scan cs buffer = 0 \/ magic_scan cs buffer = -1.
Proof.
  induction cs as [|c cs IH]; cbn [magic_scan]; [now right|].
  destruct (negb _); [now left | exact IH].
Qed.

Lemma magic_scan_match (cs : list nat) (buffer : list byte) :
  magic_scan cs buffer = -1 ->
  forall c, In c cs -> peek buffer c = peek sixpack_magic c.
Proof.
  induction cs as [|d cs IH]; cbn [magic_scan]; intros H c Hc;
    [destruct Hc|].
  destruct (Byte.eqb (peek buffer d) (peek sixpack_magic d)) eqn:Q;
    cbn [negb] in H; [|discriminate].
  destruct Hc as [<-|Hc]; [now apply Byte.byte_dec_bl | now apply IH].
Qed.

Lemma detect_magic_rejects (E : env) (stream : FILE) :
  firstn 8 (contents stream) <> sixpack_magic ->
  fst (detect_magic E stream) = 0.
Proof.
  destruct stream as [bytes pos]. cbn [contents]. intros Hne.
  rewrite detect_magic_unfold. cbn [fst].
  destruct (Z.ltb_spec (Z.of_nat (length (firstn 8 bytes))) 8) as [|L];
    [reflexivity|].
  destruct (magic_scan_values (seq 0 8)
              (mem_write (fresh E 8) (firstn 8 bytes))) as [|M];
    [assumption|].
  exfalso. apply Hne. unfold byte in *.
  assert (L8 : length (firstn 8 bytes) = 8%nat).
  { rewrite length_firstn in L |- *. lia. }
  apply (nth_ext _ _ x00 x00); [exact L8|].
  intros c Hc.
  pose proof (magic_scan_match _ _ M c) as P.
  rewrite L8 in Hc.
  unfold peek, mem_write in P.
  rewrite app_nth1 in P by (unfold byte; rewrite L8; exact Hc).
  apply P. apply in_seq. lia.
Qed.

(** X1.  When the archive cannot be opened (it does not exist, or it may
    not be read) or does not start with the eight bytes of the signature,
    [unpack_file] returns -1 and the disk is as it was. *)
Theorem unpack_file_rejects (E : env) (input_file : path) (d : disk) :
  disk_lookup input_file d = None
  \/ readable E input_file = false
  \/ (exists bytes, disk_lookup input_file d = Some bytes
                    /\ firstn 8 bytes <> sixpack_magic) ->
  unpack_file E input_file d = Some (Exited (-1) d).
Proof.
  unfold unpack_file. intros [H | [H | (bytes & H & Hne)]].
  { now rewrite (fopen_rb_missing E _ _ H). }
  { unfold fopen_rb. now rewrite H. }
  destruct (fopen_rb E input_file d) as [b|] eqn:Q; [|reflexivity].
  apply fopen_rb_some in Q as [_ Q]. rewrite H in Q. injection Q as <-.
  pose proof (detect_magic_rejects E
                (fseek (fseek (mkFILE bytes 0) 0 SEEK_END) 0 SEEK_SET)) as R.
  rewrite !fseek_contents in R. specialize (R Hne).
  destruct (detect_magic E _) as [magic stream]. cbn [fst] in R.
  now rewrite R.
Qed.

Lemma unpack_file_rejects_witness :
  unpack_file Sample.plain Sample.hello_txt
    (Sample.disk_with Sample.hello_archive)
  = Some (Exited (-1) (Sample.disk_with Sample.hello_archive))
  /\ unpack_file Sample.plain Sample.a_6pk (Sample.disk_with Sample.world)
     = Some (Exited (-1) (Sample.disk_with Sample.world)).
Proof.
  split.
  - apply unpack_file_rejects. left. reflexivity.
  - apply unpack_file_rejects. right. right. exists Sample.world.
    split; [reflexivity | discriminate].
Defined.

(** * main *)

Lemma flag_scan_exists (x y : path) (rest : list path) :
  forall before,
    flag_scan x y (before ++ rest) (seq (length before) (length rest + 1))
    = existsb (fun a => same_string a x || same_string a y) rest.
Proof.
  induction rest as [|a rest IH]; intros before.
  - cbn [length Nat.add seq flag_scan existsb].
    replace (nth_error (before ++ []) (length before)) with (@None path);
      [reflexivity|].
    symmetry. apply nth_error_None. rewrite app_nil_r. lia.
  - cbn [length Nat.add seq flag_scan existsb].
    rewrite nth_error_app2, Nat.sub_diag by lia. cbn [nth_error].
    destruct (same_string a x || same_string a y); [reflexivity|].
    specialize (IH (before ++ [a])).
    rewrite <- app_assoc, length_app in IH. cbn [app length] in IH.
    rewrite Nat.add_1_r in IH. exact IH.
Qed.

(** X2.  [main] returns 0 and leaves the disk alone when it has no argument
    or when one of its arguments is -h, --help, -v or --version, wherever
    it stands; otherwise it returns what [unpack_file] returns on
    [argv[1]], and the arguments after it are ignored. *)
Theorem main_dispatch (E : env) (argv : list path) (d : disk) :
  let flag a :=
    same_string a dash_h || same_string a dash_help
    || same_string a dash_v || same_string a dash_version in
  main E argv d
  = if (length argv <=? 1)%nat || existsb flag (tl argv)
    then Some (Exited 0 d)
    else unpack_file E (cstring (nth 1 argv [])) d.
Proof.
  intros flag. unfold main. destruct argv as [|a0 rest]; [reflexivity|].
  change (seq 1 (length (a0 :: rest)))
    with (seq (length [a0]) (S (length rest))).
  rewrite <- (Nat.add_1_r (length rest)).
  change (a0 :: rest) with ([a0] ++ rest) at 2 3.
  rewrite !flag_scan_exists. cbn [tl].
  destruct rest as [|a1 rest]; [reflexivity|].
  cbn [length Nat.eqb Nat.leb orb].
  assert (X : existsb flag (a1 :: rest)
              = existsb (fun a => same_string a dash_h
                                  || same_string a dash_help) (a1 :: rest)
                || existsb (fun a => same_string a dash_v
                                     || same_string a dash_version)
                     (a1 :: rest)).
  { unfold flag. induction (a1 :: rest) as [|a l IH]; [reflexivity|].
    cbn [existsb]. rewrite IH.
    destruct (same_string a dash_h), (same_string a dash_help),
      (same_string a dash_v), (same_string a dash_version); cbn [orb];
      rewrite ?orb_true_r; reflexivity. }
  rewrite X.
  destruct (existsb (fun a => same_string a dash_h
                              || same_string a dash_help) (a1 :: rest));
    [reflexivity|].
  destruct (existsb _ (a1 :: rest)); reflexivity.
Qed.

(** * Chunks that are passed over *)

Lemma is_entry_false (h : chunk) :
  chunk_id h <> 1 \/ chunk_size h <= 10 \/ BLOCK_SIZE <= chunk_size h ->
  is_entry h = false.
Proof.
  unfold is_entry. intros [H | [H | H]].
  - apply Z.eqb_neq in H. now rewrite H.
  - replace (chunk_size h >? 10) with false
      by (symmetry; rewrite Z.gtb_ltb; apply Z.ltb_ge; lia).
    now rewrite andb_false_r.
  - replace (chunk_size h <? BLOCK_SIZE) with false
      by (symmetry; apply Z.ltb_ge; lia).
    now rewrite andb_false_r.
Qed.

Lemma is_data_false (h : chunk) (s : state) :
  chunk_id h <> 17 \/ f s = None \/ output_file s = None
  \/ decompressed_size s = 0 ->
  is_data h s = false.
Proof.
  unfold is_data. intros [H | [H | [H | H]]].
  - apply Z.eqb_neq in H. now rewrite H.
  - rewrite H. cbn [is_set]. now rewrite andb_false_r.
  - rewrite H. cbn [is_set]. now rewrite !andb_false_r.
  - rewrite H. cbn [Z.eqb negb]. now rewrite !andb_false_r.
Qed.

(** X3.  A chunk that is not a file entry (its id is not 1, or its size is
    at most 10 or at least [BLOCK_SIZE]) and not data for an open file (its
    id is not 17, or no file is open, or the file is expected to have no
    bytes) is passed over: the pass reads its header, seeks to the next
    chunk and changes nothing else, neither on the disk nor in the
    session. *)
Theorem other_chunks_are_skipped (E : env) (s : state) :
  let h := next_header E s in
  chunk_id h <> 1 \/ chunk_size h <= 10 \/ BLOCK_SIZE <= chunk_size h ->
  chunk_id h <> 17 \/ f s = None \/ output_file s = None
  \/ decompressed_size s = 0 ->
  exists s',
    loop_body E s = Continue s'
    /\ files s' = files s
    /\ f s' = f s
    /\ output_file s' = output_file s
    /\ decompressed_size s' = decompressed_size s
    /\ total_extracted s' = total_extracted s
    /\ buffer s' = buffer s
    /\ mallocs s' = mallocs s
    /\ contents (in_file s') = contents (in_file s).
Proof.
  intros h H1 H2. rewrite loop_body_eq. fold h.
  rewrite (is_entry_false h H1). cbn [and_then].
  rewrite (is_data_false h (past_header E s) H2). cbn [and_then].
  eexists. split; [reflexivity|].
  unfold next_chunk, past_header, read_chunk_header, fread. fields.
  cbn [snd]. rewrite fseek_contents. cbn [contents]. repeat split.
Qed.

Lemma other_chunks_are_skipped_witness :
  let E := Sample.plain in
  let s := Sample.after E
             (initial_state E (mkFILE Sample.hello_archive 0)
                (Sample.occupied_disk Sample.hello_archive)) in
  (chunk_id (next_header E s) <> 1 /\ f s = None)
  /\ exists s', loop_body E s = Continue s' /\ files s' = files s.
Proof.
  intros E s.
  assert (H1 : chunk_id (next_header E s) <> 1) by (vm_compute; discriminate).
  assert (H2 : f s = None) by (vm_compute; reflexivity).
  split; [split; assumption|].
  destruct (other_chunks_are_skipped E s (or_introl H1)
              (or_intror (or_introl H2))) as (s' & L & F & _).
  exists s'. split; assumption.
Defined.

(** * A compressed chunk without a buffer *)

Lemma grown_compressed_buffer (E : env) (h : chunk) (s : state) :
  chunk_size h <= compressed_bufsize s ->
  compressed_buffer (grown E h s) = compressed_buffer s.
Proof.
  intros H. unfold grown, grow_decompressed, grow_compressed, malloc.
  replace (chunk_size h >? compressed_bufsize s) with false
    by (symmetry; rewrite Z.gtb_ltb; apply Z.ltb_ge; lia).
  destruct (chunk_extra h >? decompressed_bufsize s);
    [destruct (malloc_ok E _ (chunk_extra h))|]; reflexivity.
Qed.

(** With room enough in [compressed_bufsize], growing the buffers calls
    [malloc] for the decompressed buffer at most. *)
Lemma grown_without_room (E : env) (h : chunk) (s : state) :
  chunk_size h <= compressed_bufsize s ->
  compressed_bufsize (grown E h s) = compressed_bufsize s
  /\ mallocs (grown E h s)
     = if chunk_extra h >? decompressed_bufsize s
       then S (mallocs s) else mallocs s.
Proof.
  intros H. unfold grown, grow_decompressed, grow_compressed, malloc.
  replace (chunk_size h >? compressed_bufsize s) with false
    by (symmetry; rewrite Z.gtb_ltb; apply Z.ltb_ge; lia).
  destruct (chunk_extra h >? decompressed_bufsize s);
    [destruct (malloc_ok E _ (chunk_extra h))|]; fields; auto.
Qed.

(** X4.  A compressed chunk (id 17, options 1) of an open session that needs
    no more room than [compressed_bufsize] while [compressed_buffer] is
    [NULL] makes the run abort at line 447, before the chunk is read and
    before its checksum is looked at; the pass has written to no file.
    This is what a compressed chunk of size 0 does when it is the first
    compressed chunk of the archive.  The pass does not call [malloc] for
    the compressed buffer, which stays [NULL]; its only call of [malloc],
    the one of lines 434-441 for the decompressed buffer, is made when
    [chunk_extra] exceeds [decompressed_bufsize], and the abort does not
    depend on what it returns. *)
Theorem compressed_chunk_without_buffer_aborts
  (E : env) (fsize : Z) (s : state) :
  let h := next_header E s in
  ftell (in_file s) < fsize ->
  chunk_id h = 17 ->
  chunk_options h = 1 ->
  f s <> None ->
  output_file s <> None ->
  decompressed_size s <> 0 ->
  compressed_buffer s = None ->
  chunk_size h <= compressed_bufsize s ->
  exists s',
    loop_body E s = Abort s'
    /\ files s' = files s
    /\ compressed_buffer s' = None
    /\ compressed_bufsize s' = compressed_bufsize s
    /\ mallocs s'
       = (if chunk_extra h >? decompressed_bufsize s
          then S (mallocs s) else mallocs s)
    /\ forall fuel, main_loop E (S fuel) fsize s = Some (Abort s').
Proof.
  intros h Hpos Hid Hopt Hf Ho Hd Hnull Hsize.
  assert (N : compressed_buffer (grown E h (past_header E s)) = None).
  { rewrite grown_compressed_buffer; assumption. }
  assert (L : loop_body E s = Abort (grown E h (past_header E s))).
  { rewrite loop_body_data by assumption. fold h.
    unfold data_chunk. rewrite Hopt. cbn [Z.eqb Pos.eqb].
    rewrite compressed_chunk_no_buffer; [reflexivity | exact N]. }
  destruct (grown_session E h (past_header E s)) as (_ & _ & G & _).
  destruct (grown_without_room E h (past_header E s) Hsize) as [B M].
  eexists. split; [exact L|]. split; [exact G|]. split; [exact N|].
  split; [exact B|]. split; [exact M|].
  intros fuel. apply main_loop_stops; [assumption | exact L | discriminate].
Qed.

Lemma compressed_chunk_without_buffer_aborts_witness :
  let E := Sample.plain in
  let s := Sample.after E (Sample.start E Sample.empty_compressed_archive) in
  let h := next_header E s in
  (ftell (in_file s) < 59 /\ chunk_id h = 17 /\ chunk_options h = 1
   /\ chunk_size h = 0 /\ compressed_bufsize s = 0
   /\ compressed_buffer s = None)
  /\ exists s',
      loop_body E s = Abort s'
      /\ files s' = files s
      /\ compressed_buffer s' = None
      /\ forall fuel, main_loop E (S fuel) 59 s = Some (Abort s').
Proof.
  intros E s h.
  assert (H1 : ftell (in_file s) < 59) by (vm_compute; reflexivity).
  assert (H2 : chunk_id h = 17) by (vm_compute; reflexivity).
  assert (H3 : chunk_options h = 1) by (vm_compute; reflexivity).
  assert (H4 : f s <> None) by (vm_compute; discriminate).
  assert (H5 : output_file s <> None) by (vm_compute; discriminate).
  assert (H6 : decompressed_size s <> 0) by (vm_compute; discriminate).
  assert (H7 : compressed_buffer s = None) by (vm_compute; reflexivity).
  assert (H8 : chunk_size h = 0) by (vm_compute; reflexivity).
  assert (H9 : compressed_bufsize s = 0) by (vm_compute; reflexivity).
  assert (H10 : chunk_size h <= compressed_bufsize s)
    by (fold h; rewrite H8, H9; discriminate).
  split; [repeat split; assumption|].
  destruct (compressed_chunk_without_buffer_aborts E 59 s H1 H2 H3 H4 H5 H6
              H7 H10) as (s' & L & F & N & _ & _ & M).
  exists s'. auto.
Defined.

Example empty_compressed_chunk_crashes :
  option_map outcome_code
    (unpack_file Sample.plain Sample.a_6pk
       (Sample.disk_with Sample.empty_compressed_archive))
  = Some None.
Proof. vm_compute. reflexivity. Qed.

(** * Decoding any sixteen bytes *)

Lemma little_endian_32 (b0 b1 b2 b3 : Z) :
  0 <= b0 < 256 -> 0 <= b1 < 256 -> 0 <= b2 < 256 -> 0 <= b3 < 256 ->
  ulong
    (sint
       (sint (sint (b0 + sint (Z.shiftl b1 8)) + sint (Z.shiftl b2 16))
        + sint (Z.shiftl b3 24)))
  = b0 + b1 * 2 ^ 8 + b2 * 2 ^ 16 + b3 * 2 ^ 24
    + (if b3 <? 128 then 0 else 2 ^ 64 - 2 ^ 32).
Proof.
  intros B0 B1 B2 B3. rewrite !Z.shiftl_mul_pow2 by lia.
  rewrite (sint_small (b1 * _)) by lia.
  rewrite (sint_small (b2 * _)) by lia.
  rewrite (sint_small (b0 + _)) by lia.
  rewrite (sint_small (b0 + _ + _)) by lia.
  destruct (Z.ltb_spec b3 128).
  - rewrite (sint_small (b3 * _)) by lia.
    rewrite sint_small by lia. rewrite ulong_small; lia.
  - assert (S3 : sint (b3 * 2 ^ 24) = b3 * 2 ^ 24 - 2 ^ 32).
    { unfold sint. Z.to_euclidean_division_equations; lia. }
    rewrite S3. rewrite sint_small by lia.
    unfold ulong. Z.to_euclidean_division_equations; lia.
Qed.

Lemma readU32_value (ptr : list byte) :
  readU32 ptr
  = b2z (peek ptr 0) + b2z (peek ptr 1) * 2 ^ 8 + b2z (peek ptr 2) * 2 ^ 16
    + b2z (peek ptr 3) * 2 ^ 24
    + (if b2z (peek ptr 3) <? 128 then 0 else 2 ^ 64 - 2 ^ 32).
Proof. unfold readU32. apply little_endian_32; apply b2z_range. Qed.

Lemma readU16_value (ptr : list byte) :
  readU16 ptr = b2z (peek ptr 0) + b2z (peek ptr 1) * 2 ^ 8.
Proof.
  unfold readU16. pose proof (b2z_range (peek ptr 0)).
  pose proof (b2z_range (peek ptr 1)).
  rewrite Z.shiftl_mul_pow2 by lia.
  rewrite (sint_small (_ * _)) by lia.
  rewrite sint_small by lia. apply ulong_small. lia.
Qed.

Lemma peek_skipn (ptr : list byte) (n i : nat) :
  peek (skipn n ptr) i = peek ptr (n + i).
Proof. unfold peek. apply nth_skipn. Qed.

(** X5.  [read_chunk_header] decodes every sixteen bytes as little-endian
    fields, without any check: the id from bytes 0-1, the options from bytes
    2-3, the size from bytes 4-7, the checksum from bytes 8-11 and the extra
    from bytes 12-15.  So the id and the options are below 2^16 and the
    three others below 2^32, also when the top byte of a field has its high
    bit set and the shift in [readU32] goes negative: the mask of lines
    188-190 brings the value back. *)
Theorem decode_header_little_endian (buffer : list byte) :
  let b i := b2z (peek buffer i) in
  let h := decode_header buffer in
  chunk_id h = b 0%nat + b 1%nat * 2 ^ 8
  /\ chunk_options h = b 2%nat + b 3%nat * 2 ^ 8
  /\ chunk_size h
     = b 4%nat + b 5%nat * 2 ^ 8 + b 6%nat * 2 ^ 16 + b 7%nat * 2 ^ 24
  /\ chunk_checksum h
     = b 8%nat + b 9%nat * 2 ^ 8 + b 10%nat * 2 ^ 16 + b 11%nat * 2 ^ 24
  /\ chunk_extra h
     = b 12%nat + b 13%nat * 2 ^ 8 + b 14%nat * 2 ^ 16 + b 15%nat * 2 ^ 24.
Proof.
  intros b h. unfold h, decode_header.
  cbn [chunk_id chunk_options chunk_size chunk_checksum chunk_extra].
  rewrite !readU16_value, !readU32_value, !peek_skipn. cbn [Nat.add].
  fold (b 0%nat) (b 1%nat) (b 2%nat) (b 3%nat) (b 4%nat) (b 5%nat)
    (b 6%nat) (b 7%nat) (b 8%nat) (b 9%nat) (b 10%nat) (b 11%nat)
    (b 12%nat) (b 13%nat) (b 14%nat) (b 15%nat).
  assert (R : forall i, 0 <= b i < 256) by (intros i; apply b2z_range).
  pose proof (R 0%nat). pose proof (R 1%nat). pose proof (R 2%nat).
  pose proof (R 3%nat). pose proof (R 4%nat). pose proof (R 5%nat).
  pose proof (R 6%nat). pose proof (R 7%nat). pose proof (R 8%nat).
  pose proof (R 9%nat). pose proof (R 10%nat). pose proof (R 11%nat).
  pose proof (R 12%nat). pose proof (R 13%nat). pose proof (R 14%nat).
  pose proof (R 15%nat). clear R. clearbody b.
  change 0xffff with (Z.ones 16). change 0xffffffff with (Z.ones 32).
  rewrite !Z.land_ones by lia.
  assert (M : forall lo b3,
             0 <= lo < 2 ^ 24 -> 0 <= b3 < 256 ->
             (lo + b3 * 2 ^ 24
              + (if b3 <? 128 then 0 else 2 ^ 64 - 2 ^ 32)) mod 2 ^ 32
             = lo + b3 * 2 ^ 24).
  { intros lo b3 Hlo Hb. destruct (b3 <? 128);
      Z.to_euclidean_division_equations; lia. }
  rewrite !M by lia.
  rewrite !Z.mod_small by lia. rewrite !sint_small by lia.
  repeat split.
Qed.

(** X6.  [readU32], which line 298 uses without a mask for
    [decompressed_size], returns the little-endian value of its four bytes
    when the last byte is below 128, and that value plus 2^64 - 2^32
    otherwise (the [int] is sign-extended by the conversion to
    [unsigned long]); either way it is 0 exactly when the four bytes are
    0. *)
Theorem readU32_sign_extends (ptr : list byte) :
  let b i := b2z (peek ptr i) in
  let value :=
    b 0%nat + b 1%nat * 2 ^ 8 + b 2%nat * 2 ^ 16 + b 3%nat * 2 ^ 24 in
  readU32 ptr = (if b 3%nat <? 128 then value else value + (2 ^ 64 - 2 ^ 32))
  /\ (readU32 ptr = 0 <-> value = 0).
Proof.
  intros b value. rewrite readU32_value. unfold value, b.
  pose proof (b2z_range (peek ptr 0)). pose proof (b2z_range (peek ptr 1)).
  pose proof (b2z_range (peek ptr 2)). pose proof (b2z_range (peek ptr 3)).
  destruct (Z.ltb_spec (b2z (peek ptr 3)) 128); split; lia.
Qed.

(** * The sums of Adler-32 within a block *)

Lemma adler_bytes_bound (j : nat) :
  forall s1 s2 ptr,
    0 <= s1 < 2 ^ 16 -> 0 <= s2 < 2 ^ 16 -> Z.of_nat j <= 5552 ->
    let a := Nat.iter j Adler.adler_byte (s1, s2, ptr) in
    0 <= fst (fst a) <= s1 + 255 * Z.of_nat j
    /\ 0 <= snd (fst a)
    /\ 2 * snd (fst a)
       <= 2 * s2 + 2 * Z.of_nat j * s1 + 255 * Z.of_nat j * (Z.of_nat j + 1).
Proof.
  induction j as [|j IH]; intros s1 s2 ptr H1 H2 Hj.
  - simpl. lia.
  - rewrite Nat.iter_succ. specialize (IH s1 s2 ptr H1 H2 ltac:(lia)).
    cbv zeta in *.
    destruct (Nat.iter j Adler.adler_byte (s1, s2, ptr)) as [[a b] q].
    cbn [fst snd] in IH. destruct IH as (A1 & B1 & B2).
    unfold Adler.adler_byte. cbn [fst snd].
    pose proof (b2z_range (hd x00 q)) as Hb.
    assert (J : 0 <= Z.of_nat j < 5552) by lia.
    assert (P1 : Z.of_nat j * s1 <= 5552 * 65536) by nia.
    assert (P2 : Z.of_nat j * (Z.of_nat j + 1) <= 5552 * 5553) by nia.
    rewrite (ulong_small (a + b2z (hd x00 q))) by lia.
    rewrite (ulong_small (b + (a + b2z (hd x00 q)))) by lia.
    rewrite Nat2Z.inj_succ. nia.
Qed.

(** X7.  Within one block of the outer loop, that is for at most 5552 bytes
    from sums below 2^16, [s1] and [s2] stay below 2^32: the additions of
    lines 95-117 never wrap, in a 32-bit [unsigned long] either. *)
Theorem adler_block_fits_32_bits
  (j : nat) (s1 s2 : Z) (ptr : list byte) :
  0 <= s1 < 2 ^ 16 -> 0 <= s2 < 2 ^ 16 -> Z.of_nat j <= 5552 ->
  let a := Nat.iter j Adler.adler_byte (s1, s2, ptr) in
  0 <= fst (fst a) < 2 ^ 32 /\ 0 <= snd (fst a) < 2 ^ 32.
Proof.
  intros H1 H2 Hj a.
  destruct (adler_bytes_bound j s1 s2 ptr H1 H2 Hj) as (A & B1 & B2).
  fold a in A, B1, B2.
  assert (J : 0 <= Z.of_nat j <= 5552) by lia.
  assert (P1 : Z.of_nat j * s1 <= 5552 * 65535) by nia.
  assert (P2 : Z.of_nat j * (Z.of_nat j + 1) <= 5552 * 5553) by nia.
  split; lia.
Qed.

Lemma adler_block_fits_32_bits_witness :
  let a := Nat.iter 3 Adler.adler_byte (65535, 65535, [xff; xff; xff]) in
  0 <= fst (fst a) < 2 ^ 32 /\ 0 <= snd (fst a) < 2 ^ 32.
Proof.
  apply (adler_block_fits_32_bits 3 65535 65535 [xff; xff; xff]).
  - split; [discriminate | reflexivity].
  - split; [discriminate | reflexivity].
  - discriminate.
Defined.

Example adler_block_of_5553_overflows :
  2 ^ 32
  <= snd (fst (Nat.iter (Z.to_nat 5553) Adler.adler_byte
                 (65535, 65535, repeat xff (Z.to_nat 5553)))).
Proof. vm_compute. discriminate. Qed.

(** * What a run leaves on the disk *)

Section RunFacts.

Variable E : env.

Lemma and_then_state (I : state -> Prop) (r : flow) (k : state -> flow) :
  I (flow_state r) ->
  (forall s1, r = Continue s1 -> I s1 -> I (flow_state (k s1))) ->
  I (flow_state (and_then r k)).
Proof. destruct r; cbn [and_then flow_state]; auto. Qed.

Lemma fread_buffer_frame (n : Z) (s : state) :
  let t := snd (fread_buffer n s) in
  files t = files s /\ f t = f s /\ mallocs t = mallocs s
  /\ compressed_buffer t = compressed_buffer s
  /\ decompressed_buffer t = decompressed_buffer s
  /\ compressed_bufsize t = compressed_bufsize s
  /\ decompressed_bufsize t = decompressed_bufsize s
  /\ buffer t = mem_write (buffer s) (fst (fread n (in_file s))).
Proof.
  unfold fread_buffer. destruct (fread n (in_file s)) as [got stream].
  cbn [fst snd]. fields. repeat split.
Qed.

(** The disk and the open file after [file_entry], however it ends: as
    before, or with no file open, or with a new, empty file open. *)
Lemma file_entry_disk (h : chunk) (s : state) :
  let t := flow_state (file_entry E h s) in
  (files t = files s /\ (f t = f s \/ f t = None))
  \/ (exists p,
         fopen_rb E p (files s) = None
         /\ files t = disk_store p [] (files s)
         /\ f t = Some p).
Proof.
  unfold file_entry. rewrite fread_buffer_set_output_file. fields.
  destruct (fread_buffer_frame (chunk_size h) s) as (F1 & F2 & _).
  cbv zeta in F1, F2.
  destruct (negb _).
  - cbn [flow_state]. fields. rewrite ?F1, ?F2. left. auto.
  - unfold malloc. fields. destruct (malloc_ok E _ _).
    + fields. rewrite ?F1.
      destruct (fopen_rb E _ (files s)) eqn:Q.
      * cbn [flow_state]. fields. rewrite ?F1, ?F2. left. auto.
      * destruct (creatable E _).
        -- cbn [flow_state]. fields. right. eexists.
           split; [exact Q|]. rewrite ?F1. auto.
        -- cbn [flow_state]. fields. rewrite ?F1, ?F2. left. auto.
    + cbn [flow_state]. fields. rewrite ?F1, ?F2. left. auto.
Qed.

(** The disk and the open file after a compressed chunk, however it
    ends. *)
Lemma compressed_chunk_disk (h : chunk) (s : state) (p : path) :
  f s = Some p ->
  let t := flow_state (compressed_chunk E h s) in
  (exists w, appended p w (files s) (files t))
  /\ (f t = Some p \/ f t = None).
Proof.
  intros Hf. destruct (grown_session E h s) as (G1 & G2 & G3 & G4).
  unfold compressed_chunk.
  destruct (compressed_buffer (grown E h s)) as [block|].
  2:{ cbn [flow_state]. rewrite G1, G3. split; [|now left].
      exists []. apply appended_refl. }
  destruct (fread (chunk_size h) (in_file (grown E h s))) as [got stream].
  fields. destruct (negb _).
  { cbn [flow_state]. unfold abandon. fields. rewrite G3.
    split; [|now right]. exists []. apply appended_refl. }
  destruct (fastlz_decompress E _ _ _ _) as [result stored]. fields.
  destruct (negb _).
  { cbn [flow_state]. unfold abandon. fields. rewrite G3.
    split; [|now right]. exists []. apply appended_refl. }
  destruct (decompressed_buffer (grown E h s)) as [out|]; cbn [option_map].
  - cbn [flow_state]. rewrite (fwrite_open p) by (fields; congruence).
    fields. rewrite G1, G3. split; [|left; assumption].
    eexists. apply appended_disk_append.
  - cbn [flow_state]. fields. rewrite G1, G3. split; [|now left].
    exists []. apply appended_refl.
Qed.

Lemma data_chunk_disk (h : chunk) (s : state) (p : path) :
  f s = Some p ->
  let t := flow_state (data_chunk E h s) in
  (exists w, appended p w (files s) (files t))
  /\ (f t = Some p \/ f t = None).
Proof.
  intros Hf. unfold data_chunk.
  destruct (chunk_options h =? 0);
    [|destruct (chunk_options h =? 1)].
  - destruct (stored_chunk_continue h s p Hf)
      as (s' & R & _ & (w & _ & A) & D).
    rewrite R. cbn [flow_state]. split; [eauto|].
    destruct D as [(F & _) | (F & _)]; auto.
  - now apply compressed_chunk_disk.
  - cbn [flow_state]. unfold abandon. fields.
    split; [|now right]. exists []. apply appended_refl.
Qed.

Lemma fopen_rb_none (p : path) (d : disk) (v : list byte) :
  fopen_rb E p d = None -> readable E p = true ->
  disk_lookup p d = Some v -> False.
Proof. unfold fopen_rb. intros H R Q. rewrite R in H. congruence. Qed.

Lemma keeps_appended (d0 d d' : disk) (p : path) (w : list byte) :
  keeps E d0 d -> fopen_rb E p d0 = None -> appended p w d d' ->
  keeps E d0 d'.
Proof.
  intros K Hp [_ A] q v R Hq. rewrite A; [now apply K|].
  intros ->. exact (fopen_rb_none p d0 v Hp R Hq).
Qed.

Lemma keeps_created (d0 d : disk) (p : path) :
  keeps E d0 d -> fopen_rb E p d = None ->
  keeps E d0 (disk_store p [] d) /\ fopen_rb E p d0 = None.
Proof.
  intros K Hp.
  assert (N : fopen_rb E p d0 = None).
  { unfold fopen_rb. destruct (readable E p) eqn:R; [|reflexivity].
    destruct (disk_lookup p d0) as [v|] eqn:Q; [|reflexivity].
    destruct (fopen_rb_none p d v Hp R (K p v R Q)). }
  split; [|exact N]. intros q v R Hq.
  rewrite disk_lookup_store, path_eqb_neq; [now apply K|].
  intros ->. exact (fopen_rb_none p d0 v N R Hq).
Qed.

Lemma is_data_open (h : chunk) (s : state) :
  is_data h s = true -> exists p, f s = Some p.
Proof.
  unfold is_data. destruct (f s) as [p|]; [eauto|].
  cbn [is_set]. rewrite andb_false_r. discriminate.
Qed.

(** A pass keeps the files the run found, however it ends. *)
Lemma loop_body_untouched (d0 : disk) (s : state) :
  untouched E d0 s -> untouched E d0 (flow_state (loop_body E s)).
Proof.
  intros U. rewrite loop_body_eq.
  apply and_then_state.
  - destruct (is_entry (next_header E s)); [|exact U].
    destruct U as [K O].
    destruct (file_entry_disk (next_header E s) (past_header E s))
      as [(F1 & F2) | (p & Q & F1 & F2)];
      change (files (past_header E s)) with (files s) in *;
      change (f (past_header E s)) with (f s) in *.
    + split; [now rewrite F1|]. intros p Hp.
      destruct F2 as [F2|F2]; rewrite F2 in Hp; [now apply O | discriminate].
    + destruct (keeps_created d0 (files s) p K Q) as [K' N].
      split; [now rewrite F1|]. intros q Hq. congruence.
  - intros s1 _ U1. apply and_then_state.
    + destruct (is_data (next_header E s) s1) eqn:D; [|exact U1].
      destruct (is_data_open _ _ D) as [p Hp]. destruct U1 as [K O].
      destruct (data_chunk_disk (next_header E s) s1 p Hp)
        as ((w & A) & F2).
      split.
      * exact (keeps_appended d0 (files s1) _ p w K (O p Hp) A).
      * intros q Hq. destruct F2 as [F2|F2]; rewrite F2 in Hq;
          [|discriminate]. injection Hq as <-. now apply O.
    + intros s2 _ U2. exact U2.
Qed.

Lemma main_loop_untouched (d0 : disk) (fsize : Z) (fuel : nat) :
  forall s r,
    untouched E d0 s ->
    main_loop E fuel fsize s = Some r ->
    untouched E d0 (flow_state r).
Proof.
  induction fuel as [|fuel IH]; intros s r U H; [discriminate|].
  cbn [main_loop] in H. destruct (_ >=? fsize).
  - injection H as <-. exact U.
  - pose proof (loop_body_untouched d0 s U) as U'.
    destruct (loop_body E s) as [s'| |]; cbn [flow_state] in U'.
    + now apply (IH s').
    + injection H as <-. exact U'.
    + injection H as <-. exact U'.
Qed.

Lemma finished_disk (r : flow) : outcome_disk (finished r) = files (flow_state r).
Proof. now destruct r. Qed.

(** The values [unpack_file] returns. *)
Lemma and_then_return (r : flow) (k : state -> flow) (code : Z) (t : state) :
  and_then r k = Return code t ->
  r = Return code t \/ exists s1, r = Continue s1 /\ k s1 = Return code t.
Proof. destruct r; cbn [and_then]; intros H; eauto; discriminate. Qed.

Lemma file_entry_code (h : chunk) (s : state) (code : Z) (t : state) :
  file_entry E h s = Return code t -> code = -1.
Proof.
  unfold file_entry. rewrite fread_buffer_set_output_file. fields.
  destruct (negb _); [congruence|].
  unfold malloc. fields. destruct (malloc_ok E _ _); fields;
    [|discriminate].
  destruct (fopen_rb E _ _); [discriminate|].
  destruct (creatable E _); discriminate.
Qed.

Lemma data_chunk_code (h : chunk) (s : state) (code : Z) (t : state) :
  data_chunk E h s <> Return code t.
Proof.
  unfold data_chunk.
  destruct (chunk_options h =? 0); [|destruct (chunk_options h =? 1)].
  - unfold stored_chunk. destruct (stored_loop _ _ _ _) as [c u].
    destruct (negb _); discriminate.
  - unfold compressed_chunk.
    destruct (compressed_buffer _); [|discriminate].
    destruct (fread _ _) as [got stream]. destruct (negb _); [discriminate|].
    destruct (fastlz_decompress E _ _ _ _) as [result stored].
    destruct (negb _); [discriminate|].
    destruct (decompressed_buffer _); discriminate.
  - discriminate.
Qed.

Lemma loop_body_code (s : state) (code : Z) (t : state) :
  loop_body E s = Return code t -> code = -1.
Proof.
  rewrite loop_body_eq. intros H.
  apply and_then_return in H as [H | (s1 & _ & H)].
  - destruct (is_entry _); [|discriminate]. now apply file_entry_code in H.
  - apply and_then_return in H as [H | (s2 & _ & H)]; [|discriminate].
    destruct (is_data _ _); [|discriminate].
    now apply data_chunk_code in H.
Qed.

Lemma main_loop_code (fsize : Z) (fuel : nat) :
  forall s r,
    main_loop E fuel fsize s = Some r ->
    outcome_code (finished r) = Some 0
    \/ outcome_code (finished r) = Some (-1)
    \/ outcome_code (finished r) = None.
Proof.
  induction fuel as [|fuel IH]; intros s r H; [discriminate|].
  cbn [main_loop] in H. destruct (_ >=? fsize).
  - injection H as <-. now left.
  - destruct (loop_body E s) as [s'|code t|t] eqn:L.
    + now apply (IH s').
    + injection H as <-. apply loop_body_code in L. subst. right. now left.
    + injection H as <-. right. now right.
Qed.

End RunFacts.

Lemma initial_state_untouched (E : env) (stream : FILE) (d : disk) :
  untouched E d (initial_state E stream d).
Proof.
  unfold initial_state. split; fields.
  - intros q v _ Hq. exact Hq.
  - intros p Hp. discriminate.
Qed.

(** X8.  Whatever the archive holds, [unpack_file] changes no file that was
    on the disk when it started and that may be read, the archive included:
    every such file has the same bytes when [unpack_file] returns or aborts.
    A file is only opened for writing after [fopen(name, "rb")] has failed
    on it (lines 323-334), and a file that exists and may be read is opened
    by that call.  (The program never writes to such a file, so the bytes
    that [abort()] may lose are not among them.) *)
Theorem unpack_file_keeps_readable_files
  (E : env) (input_file : path) (d : disk) (o : outcome)
  (q : path) (v : list byte) :
  unpack_file E input_file d = Some o ->
  disk_lookup q d = Some v ->
  readable E q = true ->
  disk_lookup q (outcome_disk o) = Some v.
Proof.
  unfold unpack_file. intros H Hq R.
  destruct (fopen_rb E input_file d) as [bytes|].
  2:{ injection H as <-. exact Hq. }
  destruct (detect_magic E _) as [magic stream].
  destruct (magic =? 0).
  { injection H as <-. exact Hq. }
  destruct (main_loop E _ _ _) as [r|] eqn:M; [|discriminate].
  cbn [option_map] in H. injection H as <-. rewrite finished_disk.
  apply (main_loop_untouched E d _ _ _ _ (initial_state_untouched E _ d) M);
    assumption.
Qed.

Lemma unpack_file_keeps_readable_files_witness :
  let d := Sample.occupied_disk Sample.bad_stored_archive in
  let o := Exited 0 [(Sample.a_6pk, Sample.bad_stored_archive);
                     (Sample.hello_txt, [x21]);
                     (Sample.b_name, Sample.world)] in
  (unpack_file Sample.plain Sample.a_6pk d = Some o
   /\ disk_lookup Sample.hello_txt d = Some [x21]
   /\ readable Sample.plain Sample.hello_txt = true)
  /\ disk_lookup Sample.hello_txt (outcome_disk o) = Some [x21].
Proof.
  intros d o.
  assert (H1 : unpack_file Sample.plain Sample.a_6pk d = Some o)
    by (vm_compute; reflexivity).
  assert (H2 : disk_lookup Sample.hello_txt d = Some [x21])
    by (vm_compute; reflexivity).
  assert (H3 : readable Sample.plain Sample.hello_txt = true)
    by reflexivity.
  split; [repeat split; assumption|].
  exact (unpack_file_keeps_readable_files Sample.plain Sample.a_6pk d o
           Sample.hello_txt [x21] H1 H2 H3).
Defined.

(** X9.  [unpack_file] ends on every disk, whatever the archive holds: it
    returns 0, or it returns -1, or it calls [abort()]; it returns nothing
    else and it does not loop.  (The archive has fewer than 2^62 bytes, as
    every file has whose positions fit a [long].) *)
Theorem unpack_file_ends (E : env) (input_file : path) (d : disk) :
  (forall bytes, disk_lookup input_file d = Some bytes ->
                 Z.of_nat (length bytes) < 2 ^ 62) ->
  exists o,
    unpack_file E input_file d = Some o
    /\ (outcome_code o = Some 0 \/ outcome_code o = Some (-1)
        \/ outcome_code o = None).
Proof.
  intros Hsmall.
  destruct (unpack_file_terminates E input_file d Hsmall) as [o H].
  exists o. split; [exact H|].
  unfold unpack_file in H.
  destruct (fopen_rb E input_file d) as [bytes|].
  2:{ injection H as <-. right. now left. }
  destruct (detect_magic E _) as [magic stream].
  destruct (magic =? 0).
  { injection H as <-. right. now left. }
  destruct (main_loop E _ _ _) as [r|] eqn:M; [|discriminate].
  cbn [option_map] in H. injection H as <-.
  exact (main_loop_code E _ _ _ _ M).
Qed.

Lemma unpack_file_ends_witness :
  let d := Sample.disk_with Sample.bad_entry_archive in
  (forall bytes, disk_lookup Sample.a_6pk d = Some bytes ->
                 Z.of_nat (length bytes) < 2 ^ 62)
  /\ exists o,
      unpack_file Sample.plain Sample.a_6pk d = Some o
      /\ (outcome_code o = Some 0 \/ outcome_code o = Some (-1)
          \/ outcome_code o = None).
Proof.
  intros d.
  assert (H : forall bytes, disk_lookup Sample.a_6pk d = Some bytes ->
                            Z.of_nat (length bytes) < 2 ^ 62).
  { intros bytes Q. vm_compute in Q. injection Q as <-. reflexivity. }
  split; [exact H|].
  exact (unpack_file_ends Sample.plain Sample.a_6pk d H).
Defined.

(** * Stored chunks *)

Section StoredFacts.

Variable E : env.

Lemma mem_read_written (got rest : list byte) :
  mem_read (got ++ rest) 0 (length got) = got.
Proof.
  rewrite mem_read_0 by (rewrite length_app; lia).
  apply firstn_length_app.
Qed.

(** The copy loop on a payload that is whole in the stream: it appends the
    payload to the open file and returns its checksum. *)
Lemma stored_loop_copies (fuel : nat) :
  forall remaining st s p,
    f s = Some p ->
    0 <= fst st < Adler.ADLER32_BASE ->
    0 <= snd st < Adler.ADLER32_BASE ->
    0 <= fpos (in_file s) ->
    0 <= remaining < 2 ^ 32 ->
    fpos (in_file s) + remaining
    <= Z.of_nat (length (contents (in_file s))) ->
    remaining < Z.of_nat fuel ->
    let bytes :=
      firstn (Z.to_nat remaining)
        (skipn (Z.to_nat (fpos (in_file s))) (contents (in_file s))) in
    fst (stored_loop fuel remaining (Adler.pack st) s)
    = Adler.pack (Adler.rfc_sums st bytes)
    /\ appended p bytes (files s)
         (files (snd (stored_loop fuel remaining (Adler.pack st) s))).
Proof.
  induction fuel as [|fuel IH];
    intros remaining st s p Hf S1 S2 H0 Hr Hc Hfuel bytes; [lia|].
  cbn [stored_loop]. unfold fread_buffer, fread.
  set (pos := fpos (in_file s)) in *.
  set (r := if BLOCK_SIZE <? remaining then BLOCK_SIZE else remaining).
  assert (Hrr : 0 <= r <= remaining /\ r <= 65536
                /\ (remaining = 0 \/ 0 < r)).
  { unfold r, BLOCK_SIZE. destruct (Z.ltb_spec 65536 remaining); lia. }
  clearbody r.
  set (got := firstn (Z.to_nat r)
                (skipn (Z.to_nat pos) (contents (in_file s)))).
  assert (Lg : Z.of_nat (length got) = r).
  { unfold got. rewrite length_firstn, length_skipn. lia. }
  assert (Split : bytes = got ++ firstn (Z.to_nat (remaining - r))
                                   (skipn (Z.to_nat (pos + r))
                                      (contents (in_file s)))).
  { unfold bytes, got.
    replace (Z.to_nat remaining)
      with (Z.to_nat r + Z.to_nat (remaining - r))%nat by lia.
    rewrite firstn_plus, skipn_skipn. do 3 f_equal. lia. }
  clearbody got bytes. fields.
  destruct (Z.eqb_spec (Z.of_nat (length got)) 0) as [Z0|NZ].
  - cbn [fst snd]. fields.
    assert (got = []) by (destruct got; [reflexivity | cbn in Z0; lia]).
    subst got. replace (remaining - r) with 0 in Split by lia.
    cbn [Z.to_nat firstn app] in Split. subst bytes.
    split; [reflexivity | apply appended_refl].
  - rewrite (fwrite_open p) by exact Hf. fields.
    assert (W : mem_read (mem_write (buffer s) got) 0
                  (Z.to_nat (Z.of_nat (length got))) = got).
    { rewrite Nat2Z.id. apply mem_read_written. }
    assert (C : Adler.update_adler32 (Adler.pack st)
                  (mem_write (buffer s) got) (sint (Z.of_nat (length got)))
                = Adler.pack (Adler.rfc_sums st got)).
    { rewrite sint_small by lia.
      rewrite update_adler32_firstn.
      - unfold mem_write. rewrite Nat2Z.id, firstn_length_app.
        apply update_adler32_of_pack; unfold INT_MAX; try assumption; lia.
      - unfold INT_MAX. lia.
      - unfold mem_write. rewrite length_app. lia. }
    rewrite W, C.
    destruct (rfc_sums_reduced got st S1 S2) as [R1 R2].
    match goal with
    | |- context [stored_loop fuel ?r' (Adler.pack ?st') ?t] =>
        pose proof (IH r' st' t p Hf R1 R2) as I
    end.
    fields. cbn [fpos contents] in I. fold pos in I.
    rewrite ulong_small in * by lia. rewrite Lg in *.
    specialize (I ltac:(lia) ltac:(lia) ltac:(lia) ltac:(lia)).
    cbv zeta in I. destruct I as [I1 I2].
    rewrite I1, Split, rfc_sums_app. split; [reflexivity|].
    eapply appended_trans; [apply appended_disk_append | exact I2].
Qed.

End StoredFacts.

(** X10.  A stored chunk (id 17, options 0) of an open session that is whole
    in the stream: the checksum the copy loop computes block by block is the
    Adler-32 of the payload as RFC 1950 defines it, whatever the size of the
    chunk, and the pass appends the payload, byte for byte, to the open file
    and touches no other file.  The bytes are written before the checksum
    is compared: when it differs from the one of the header the file is
    closed and abandoned with the payload in it, and when it agrees the file
    stays open. *)
Theorem stored_chunk_is_copied
  (E : env) (s : state) (p : path) (old : list byte) :
  let h := next_header E s in
  let sum := Adler.rfc_adler32 (payload E s) in
  chunk_id h = 17 ->
  chunk_options h = 0 ->
  f s = Some p ->
  output_file s <> None ->
  decompressed_size s <> 0 ->
  chunk_complete E s ->
  disk_lookup p (files s) = Some old ->
  stored_checksum h (past_header E s) = sum
  /\ exists s',
      loop_body E s = Continue s'
      /\ disk_lookup p (files s') = Some (old ++ payload E s)
      /\ (forall q, q <> p ->
                    disk_lookup q (files s') = disk_lookup q (files s))
      /\ (chunk_checksum h = sum ->
          f s' = Some p /\ output_file s' = output_file s)
      /\ (chunk_checksum h <> sum ->
          f s' = None /\ output_file s' = None).
Proof.
  intros h sum Hid Hopt Hf Ho Hd Hc Hold.
  subst sum. unfold Adler.rfc_adler32.
  pose proof (next_header_size E s) as Hsz. fold h in Hsz.
  destruct (past_header_position E s Hc) as [P1 P2].
  destruct (entry_window_payload E s Hc) as [_ Lp]. fold h in Lp.
  pose proof Hc as [C0 C1]. fold h in C1. unfold ftell in *.
  pose proof (stored_loop_copies (S (Z.to_nat (chunk_size h)))
                (chunk_size h) (1, 0)
                (set_total_extracted
                   (ulong (total_extracted (past_header E s) + chunk_size h))
                   (past_header E s)) p) as K.
  fields. rewrite P1, P2 in K.
  specialize (K Hf ltac:(cbn; unfold Adler.ADLER32_BASE; lia)
                ltac:(cbn; unfold Adler.ADLER32_BASE; lia)
                ltac:(lia) ltac:(lia) ltac:(lia) ltac:(lia)).
  cbv zeta in K.
  assert (Pay : payload E s
                = firstn (Z.to_nat (chunk_size h))
                    (skipn (Z.to_nat (fpos (in_file s) + 16))
                       (contents (in_file s)))) by reflexivity.
  rewrite <- Pay in K.
  change (Adler.pack (1, 0)) with 1 in K.
  destruct K as [K1 K2].
  pose proof (stored_loop_session (S (Z.to_nat (chunk_size h)))
                (chunk_size h) 1
                (set_total_extracted
                   (ulong (total_extracted (past_header E s) + chunk_size h))
                   (past_header E s)) p Hf) as (L1 & L2 & _).
  fields.
  split; [exact K1|].
  rewrite loop_body_data by (assumption || congruence). fold h.
  unfold data_chunk. rewrite Hopt. cbn [Z.eqb].
  unfold stored_chunk. unfold stored_checksum in K1.
  destruct (stored_loop _ _ _ _) as [checksum t]. cbn [fst snd] in *.
  destruct K2 as [A1 A2].
  destruct (Z.eqb_spec checksum (chunk_checksum h)) as [Ck|Ck];
    cbn [negb and_then]; eexists; (split; [reflexivity|]);
    unfold next_chunk, abandon; fields;
    (split; [now apply A1|]); (split; [exact A2|]); split;
    intros Hsum; try congruence; auto.
Qed.

Lemma stored_chunk_is_copied_witness :
  let E := Sample.plain in
  let s := Sample.after E (Sample.start E Sample.bad_stored_archive) in
  let h := next_header E s in
  let sum := Adler.rfc_adler32 (payload E s) in
  (chunk_id h = 17 /\ chunk_options h = 0 /\ f s = Some Sample.hello_txt
   /\ output_file s <> None /\ decompressed_size s <> 0
   /\ chunk_complete E s
   /\ disk_lookup Sample.hello_txt (files s) = Some []
   /\ payload E s = Sample.world
   /\ chunk_checksum h <> sum)
  /\ exists s',
      loop_body E s = Continue s'
      /\ disk_lookup Sample.hello_txt (files s')
         = Some ([] ++ payload E s)
      /\ f s' = None.
Proof.
  intros E s h sum.
  assert (H1 : chunk_id h = 17) by (vm_compute; reflexivity).
  assert (H2 : chunk_options h = 0) by (vm_compute; reflexivity).
  assert (H3 : f s = Some Sample.hello_txt) by (vm_compute; reflexivity).
  assert (H4 : output_file s <> None) by (vm_compute; discriminate).
  assert (H5 : decompressed_size s <> 0) by (vm_compute; discriminate).
  assert (H6 : chunk_complete E s)
    by (split; vm_compute; discriminate).
  assert (H7 : disk_lookup Sample.hello_txt (files s) = Some [])
    by (vm_compute; reflexivity).
  assert (H8 : payload E s = Sample.world) by (vm_compute; reflexivity).
  assert (H9 : chunk_checksum h <> sum) by (vm_compute; discriminate).
  split; [repeat split; assumption || apply H6|].
  destruct (stored_chunk_is_copied E s Sample.hello_txt [] H1 H2 H3 H4 H5
              H6 H7) as (_ & s' & L & W & _ & _ & B).
  exists s'. split; [exact L|]. split; [exact W|]. exact (proj1 (B H9)).
Defined.

(** * The blocks the program writes to *)

Section BlockFacts.

Variable E : env.

Lemma length_mem_write (ptr got : list byte) :
  (length got <= length ptr)%nat -> length (mem_write ptr got) = length ptr.
Proof.
  intros H. unfold mem_write. rewrite length_app, length_skipn. lia.
Qed.

Lemma length_fresh (n : nat) : length (fresh E n) = n.
Proof. unfold fresh. now rewrite length_map, length_seq. Qed.

Lemma blocks_kept_refl (s : state) : blocks_sized s -> blocks_kept s s.
Proof. intros H. split; [exact H | lia]. Qed.

Lemma blocks_kept_trans (s t u : state) :
  blocks_kept s t -> blocks_kept t u -> blocks_kept s u.
Proof. intros (_ & A & B) (H & C & D). split; [exact H | lia]. Qed.

(** Two states with the same blocks. *)
Lemma blocks_same (s t : state) :
  buffer t = buffer s ->
  compressed_buffer t = compressed_buffer s ->
  decompressed_buffer t = decompressed_buffer s ->
  compressed_bufsize t = compressed_bufsize s ->
  decompressed_bufsize t = decompressed_bufsize s ->
  blocks_sized s -> blocks_kept s t.
Proof.
  intros B C D Cs Ds H. unfold blocks_kept, blocks_sized.
  rewrite B, C, D, Cs, Ds. split; [exact H | lia].
Qed.

(** [fread] into the window, of no more than [BLOCK_SIZE] bytes. *)
Lemma fread_buffer_kept (n : Z) (s : state) :
  n <= BLOCK_SIZE -> blocks_sized s ->
  blocks_kept s (snd (fread_buffer n s)).
Proof.
  intros Hn (B & C0 & D0 & C & D).
  destruct (fread_buffer_frame n s) as (_ & _ & _ & F4 & F5 & F6 & F7 & F8).
  cbv zeta in F4, F5, F6, F7, F8.
  destruct (fread_position n (in_file s)) as (_ & _ & L).
  unfold blocks_kept, blocks_sized. rewrite F4, F5, F6, F7, F8.
  unfold BLOCK_SIZE in *.
  rewrite length_mem_write by lia.
  repeat split; auto; lia.
Qed.

Lemma fwrite_kept (ptr : list byte) (n : Z) (s : state) :
  blocks_sized s -> blocks_kept s (fwrite ptr n s).
Proof.
  intros H. unfold fwrite. destruct (f s).
  - apply blocks_same; [reflexivity .. | exact H].
  - now apply blocks_kept_refl.
Qed.

Lemma file_entry_kept (h : chunk) (s : state) :
  chunk_size h < BLOCK_SIZE -> blocks_sized s ->
  blocks_kept s (flow_state (file_entry E h s)).
Proof.
  intros Hs H.
  pose proof (fread_buffer_kept (chunk_size h) s ltac:(lia) H) as K.
  apply (blocks_kept_trans _ _ _ K). destruct K as [K _].
  unfold file_entry. rewrite fread_buffer_set_output_file. fields.
  destruct (negb _).
  { cbn [flow_state]. apply blocks_same; [reflexivity .. | exact K]. }
  unfold malloc. fields. destruct (malloc_ok E _ _); fields.
  2:{ cbn [flow_state]. apply blocks_same; [reflexivity .. | exact K]. }
  destruct (fopen_rb E _ _).
  { cbn [flow_state]. apply blocks_same; [reflexivity .. | exact K]. }
  destruct (creatable E _); cbn [flow_state];
    apply blocks_same; (reflexivity || exact K).
Qed.

(** The copy loop of a stored chunk. *)
Lemma stored_loop_kept (fuel : nat) :
  forall remaining checksum s,
    blocks_sized s ->
    blocks_kept s (snd (stored_loop fuel remaining checksum s)).
Proof.
  induction fuel as [|fuel IH]; intros remaining checksum s H.
  { now apply blocks_kept_refl. }
  cbn [stored_loop].
  set (r := if BLOCK_SIZE <? remaining then BLOCK_SIZE else remaining).
  assert (Hr : r <= BLOCK_SIZE).
  { unfold r. destruct (Z.ltb_spec BLOCK_SIZE remaining); lia. }
  pose proof (fread_buffer_kept r s Hr H) as K.
  destruct (fread_buffer r s) as [bytes_read s']. cbn [snd] in K.
  destruct (bytes_read =? 0); [exact K|].
  apply (blocks_kept_trans _ _ _ K). destruct K as [K _].
  pose proof (fwrite_kept (buffer s') bytes_read s' K) as W.
  apply (blocks_kept_trans _ _ _ W). destruct W as [W _].
  now apply IH.
Qed.

Lemma abandon_kept (s : state) : blocks_sized s -> blocks_kept s (abandon s).
Proof. intros H. apply blocks_same; [reflexivity .. | exact H]. Qed.

Lemma stored_chunk_kept (h : chunk) (s : state) :
  blocks_sized s -> blocks_kept s (flow_state (stored_chunk h s)).
Proof.
  intros H. unfold stored_chunk.
  set (s0 := set_total_extracted _ s).
  assert (K0 : blocks_kept s s0)
    by (apply blocks_same; [reflexivity .. | exact H]).
  apply (blocks_kept_trans _ _ _ K0). destruct K0 as [K0 _].
  pose proof (stored_loop_kept (S (Z.to_nat (chunk_size h))) (chunk_size h)
                1 s0 K0) as K.
  destruct (stored_loop _ _ _ _) as [checksum t]. cbn [snd] in K.
  destruct (negb _); cbn [flow_state]; [|exact K].
  apply (blocks_kept_trans _ _ _ K). apply abandon_kept. apply K.
Qed.

(** Growing the two buffers: each is then large enough for the chunk. *)
Lemma grown_kept (h : chunk) (s : state) :
  0 <= chunk_size h -> 0 <= chunk_extra h -> blocks_sized s ->
  blocks_kept s (grown E h s)
  /\ chunk_size h <= compressed_bufsize (grown E h s)
  /\ chunk_extra h <= decompressed_bufsize (grown E h s).
Proof.
  intros Hs He (B & C0 & D0 & C & D).
  unfold grown, grow_decompressed, grow_compressed, malloc,
    blocks_kept, blocks_sized.
  destruct (Z.gtb_spec (chunk_size h) (compressed_bufsize s));
    [destruct (malloc_ok E (mallocs s) (chunk_size h))|]; fields;
    (destruct (Z.gtb_spec (chunk_extra h) (decompressed_bufsize s));
     [destruct (malloc_ok E _ (chunk_extra h))|]); fields;
    repeat split; auto; try lia;
    intros b Hb; try discriminate;
    injection Hb as <-; rewrite length_fresh; lia.
Qed.

Lemma grown_in_file (h : chunk) (s : state) :
  in_file (grown E h s) = in_file s.
Proof.
  unfold grown, grow_decompressed, grow_compressed, malloc.
  destruct (chunk_size h >? compressed_bufsize s);
    [destruct (malloc_ok E (mallocs s) (chunk_size h))|]; fields;
    (destruct (chunk_extra h >? _);
     [destruct (malloc_ok E _ (chunk_extra h))|]); reflexivity.
Qed.

Lemma sint_le (x : Z) : 0 <= x < 2 ^ 32 -> Z.max 0 (sint x) <= x.
Proof.
  intros H. unfold sint.
  destruct (Z.lt_ge_cases x (2 ^ 31)).
  - rewrite Z.mod_small by lia. lia.
  - replace (x + 2 ^ 31) with (x - 2 ^ 31 + 1 * 2 ^ 32) by lia.
    rewrite Z.mod_add by lia. rewrite Z.mod_small by lia. lia.
Qed.

(** A compressed chunk: the payload fits the compressed buffer, and what
    the decompressor stores fits the decompressed one. *)
Lemma compressed_chunk_kept (h : chunk) (s : state) :
  within_maxout E ->
  0 <= chunk_size h -> 0 <= chunk_extra h < 2 ^ 32 -> blocks_sized s ->
  blocks_kept s (flow_state (compressed_chunk E h s)).
Proof.
  intros M Hs He H.
  destruct (grown_kept h s Hs ltac:(lia) H) as (G & Gc & Gd).
  apply (blocks_kept_trans _ _ _ G). destruct G as [G _].
  unfold compressed_chunk.
  destruct (compressed_buffer (grown E h s)) as [block|] eqn:CB;
    [|now apply blocks_kept_refl].
  destruct (fread_position (chunk_size h) (in_file (grown E h s)))
    as (_ & _ & L).
  destruct (fread (chunk_size h) (in_file (grown E h s))) as [got stream].
  cbn [fst] in L. fields.
  destruct G as (B & C0 & D0 & C & D).
  pose proof (C block CB) as Lb.
  assert (Lw : Z.of_nat (length (mem_write block got))
               = compressed_bufsize (grown E h s)).
  { rewrite length_mem_write by lia. exact Lb. }
  destruct (negb _).
  { cbn [flow_state]. unfold abandon, blocks_kept, blocks_sized. fields.
    repeat split; auto; try lia. intros b Hb. now injection Hb as <-. }
  pose proof (M (mem_write block got) (sint (chunk_size h))
                (decompressed_buffer (grown E h s)) (sint (chunk_extra h)))
    as W.
  pose proof (sint_le (chunk_extra h) He) as Hx.
  destruct (fastlz_decompress E _ _ _ _) as [result stored].
  cbn [snd] in W. fields.
  assert (Ld : forall b,
             option_map (fun out => mem_write out stored)
               (decompressed_buffer (grown E h s)) = Some b ->
             Z.of_nat (length b) = decompressed_bufsize (grown E h s)).
  { intros b Hb.
    destruct (decompressed_buffer (grown E h s)) as [out|] eqn:DB;
      [|discriminate].
    cbn [option_map] in Hb. injection Hb as <-.
    pose proof (D out eq_refl) as Lo.
    rewrite length_mem_write by lia. exact Lo. }
  destruct (negb _).
  { cbn [flow_state]. unfold abandon, blocks_kept, blocks_sized. fields.
    repeat split; auto; try lia. intros b Hb. now injection Hb as <-. }
  destruct (option_map _ _) as [out|] eqn:DB.
  - cbn [flow_state]. unfold fwrite. fields.
    destruct (f (grown E h s)); unfold blocks_kept, blocks_sized; fields;
      repeat split; auto; try lia;
      intros b Hb; injection Hb as <-; auto.
  - cbn [flow_state]. unfold blocks_kept, blocks_sized. fields.
    repeat split; auto; try lia; intros b Hb;
      first [discriminate | now injection Hb as <-].
Qed.

Lemma data_chunk_kept (h : chunk) (s : state) :
  within_maxout E ->
  0 <= chunk_size h -> 0 <= chunk_extra h < 2 ^ 32 -> blocks_sized s ->
  blocks_kept s (flow_state (data_chunk E h s)).
Proof.
  intros M Hs He H. unfold data_chunk.
  destruct (chunk_options h =? 0); [|destruct (chunk_options h =? 1)].
  - now apply stored_chunk_kept.
  - now apply compressed_chunk_kept.
  - cbn [flow_state]. now apply abandon_kept.
Qed.

Lemma loop_body_kept (s : state) :
  within_maxout E -> blocks_sized s ->
  blocks_kept s (flow_state (loop_body E s)).
Proof.
  intros M H. rewrite loop_body_eq.
  pose proof (next_header_size E s) as Hs.
  pose proof (next_header_extra E s) as He.
  assert (P : blocks_kept s (past_header E s))
    by (apply blocks_same; [reflexivity .. | exact H]).
  apply (and_then_state (blocks_kept s)).
  - destruct (is_entry (next_header E s)) eqn:I; [|exact P].
    apply is_entry_inv in I.
    apply (blocks_kept_trans _ _ _ P).
    apply file_entry_kept; [lia | apply P].
  - intros s1 _ K1. apply (and_then_state (blocks_kept s)).
    + destruct (is_data (next_header E s) s1); [|exact K1].
      apply (blocks_kept_trans _ _ _ K1).
      apply data_chunk_kept; [exact M | lia | lia | apply K1].
    + intros s2 _ K2. cbn [flow_state].
      apply (blocks_kept_trans _ _ _ K2).
      apply blocks_same; [reflexivity .. | apply K2].
Qed.

Lemma initial_state_sized (stream : FILE) (d : disk) :
  blocks_sized (initial_state E stream d).
Proof.
  unfold initial_state, blocks_sized. fields. rewrite length_fresh.
  repeat split; try lia; discriminate.
Qed.

Lemma initial_state_nulls (stream : FILE) (d : disk) :
  nulls_empty (initial_state E stream d).
Proof. unfold initial_state, nulls_empty. fields. auto. Qed.

End BlockFacts.

(** * Buffers that are NULL *)

Section NullFacts.

Variable E : env.

Hypothesis malloc_succeeds : forall n size, malloc_ok E n size = true.

Lemma same_buffers_refl (s : state) : same_buffers s s.
Proof. repeat split. Qed.

Lemma same_buffers_trans (s t u : state) :
  same_buffers s t -> same_buffers t u -> same_buffers s u.
Proof.
  intros (A1 & A2 & A3 & A4) (B1 & B2 & B3 & B4).
  repeat split; congruence.
Qed.

Lemma same_buffers_nulls (s t : state) :
  same_buffers s t -> nulls_empty s -> nulls_empty t.
Proof.
  intros (A1 & A2 & A3 & A4) [N1 N2]. unfold nulls_empty.
  rewrite A1, A2, A3, A4. auto.
Qed.

Lemma fread_buffer_buffers (n : Z) (s : state) :
  same_buffers s (snd (fread_buffer n s)).
Proof.
  destruct (fread_buffer_frame n s) as (_ & _ & _ & F4 & F5 & F6 & F7 & _).
  repeat split; assumption.
Qed.

Lemma fwrite_buffers (ptr : list byte) (n : Z) (s : state) :
  same_buffers s (fwrite ptr n s).
Proof. unfold fwrite. destruct (f s); repeat split. Qed.

Lemma file_entry_buffers (h : chunk) (s : state) :
  same_buffers s (flow_state (file_entry E h s)).
Proof.
  apply (same_buffers_trans _ _ _ (fread_buffer_buffers (chunk_size h) s)).
  unfold file_entry. rewrite fread_buffer_set_output_file. fields.
  destruct (negb _); [repeat split|].
  unfold malloc. fields. destruct (malloc_ok E _ _); fields;
    [|repeat split].
  destruct (fopen_rb E _ _); [repeat split|].
  destruct (creatable E _); repeat split.
Qed.

Lemma stored_loop_buffers (fuel : nat) :
  forall remaining checksum s,
    same_buffers s (snd (stored_loop fuel remaining checksum s)).
Proof.
  induction fuel as [|fuel IH]; intros remaining checksum s.
  { apply same_buffers_refl. }
  cbn [stored_loop].
  set (r := if BLOCK_SIZE <? remaining then BLOCK_SIZE else remaining).
  pose proof (fread_buffer_buffers r s) as K.
  destruct (fread_buffer r s) as [bytes_read s']. cbn [snd] in K.
  destruct (bytes_read =? 0); [exact K|].
  apply (same_buffers_trans _ _ _ K).
  apply (same_buffers_trans _ _ _ (fwrite_buffers (buffer s') bytes_read s')).
  apply IH.
Qed.

Lemma stored_chunk_buffers (h : chunk) (s : state) :
  same_buffers s (flow_state (stored_chunk h s)).
Proof.
  unfold stored_chunk.
  pose proof (stored_loop_buffers (S (Z.to_nat (chunk_size h)))
                (chunk_size h) 1
                (set_total_extracted
                   (ulong (total_extracted s + chunk_size h)) s)) as K.
  destruct (stored_loop _ _ _ _) as [checksum t]. cbn [snd] in K.
  destruct K as (K1 & K2 & K3 & K4). fields.
  destruct (negb _); cbn [flow_state]; unfold abandon; fields;
    repeat split; assumption.
Qed.

(** When [malloc] succeeds, a buffer that has grown is not [NULL]. *)
Lemma grown_nulls (h : chunk) (s : state) :
  nulls_empty s -> nulls_empty (grown E h s).
Proof.
  intros [N1 N2].
  unfold grown, grow_decompressed, grow_compressed, malloc, nulls_empty.
  destruct (chunk_size h >? compressed_bufsize s);
    [rewrite malloc_succeeds|]; fields;
    (destruct (chunk_extra h >? decompressed_bufsize s);
     [rewrite malloc_succeeds|]); fields;
    split; auto; discriminate.
Qed.

Lemma compressed_chunk_nulls (h : chunk) (s : state) :
  nulls_empty s -> nulls_empty (flow_state (compressed_chunk E h s)).
Proof.
  intros N. apply (grown_nulls h) in N. destruct N as [N1 N2].
  unfold compressed_chunk.
  destruct (compressed_buffer (grown E h s)) as [block|] eqn:CB;
    [|cbn [flow_state]; unfold nulls_empty; rewrite CB; auto].
  destruct (fread (chunk_size h) (in_file (grown E h s))) as [got stream].
  fields.
  destruct (negb _).
  { cbn [flow_state]. unfold abandon, nulls_empty. fields.
    split; [discriminate | exact N2]. }
  destruct (fastlz_decompress E _ _ _ _) as [result stored]. fields.
  assert (D : option_map (fun out => mem_write out stored)
                (decompressed_buffer (grown E h s)) = None ->
              decompressed_bufsize (grown E h s) = 0).
  { destruct (decompressed_buffer (grown E h s)); [discriminate | exact N2]. }
  destruct (negb _).
  { cbn [flow_state]. unfold abandon, nulls_empty. fields.
    split; [discriminate | exact D]. }
  destruct (option_map _ _) as [out|] eqn:DB.
  - cbn [flow_state]. unfold fwrite. fields.
    destruct (f (grown E h s)); unfold nulls_empty; fields;
      split; discriminate.
  - cbn [flow_state]. unfold nulls_empty. fields.
    split; [discriminate | exact D].
Qed.

Lemma loop_body_nulls (s : state) :
  nulls_empty s -> nulls_empty (flow_state (loop_body E s)).
Proof.
  intros N. rewrite loop_body_eq.
  assert (P : nulls_empty (past_header E s)) by exact N.
  apply (and_then_state nulls_empty).
  - destruct (is_entry (next_header E s)); [|exact P].
    exact (same_buffers_nulls _ _ (file_entry_buffers _ _) P).
  - intros s1 _ N1. apply (and_then_state nulls_empty).
    + destruct (is_data (next_header E s) s1); [|exact N1].
      unfold data_chunk.
      destruct (chunk_options (next_header E s) =? 0);
        [|destruct (chunk_options (next_header E s) =? 1)].
      * exact (same_buffers_nulls _ _ (stored_chunk_buffers _ _) N1).
      * now apply compressed_chunk_nulls.
      * exact N1.
    + intros s2 _ N2. exact N2.
Qed.

End NullFacts.

(** X11.  As long as no [malloc] fails and the decompressor keeps to
    [maxout], no pass of the main loop writes past the end of a block.
    When the window has [BLOCK_SIZE] bytes, each buffer that is not [NULL]
    has as many bytes as its [bufsize] and a buffer is [NULL] only while its
    [bufsize] is 0, as it is when the loop is entered, the same holds when
    the pass ends, however it ends, and the two [bufsize] have not
    decreased.  (A write past the end of a block would make the block
    longer: every [fread] into the window asks for at most [BLOCK_SIZE]
    bytes.)  And when the chunk is a compressed one, the two destinations
    have room for what lines 451 and 471 may store, [NULL] having room for
    nothing: the compressed buffer for [chunk_size] bytes, the decompressed
    buffer for [maxout] bytes.  With a [malloc] that fails this is lost: the
    decompressor may be handed [NULL] and a positive [maxout]. *)
Theorem blocks_are_never_overrun (E : env) (s : state) :
  let h := next_header E s in
  let g := grown E h (past_header E s) in
  let t := flow_state (loop_body E s) in
  within_maxout E ->
  (forall n size, malloc_ok E n size = true) ->
  blocks_sized s ->
  nulls_empty s ->
  (blocks_sized t /\ nulls_empty t)
  /\ compressed_bufsize s <= compressed_bufsize t
  /\ decompressed_bufsize s <= decompressed_bufsize t
  /\ (is_data h s = true -> chunk_options h = 1 ->
      chunk_size h <= room (compressed_buffer g)
      /\ Z.max 0 (sint (chunk_extra h)) <= room (decompressed_buffer g)).
Proof.
  intros h g t M A B N.
  destruct (loop_body_kept E s M B) as (B' & C & D).
  split; [split; [exact B' | exact (loop_body_nulls E A s N)]|].
  split; [exact C|]. split; [exact D|].
  intros _ _.
  pose proof (next_header_size E s) as Hs.
  pose proof (next_header_extra E s) as He. fold h in Hs, He.
  assert (Bp : blocks_sized (past_header E s))
    by (apply (blocks_same s); [reflexivity .. | exact B]).
  destruct (grown_kept E h (past_header E s) ltac:(lia) ltac:(lia) Bp)
    as ((G & _) & Gc & Gd).
  destruct (grown_nulls E A h (past_header E s) N) as [N1 N2].
  fold g in G, Gc, Gd, N1, N2.
  destruct G as (_ & _ & _ & G1 & G2).
  pose proof (sint_le (chunk_extra h) He) as Hx.
  unfold room. split.
  - destruct (compressed_buffer g) as [b|]; [rewrite (G1 b eq_refl)|];
      [exact Gc | rewrite <- (N1 eq_refl); exact Gc].
  - destruct (decompressed_buffer g) as [b|];
      [rewrite (G2 b eq_refl) | rewrite <- (N2 eq_refl)]; lia.
Qed.

Lemma copy_decompress_within_maxout : within_maxout Sample.plain.
Proof.
  intros input n out maxout. cbn [fastlz_decompress Sample.plain].
  unfold Sample.copy_decompress.
  destruct (Z.leb_spec n maxout); cbn [snd length]; [|lia].
  rewrite length_firstn. lia.
Qed.

Lemma blocks_are_never_overrun_witness :
  let E := Sample.plain in
  let s := Sample.after E (Sample.start E Sample.compressed_archive) in
  let h := next_header E s in
  let g := grown E h (past_header E s) in
  let t := flow_state (loop_body E s) in
  (within_maxout E /\ (forall n size, malloc_ok E n size = true)
   /\ blocks_sized s /\ nulls_empty s
   /\ is_data h s = true /\ chunk_options h = 1
   /\ chunk_size h = 5 /\ sint (chunk_extra h) = 5)
  /\ (blocks_sized t /\ nulls_empty t)
  /\ 5 <= room (compressed_buffer g)
  /\ Z.max 0 5 <= room (decompressed_buffer g).
Proof.
  intros E s h g t.
  assert (H1 : within_maxout E) by exact copy_decompress_within_maxout.
  assert (H2 : forall n size, malloc_ok E n size = true) by reflexivity.
  assert (H3 : blocks_sized s).
  { repeat split; try (vm_compute; reflexivity || discriminate);
      intros b Hb; vm_compute in Hb; discriminate. }
  assert (H4 : nulls_empty s) by (split; intros _; vm_compute; reflexivity).
  assert (H5 : is_data h s = true) by (vm_compute; reflexivity).
  assert (H6 : chunk_options h = 1) by (vm_compute; reflexivity).
  assert (H7 : chunk_size h = 5) by (vm_compute; reflexivity).
  assert (H8 : sint (chunk_extra h) = 5) by (vm_compute; reflexivity).
  split; [repeat split; assumption || apply H3 || apply H4|].
  destruct (blocks_are_never_overrun E s H1 H2 H3 H4)
    as (I & _ & _ & R).
  split; [exact I|].
  destruct (R H5 H6) as [R1 R2]. fold h g in R1, R2.
  rewrite H7 in R1. rewrite H8 in R2. split; assumption.
Defined.

(** * Compressed chunks *)

(** The checksum line 452 computes over a payload that is whole in the
    stream and fits the compressed buffer and an [int]. *)
Lemma compressed_payload_checksum (E : env) (s : state) (cb : list byte) :
  chunk_complete E s ->
  chunk_size (next_header E s) <= Z.of_nat (length cb) ->
  chunk_size (next_header E s) <= INT_MAX ->
  Adler.update_adler32 1 (mem_write cb (payload E s))
    (sint (chunk_size (next_header E s)))
  = Adler.rfc_adler32 (payload E s).
Proof.
  intros Hc Hcb Hmax.
  pose proof (next_header_size E s) as Hsz.
  destruct (entry_window_payload E s Hc) as [_ Lp].
  unfold INT_MAX in *. unfold byte in *.
  rewrite sint_small by lia.
  rewrite update_adler32_firstn.
  - unfold mem_write. rewrite <- Lp, firstn_length_app.
    assert (LpZ : Z.of_nat (length (payload E s))
                  = chunk_size (next_header E s))
      by (unfold byte in *; lia).
    rewrite <- LpZ.
    rewrite update_adler32_from_1;
      [reflexivity | unfold INT_MAX, byte in *; lia].
  - unfold INT_MAX. lia.
  - rewrite length_mem_write by (unfold byte in *; lia). exact Hcb.
Qed.

Lemma fread_obtains (n : Z) (stream : FILE) :
  fst (fread n stream)
  = firstn (Z.to_nat n)
      (skipn (Z.to_nat (fpos stream)) (contents stream)).
Proof. reflexivity. Qed.

(** A compressed chunk that passes both checks, from what [fread]
    obtains and what the decompressor returns and stores. *)
Lemma compressed_chunk_accepts
  (E : env) (h : chunk) (s : state) (p : path) (cb ob : list byte) :
  let got := fst (fread (chunk_size h) (in_file (grown E h s))) in
  let run :=
    fastlz_decompress E (mem_write cb got) (sint (chunk_size h))
      (Some ob) (sint (chunk_extra h)) in
  f s = Some p ->
  compressed_buffer (grown E h s) = Some cb ->
  decompressed_buffer (grown E h s) = Some ob ->
  Adler.update_adler32 1 (mem_write cb got) (sint (chunk_size h))
  = chunk_checksum h ->
  ulong (sint (fst run)) = chunk_extra h ->
  exists s',
    compressed_chunk E h s = Continue s'
    /\ files s'
       = disk_append p
           (mem_read (mem_write ob (snd run)) 0 (Z.to_nat (chunk_extra h)))
           (files s)
    /\ f s' = Some p
    /\ output_file s' = output_file s.
Proof.
  intros got run Hf Hcb Hob Hck Hres. subst got run.
  destruct (grown_session E h s) as (G1 & G2 & G3 & _).
  unfold compressed_chunk. rewrite Hcb.
  destruct (fread (chunk_size h) (in_file (grown E h s))) as [got stream].
  cbn [fst] in Hck, Hres. fields.
  rewrite Hck, Z.eqb_refl. cbn [negb]. rewrite Hob.
  destruct (fastlz_decompress E _ _ _ _) as [result stored].
  cbn [fst snd] in Hres |- *. fields.
  rewrite Hres, Z.eqb_refl. cbn [negb option_map].
  rewrite (fwrite_open p) by (fields; congruence).
  eexists. split; [reflexivity|]. fields.
  rewrite G1, G2, G3. repeat split. exact Hf.
Qed.

(** X12.  A compressed chunk (id 17, options 1) of an open session that is
    whole in the stream, whose sizes fit an [int], with both buffers
    allocated: the decompressor is given the payload, at the start of the
    compressed buffer, and the two sizes of the header.  When the Adler-32
    of the payload is the checksum of the header and the decompressor
    returns [chunk_extra], the pass appends the first [chunk_extra] bytes of
    the decompressed buffer to the open file, which are the bytes the
    decompressor stored when it stored that many; it touches no other file
    and keeps the file open. *)
Theorem compressed_chunk_is_decompressed
  (E : env) (s : state) (p : path) (old cb ob : list byte) :
  let h := next_header E s in
  let g := grown E h (past_header E s) in
  let run :=
    fastlz_decompress E (mem_write cb (payload E s)) (chunk_size h)
      (Some ob) (chunk_extra h) in
  chunk_id h = 17 ->
  chunk_options h = 1 ->
  f s = Some p ->
  output_file s <> None ->
  decompressed_size s <> 0 ->
  chunk_complete E s ->
  blocks_sized s ->
  compressed_buffer g = Some cb ->
  decompressed_buffer g = Some ob ->
  chunk_size h <= INT_MAX ->
  chunk_extra h <= INT_MAX ->
  Adler.rfc_adler32 (payload E s) = chunk_checksum h ->
  fst run = chunk_extra h ->
  disk_lookup p (files s) = Some old ->
  exists s',
    loop_body E s = Continue s'
    /\ disk_lookup p (files s')
       = Some (old ++ mem_read (mem_write ob (snd run)) 0
                        (Z.to_nat (chunk_extra h)))
    /\ (Z.of_nat (length (snd run)) = chunk_extra h ->
        disk_lookup p (files s') = Some (old ++ snd run))
    /\ (forall q, q <> p ->
                  disk_lookup q (files s') = disk_lookup q (files s))
    /\ f s' = Some p
    /\ output_file s' = output_file s.
Proof.
  intros h g run Hid Hopt Hf Ho Hd Hc Hb Hcb Hob Hmax Hmax' Hck Hres Hold.
  subst h g run.
  pose proof (next_header_size E s) as Hsz.
  pose proof (next_header_extra E s) as Hex.
  destruct (past_header_position E s Hc) as [P1 P2]. unfold ftell in P1.
  assert (Hb' : blocks_sized (past_header E s))
    by (apply (blocks_same s); [reflexivity .. | exact Hb]).
  destruct (grown_kept E (next_header E s) (past_header E s)
              ltac:(lia) ltac:(lia) Hb') as ((G & _) & Gc & _).
  destruct G as (_ & _ & _ & C & _). pose proof (C cb Hcb) as Lcb.
  pose proof (grown_in_file E (next_header E s) (past_header E s)) as GI.
  assert (Pay : payload E s
                = firstn (Z.to_nat (chunk_size (next_header E s)))
                    (skipn (Z.to_nat (fpos (in_file s) + 16))
                       (contents (in_file s)))) by reflexivity.
  pose proof (compressed_payload_checksum E s cb Hc ltac:(lia) Hmax) as CK.
  pose proof (compressed_chunk_accepts E (next_header E s) (past_header E s)
                p cb ob) as A.
  cbv zeta in A. rewrite fread_obtains, GI, P1, P2, <- Pay in A.
  unfold INT_MAX in Hmax, Hmax'.
  rewrite (sint_small (chunk_extra (next_header E s))) in A by lia.
  rewrite CK, Hck in A.
  rewrite (sint_small (chunk_size (next_header E s))) in A by lia.
  rewrite Hres in A. rewrite sint_small, ulong_small in A by lia.
  destruct (A Hf Hcb Hob eq_refl eq_refl) as (s' & R & F1 & F2 & F3).
  change (files (past_header E s)) with (files s) in F1.
  change (output_file (past_header E s)) with (output_file s) in F3.
  rewrite loop_body_data by (assumption || congruence).
  unfold data_chunk. rewrite Hopt.
  change (1 =? 0) with false. change (1 =? 1) with true. cbv iota.
  rewrite R. cbn [and_then]. eexists. split; [reflexivity|].
  unfold next_chunk. fields. rewrite F1.
  match goal with
  | |- context [disk_append p ?w (files s)] =>
      destruct (appended_disk_append p w (files s)) as [A1 A2]
  end.
  split; [now apply A1|]. split.
  { rewrite (A1 old Hold).
    match goal with
    | |- context [mem_write ob ?st] => generalize st
    end.
    intros stored Hl. do 2 f_equal.
    rewrite <- Hl, Nat2Z.id. unfold mem_write. apply mem_read_written. }
  split; [exact A2|]. split; [exact F2 | exact F3].
Qed.

Lemma compressed_chunk_is_decompressed_witness :
  let E := Sample.plain in
  let s := Sample.after E (Sample.start E Sample.compressed_archive) in
  let h := next_header E s in
  let zeros := [x00; x00; x00; x00; x00] in
  (chunk_id h = 17 /\ chunk_options h = 1 /\ f s = Some Sample.hello_txt
   /\ chunk_size h = 5 /\ chunk_extra h = 5
   /\ payload E s = Sample.world
   /\ compressed_buffer (grown E h (past_header E s)) = Some zeros
   /\ decompressed_buffer (grown E h (past_header E s)) = Some zeros
   /\ disk_lookup Sample.hello_txt (files s) = Some [])
  /\ exists s',
      loop_body E s = Continue s'
      /\ disk_lookup Sample.hello_txt (files s') = Some ([] ++ Sample.world)
      /\ f s' = Some Sample.hello_txt.
Proof.
  intros E s h zeros.
  assert (H1 : chunk_id h = 17) by (vm_compute; reflexivity).
  assert (H2 : chunk_options h = 1) by (vm_compute; reflexivity).
  assert (H3 : f s = Some Sample.hello_txt) by (vm_compute; reflexivity).
  assert (H4 : output_file s <> None) by (vm_compute; discriminate).
  assert (H5 : decompressed_size s <> 0) by (vm_compute; discriminate).
  assert (H6 : chunk_complete E s) by (split; vm_compute; discriminate).
  assert (H7 : blocks_sized s).
  { repeat split; try (vm_compute; reflexivity || discriminate);
      intros b Hb; vm_compute in Hb; discriminate. }
  assert (H8 : compressed_buffer (grown E h (past_header E s)) = Some zeros)
    by (vm_compute; reflexivity).
  assert (H9 : decompressed_buffer (grown E h (past_header E s)) = Some zeros)
    by (vm_compute; reflexivity).
  assert (H10 : chunk_size h <= INT_MAX) by (vm_compute; discriminate).
  assert (H11 : chunk_extra h <= INT_MAX) by (vm_compute; discriminate).
  assert (H12 : Adler.rfc_adler32 (payload E s) = chunk_checksum h)
    by (vm_compute; reflexivity).
  assert (H13 : fst (fastlz_decompress E (mem_write zeros (payload E s))
                       (chunk_size h) (Some zeros) (chunk_extra h))
                = chunk_extra h) by (vm_compute; reflexivity).
  assert (H14 : disk_lookup Sample.hello_txt (files s) = Some [])
    by (vm_compute; reflexivity).
  split.
  { repeat split; try assumption; vm_compute; reflexivity. }
  destruct (compressed_chunk_is_decompressed E s Sample.hello_txt [] zeros
              zeros H1 H2 H3 H4 H5 H6 H7 H8 H9 H10 H11 H12 H13 H14)
    as (s' & L & _ & W & _ & F & _).
  exists s'. split; [exact L|]. split; [|exact F].
  rewrite (W ltac:(vm_compute; reflexivity)).
  vm_compute. reflexivity.
Defined.

(** * Entries that are not extracted *)

Lemma entry_malloc_size (E : env) (s : state) :
  let h := next_header E s in
  let name := entry_name (entry_window E s) (chunk_size h) in
  10 < chunk_size h < BLOCK_SIZE ->
  ulong (sint (entry_name_length (entry_window E s) (chunk_size h) + 1))
  = Z.of_nat (length name) + 1.
Proof.
  intros h name Hsize.
  pose proof (entry_name_length_min (entry_window E s) (chunk_size h) Hsize)
    as N.
  unfold name, entry_name. rewrite length_mem_read, N.
  pose proof (b2z_range (peek (entry_window E s) 8)).
  pose proof (b2z_range (peek (entry_window E s) 9)).
  unfold BLOCK_SIZE in Hsize.
  rewrite sint_small by lia. rewrite ulong_small by lia. lia.
Qed.

(** X13.  An accepted file entry (id 1, size between 10 and [BLOCK_SIZE],
    checksum passed, name allocated) is skipped when [fopen(name, "rb")]
    succeeds (line 323: the file exists and may be read) or when
    [fopen(name, "wb")] fails (line 334): the pass goes on to the next chunk
    with no file open and no name, it leaves the disk as it was, and no
    chunk is a data chunk for the state it ends in, so that the data chunks
    that follow are passed over until the next file entry. *)
Theorem unwritable_entry_is_skipped (E : env) (s : state) :
  let h := next_header E s in
  let name := entry_name (entry_window E s) (chunk_size h) in
  chunk_id h = 1 ->
  10 < chunk_size h < BLOCK_SIZE ->
  entry_checksum E s = chunk_checksum h ->
  malloc_ok E (mallocs s) (Z.of_nat (length name) + 1) = true ->
  fopen_rb E (cstring (name ++ [x00])) (files s) <> None
  \/ creatable E (cstring (name ++ [x00])) = false ->
  exists s',
    loop_body E s = Continue s'
    /\ f s' = None
    /\ output_file s' = None
    /\ files s' = files s
    /\ forall h', is_data h' s' = false.
Proof.
  intros h name Hid Hsize Hck Hm Hskip.
  pose proof (entry_malloc_size E s Hsize) as M.
  pose proof (loop_body_entry_accepts E s Hid Hsize Hck) as A.
  fold h name in A, M. cbv zeta in A. rewrite M, Hm in A.
  destruct A as (s1 & A & _ & D). eexists. split; [exact A|].
  unfold next_chunk. fields.
  destruct D as [(D1 & D2 & _) | (_ & D2 & D3 & D4)].
  - destruct Hskip; congruence.
  - repeat split; try assumption.
    intros h'. unfold is_data. fields. rewrite D3. cbn [is_set].
    now rewrite andb_false_r.
Qed.

Lemma unwritable_entry_is_skipped_witness :
  let E := Sample.plain in
  let s := initial_state E (mkFILE Sample.hello_archive 0)
             (Sample.occupied_disk Sample.hello_archive) in
  let h := next_header E s in
  let name := entry_name (entry_window E s) (chunk_size h) in
  (chunk_id h = 1 /\ chunk_size h = 19
   /\ cstring (name ++ [x00]) = Sample.hello_txt
   /\ fopen_rb E Sample.hello_txt (files s) = Some [x21])
  /\ exists s',
      loop_body E s = Continue s'
      /\ f s' = None
      /\ output_file s' = None
      /\ files s' = files s
      /\ forall h', is_data h' s' = false.
Proof.
  intros E s h name.
  assert (H1 : chunk_id h = 1) by (vm_compute; reflexivity).
  assert (H2 : 10 < chunk_size h < BLOCK_SIZE)
    by (split; vm_compute; reflexivity).
  assert (H3 : entry_checksum E s = chunk_checksum h)
    by (vm_compute; reflexivity).
  assert (H4 : malloc_ok E (mallocs s) (Z.of_nat (length name) + 1) = true)
    by reflexivity.
  assert (H5 : fopen_rb E (cstring (name ++ [x00])) (files s) <> None
               \/ creatable E (cstring (name ++ [x00])) = false)
    by (left; vm_compute; discriminate).
  split.
  { repeat split; vm_compute; reflexivity. }
  exact (unwritable_entry_is_skipped E s H1 H2 H3 H4 H5).
Defined.

(** X14.  An accepted file entry whose file exists but may not be read,
    while it may be written, is not skipped: [fopen(name, "rb")] fails at
    line 323 as it does for a file that does not exist, [fopen(name, "wb")]
    at line 334 truncates the file, and the pass goes on with the file
    open and empty.  No other file changes. *)
Theorem unreadable_file_is_truncated
  (E : env) (s : state) (v : list byte) :
  let h := next_header E s in
  let name := entry_name (entry_window E s) (chunk_size h) in
  let p := cstring (name ++ [x00]) in
  chunk_id h = 1 ->
  10 < chunk_size h < BLOCK_SIZE ->
  entry_checksum E s = chunk_checksum h ->
  malloc_ok E (mallocs s) (Z.of_nat (length name) + 1) = true ->
  disk_lookup p (files s) = Some v ->
  readable E p = false ->
  creatable E p = true ->
  exists s',
    loop_body E s = Continue s'
    /\ f s' = Some p
    /\ output_file s' = Some (name ++ [x00])
    /\ disk_lookup p (files s') = Some []
    /\ forall q, q <> p -> disk_lookup q (files s') = disk_lookup q (files s).
Proof.
  intros h name p Hid Hsize Hck Hm Hv Hr Hc.
  pose proof (entry_malloc_size E s Hsize) as M.
  pose proof (loop_body_entry_accepts E s Hid Hsize Hck) as A.
  fold h name in A, M. cbv zeta in A. rewrite M, Hm in A. fold p in A.
  destruct A as (s1 & A & _ & D). eexists. split; [exact A|].
  unfold next_chunk. fields.
  destruct D as [(_ & _ & D2 & D3 & D4) | ([D1|D1] & _)].
  - rewrite D4. repeat split; try assumption.
    + rewrite disk_lookup_store, path_eqb_refl. reflexivity.
    + intros q Hq. rewrite disk_lookup_store, path_eqb_neq by exact Hq.
      reflexivity.
  - unfold fopen_rb in D1. rewrite Hr in D1. now destruct D1.
  - congruence.
Qed.

Lemma unreadable_file_is_truncated_witness :
  let E := Sample.write_only in
  let s := initial_state E (mkFILE Sample.hello_archive 0)
             (Sample.occupied_disk Sample.hello_archive) in
  let h := next_header E s in
  let name := entry_name (entry_window E s) (chunk_size h) in
  (chunk_id h = 1 /\ chunk_size h = 19
   /\ cstring (name ++ [x00]) = Sample.hello_txt
   /\ disk_lookup Sample.hello_txt (files s) = Some [x21]
   /\ readable E Sample.hello_txt = false
   /\ creatable E Sample.hello_txt = true)
  /\ exists s',
      loop_body E s = Continue s'
      /\ f s' = Some (cstring (name ++ [x00]))
      /\ disk_lookup (cstring (name ++ [x00])) (files s') = Some [].
Proof.
  intros E s h name.
  assert (H1 : chunk_id h = 1) by (vm_compute; reflexivity).
  assert (H2 : 10 < chunk_size h < BLOCK_SIZE)
    by (split; vm_compute; reflexivity).
  assert (H3 : entry_checksum E s = chunk_checksum h)
    by (vm_compute; reflexivity).
  assert (H4 : malloc_ok E (mallocs s) (Z.of_nat (length name) + 1) = true)
    by reflexivity.
  assert (H5 : disk_lookup (cstring (name ++ [x00])) (files s) = Some [x21])
    by (vm_compute; reflexivity).
  assert (H6 : readable E (cstring (name ++ [x00])) = false)
    by (vm_compute; reflexivity).
  assert (H7 : creatable E (cstring (name ++ [x00])) = true)
    by reflexivity.
  split.
  { repeat split; vm_compute; reflexivity. }
  destruct (unreadable_file_is_truncated E s [x21] H1 H2 H3 H4 H5 H6 H7)
    as (s' & L & F & _ & W & _).
  exists s'. auto.
Defined.

(** The whole run on such a disk: hello.txt, which held "!", is
    overwritten. *)
Example unreadable_file_is_overwritten :
  unpack_file Sample.write_only Sample.a_6pk
    (Sample.occupied_disk Sample.hello_archive)
  = Some (Exited 0 [(Sample.a_6pk, Sample.hello_archive);
                    (Sample.hello_txt, Sample.world)]).
Proof. vm_compute. reflexivity. Qed.

(** * Reaching the next chunk *)

Section StrideFacts.

Variable E : env.

Lemma is_data_inv (h : chunk) (s : state) :
  is_data h s = true ->
  chunk_id h = 17 /\ f s <> None /\ output_file s <> None
  /\ decompressed_size s <> 0.
Proof.
  unfold is_data. rewrite !andb_true_iff, negb_true_iff.
  intros [[[H1 H2] H3] H4].
  apply Z.eqb_eq in H1. apply Z.eqb_neq in H4.
  destruct (f s); [|discriminate].
  destruct (output_file s); [|discriminate].
  repeat split; congruence.
Qed.

Lemma is_data_set_in_file (h : chunk) (stream : FILE) (s : state) :
  is_data h (set_in_file stream s) = is_data h s.
Proof. reflexivity. Qed.

Lemma is_data_past_header (h : chunk) (s : state) :
  is_data h (past_header E s) = is_data h s.
Proof. unfold past_header. apply is_data_set_in_file. Qed.

(** A pass over a chunk that is neither a file entry nor data. *)
Lemma loop_body_skips (s : state) :
  is_entry (next_header E s) = false ->
  is_data (next_header E s) s = false ->
  exists s', loop_body E s = Continue s'.
Proof.
  intros He Hd. rewrite loop_body_eq, He. cbn [and_then].
  rewrite is_data_past_header, Hd. cbn [and_then]. eauto.
Qed.

(** A compressed chunk with its two buffers reaches the end of its case,
    whatever its checks give. *)
Lemma compressed_chunk_goes_on (h : chunk) (s : state) :
  compressed_buffer (grown E h s) <> None ->
  decompressed_buffer (grown E h s) <> None ->
  exists s', compressed_chunk E h s = Continue s'.
Proof.
  intros Hc Hd. unfold compressed_chunk.
  destruct (compressed_buffer (grown E h s)) as [block|]; [|contradiction].
  destruct (fread (chunk_size h) (in_file (grown E h s))) as [got stream].
  fields. destruct (negb _); [eauto|].
  destruct (fastlz_decompress E _ _ _ _) as [result stored]. fields.
  destruct (negb _); [eauto|].
  destruct (decompressed_buffer (grown E h s)) as [out|]; [|contradiction].
  cbn [option_map]. eauto.
Qed.

(** A pass over a data chunk of an open session. *)
Lemma loop_body_data_goes_on (s : state) :
  is_data (next_header E s) s = true ->
  chunk_options (next_header E s) <> 1
  \/ (compressed_buffer (grown E (next_header E s) (past_header E s))
      <> None
      /\ decompressed_buffer (grown E (next_header E s) (past_header E s))
         <> None) ->
  exists s', loop_body E s = Continue s'.
Proof.
  intros Hd Hb. destruct (is_data_inv _ _ Hd) as (Hid & Hf & Ho & Hs).
  rewrite loop_body_data by assumption. unfold data_chunk.
  destruct (f s) as [p|] eqn:F; [|contradiction].
  destruct (Z.eqb_spec (chunk_options (next_header E s)) 0) as [O0|O0];
    [|destruct (Z.eqb_spec (chunk_options (next_header E s)) 1) as [O1|O1]].
  - destruct (stored_chunk_continue (next_header E s) (past_header E s) p F)
      as (s' & R & _).
    rewrite R. cbn [and_then]. eauto.
  - destruct Hb as [Hb | [Hc Hb]]; [contradiction|].
    destruct (compressed_chunk_goes_on _ _ Hc Hb) as [s' R].
    rewrite R. cbn [and_then]. eauto.
  - cbn [and_then]. eauto.
Qed.

(** A pass over a file entry whose checksum passes and whose name is
    allocated. *)
Lemma loop_body_entry_goes_on (s : state) :
  is_entry (next_header E s) = true ->
  entry_checksum E s = chunk_checksum (next_header E s) ->
  malloc_ok E (mallocs s)
    (Z.of_nat (length (entry_name (entry_window E s)
                         (chunk_size (next_header E s)))) + 1) = true ->
  exists s', loop_body E s = Continue s'.
Proof.
  intros He Hck Hm. destruct (is_entry_inv _ He) as [Hid Hsize].
  pose proof (entry_malloc_size E s Hsize) as M.
  pose proof (loop_body_entry_accepts E s Hid Hsize Hck) as A.
  cbv zeta in A, M. rewrite M, Hm in A.
  destruct A as (s1 & A & _). eauto.
Qed.

End StrideFacts.

Lemma none_or_not {A : Type} (o : option A) : o = None \/ o <> None.
Proof. destruct o; [right; discriminate | now left]. Qed.

(** C3.  A pass of the loop that read its header at [pos] reaches the
    bottom of the loop, and leaves the stream at [pos + 16 + size], in each
    of these cases: the chunk is neither a file entry nor data for an open
    file and is skipped; it is data for an open file, stored or with
    unknown options, whether its checksum passes or fails; it is a
    compressed chunk whose two buffers are not [NULL], whether its checksum
    and its length pass or fail; it is a file entry whose checksum passes
    and whose name is allocated.  A pass that does not reach the bottom of
    the loop is the last one: it returns, and then the value is -1 and the
    chunk is a file entry with a wrong checksum; or it calls [abort()], and
    then the chunk is a file entry whose name could not be allocated or a
    compressed chunk with a buffer that is [NULL].  So the position grows
    by 16 or more in every pass that is followed by another, and the loop
    ends after at most [fsize - pos] passes.  The position is a [long]: the
    archive has fewer than 2^62 bytes. *)
Theorem chunk_stride (E : env) (fsize : Z) (s : state) :
  let h := next_header E s in
  let pos := ftell (in_file s) in
  let g := grown E h (past_header E s) in
  let next :=
    exists s',
      loop_body E s = Continue s'
      /\ ftell (in_file s') = pos + 16 + chunk_size h
      /\ pos + 16 <= ftell (in_file s') in
  0 <= pos < fsize ->
  fsize <= 2 ^ 62 ->
  (forall s',
      loop_body E s = Continue s' ->
      ftell (in_file s') = pos + 16 + chunk_size h
      /\ pos + 16 <= ftell (in_file s'))
  /\ (is_entry h = false -> is_data h s = false -> next)
  /\ (is_data h s = true -> chunk_options h <> 1 -> next)
  /\ (is_data h s = true -> chunk_options h = 1 ->
      compressed_buffer g <> None -> decompressed_buffer g <> None -> next)
  /\ (is_entry h = true ->
      entry_checksum E s = chunk_checksum h ->
      malloc_ok E (mallocs s)
        (Z.of_nat (length (entry_name (entry_window E s) (chunk_size h)))
         + 1) = true ->
      next)
  /\ (forall code s',
         loop_body E s = Return code s' ->
         code = -1 /\ is_entry h = true
         /\ entry_checksum E s <> chunk_checksum h)
  /\ (forall s',
         loop_body E s = Abort s' ->
         (is_entry h = true
          /\ malloc_ok E (mallocs s)
               (Z.of_nat (length (entry_name (entry_window E s)
                                    (chunk_size h))) + 1) = false)
         \/ (is_data h s = true /\ chunk_options h = 1
             /\ (compressed_buffer g = None
                 \/ decompressed_buffer g = None)))
  /\ (forall fuel,
         fsize - pos <= Z.of_nat fuel ->
         exists r, main_loop E (S fuel) fsize s = Some r).
Proof.
  intros h pos g next Hpos Hsize.
  assert (Stride : forall s',
             loop_body E s = Continue s' ->
             ftell (in_file s') = pos + 16 + chunk_size h
             /\ pos + 16 <= ftell (in_file s')).
  { intros s' L.
    pose proof (loop_body_position E s s' ltac:(lia) ltac:(lia) L) as P.
    pose proof (next_header_size E s) as Hs. fold h pos in P, Hs. lia. }
  assert (Next : (exists s', loop_body E s = Continue s') -> next).
  { intros [s' L]. exists s'. split; [exact L | exact (Stride s' L)]. }
  assert (Skip : is_entry h = false -> is_data h s = false -> next).
  { intros He Hd. apply Next. now apply loop_body_skips. }
  assert (Data : is_data h s = true -> chunk_options h <> 1 -> next).
  { intros Hd Ho. apply Next. apply loop_body_data_goes_on; auto. }
  assert (Comp : is_data h s = true -> chunk_options h = 1 ->
                 compressed_buffer g <> None ->
                 decompressed_buffer g <> None -> next).
  { intros Hd Ho Hc Hb. apply Next. apply loop_body_data_goes_on; auto. }
  assert (Entry : is_entry h = true ->
                  entry_checksum E s = chunk_checksum h ->
                  malloc_ok E (mallocs s)
                    (Z.of_nat (length (entry_name (entry_window E s)
                                         (chunk_size h))) + 1) = true ->
                  next).
  { intros He Hck Hm. apply Next. now apply loop_body_entry_goes_on. }
  split; [exact Stride|]. split; [exact Skip|]. split; [exact Data|].
  split; [exact Comp|]. split; [exact Entry|].
  split; [|split].
  - intros code s' R. split; [exact (loop_body_code E s code s' R)|].
    destruct (sumbool_of_bool (is_entry h)) as [He|He].
    + split; [exact He|]. intros Hck.
      destruct (sumbool_of_bool
                  (malloc_ok E (mallocs s)
                     (Z.of_nat (length (entry_name (entry_window E s)
                                          (chunk_size h))) + 1)))
        as [Hm|Hm].
      * destruct (Entry He Hck Hm) as (t & L & _). congruence.
      * destruct (is_entry_inv _ He) as [Hid Hsz].
        pose proof (entry_malloc_size E s Hsz) as M.
        pose proof (loop_body_entry_accepts E s Hid Hsz Hck) as A.
        cbv zeta in A, M. fold h in A, M. rewrite M, Hm in A.
        destruct A as (t & A & _). congruence.
    + exfalso. destruct (sumbool_of_bool (is_data h s)) as [Hd|Hd].
      * rewrite loop_body_eq in R. fold h in R. rewrite He in R.
        cbn [and_then] in R.
        apply and_then_return in R as [R | (s2 & _ & R)]; [|discriminate].
        rewrite is_data_past_header, Hd in R.
        exact (data_chunk_code E _ _ _ _ R).
      * destruct (Skip He Hd) as (t & L & _). congruence.
  - intros s' R. destruct (sumbool_of_bool (is_entry h)) as [He|He].
    + left. split; [exact He|].
      destruct (is_entry_inv _ He) as [Hid Hsz].
      destruct (Z.eq_dec (entry_checksum E s) (chunk_checksum h))
        as [Hck|Hck].
      * destruct (sumbool_of_bool
                    (malloc_ok E (mallocs s)
                       (Z.of_nat (length (entry_name (entry_window E s)
                                            (chunk_size h))) + 1)))
          as [Hm|Hm]; [|exact Hm].
        destruct (Entry He Hck Hm) as (t & L & _). congruence.
      * rewrite (loop_body_entry_mismatch E s Hid Hsz Hck) in R.
        discriminate.
    + right. destruct (sumbool_of_bool (is_data h s)) as [Hd|Hd].
      * split; [exact Hd|].
        destruct (Z.eq_dec (chunk_options h) 1) as [Ho|Ho].
        -- split; [exact Ho|].
           destruct (none_or_not (compressed_buffer g)) as [Hc|Hc];
             [now left|].
           destruct (none_or_not (decompressed_buffer g)) as [Hb|Hb];
             [now right|].
           destruct (Comp Hd Ho Hc Hb) as (t & L & _). congruence.
        -- destruct (Data Hd Ho) as (t & L & _). congruence.
      * destruct (Skip He Hd) as (t & L & _). congruence.
  - intros fuel Hf. apply main_loop_terminates; fold pos; lia.
Qed.

Lemma chunk_stride_witness :
  let E := Sample.plain in
  let skipped :=
    Sample.after E
      (initial_state E (mkFILE Sample.hello_archive 0)
         (Sample.occupied_disk Sample.hello_archive)) in
  let failed := Sample.after E (Sample.start E Sample.bad_stored_archive) in
  let passed := Sample.after E (Sample.start E Sample.compressed_archive) in
  ((0 <= ftell (in_file skipped) < 64 /\ 64 <= 2 ^ 62
    /\ is_entry (next_header E skipped) = false
    /\ is_data (next_header E skipped) skipped = false)
   /\ exists s',
       loop_body E skipped = Continue s' /\ ftell (in_file s') = 64)
  /\ ((0 <= ftell (in_file failed) < 112 /\ 112 <= 2 ^ 62
       /\ is_data (next_header E failed) failed = true
       /\ chunk_options (next_header E failed) <> 1
       /\ stored_checksum (next_header E failed) (past_header E failed)
          <> chunk_checksum (next_header E failed))
      /\ exists s',
          loop_body E failed = Continue s' /\ ftell (in_file s') = 64)
  /\ ((0 <= ftell (in_file passed) < 64 /\ 64 <= 2 ^ 62
       /\ is_data (next_header E passed) passed = true
       /\ chunk_options (next_header E passed) = 1)
      /\ exists s',
          loop_body E passed = Continue s' /\ ftell (in_file s') = 64).
Proof.
  intros E skipped failed passed.
  assert (A1 : 0 <= ftell (in_file skipped) < 64)
    by (vm_compute; split; [discriminate | reflexivity]).
  assert (A2 : is_entry (next_header E skipped) = false)
    by (vm_compute; reflexivity).
  assert (A3 : is_data (next_header E skipped) skipped = false)
    by (vm_compute; reflexivity).
  assert (B1 : 0 <= ftell (in_file failed) < 112)
    by (vm_compute; split; [discriminate | reflexivity]).
  assert (B2 : is_data (next_header E failed) failed = true)
    by (vm_compute; reflexivity).
  assert (B3 : chunk_options (next_header E failed) <> 1)
    by (vm_compute; discriminate).
  assert (C1 : 0 <= ftell (in_file passed) < 64)
    by (vm_compute; split; [discriminate | reflexivity]).
  assert (C2 : is_data (next_header E passed) passed = true)
    by (vm_compute; reflexivity).
  assert (C3 : chunk_options (next_header E passed) = 1)
    by (vm_compute; reflexivity).
  assert (C4 : compressed_buffer
                 (grown E (next_header E passed) (past_header E passed))
               <> None) by (vm_compute; discriminate).
  assert (C5 : decompressed_buffer
                 (grown E (next_header E passed) (past_header E passed))
               <> None) by (vm_compute; discriminate).
  assert (P62 : 64 <= 2 ^ 62) by discriminate.
  assert (Q62 : 112 <= 2 ^ 62) by discriminate.
  split; [|split].
  - split; [repeat split; assumption || apply A1|].
    destruct (proj1 (proj2 (chunk_stride E 64 skipped A1 P62)) A2 A3)
      as (s' & L & P & _).
    exists s'. split; [exact L|]. rewrite P. vm_compute. reflexivity.
  - split.
    { repeat split; try assumption; try apply B1. vm_compute. discriminate. }
    destruct (proj1 (proj2 (proj2 (chunk_stride E 112 failed B1 Q62))) B2 B3)
      as (s' & L & P & _).
    exists s'. split; [exact L|]. rewrite P. vm_compute. reflexivity.
  - split; [repeat split; assumption || apply C1|].
    destruct (proj1 (proj2 (proj2 (proj2 (chunk_stride E 64 passed C1 P62))))
                C2 C3 C4 C5) as (s' & L & P & _).
    exists s'. split; [exact L|]. rewrite P. vm_compute. reflexivity.
Defined.

(** * Data chunks that fail their checks *)

Section ErrorFacts.

Variable E : env.

Lemma ulong_sint_differs (result extra : Z) :
  - 2 ^ 31 <= result < 2 ^ 31 -> 0 <= extra < 2 ^ 32 ->
  result <> extra -> ulong (sint result) <> extra.
Proof.
  intros Hr He Hne. rewrite sint_small by lia. unfold ulong.
  destruct (Z.lt_ge_cases result 0).
  - replace result with (result + 2 ^ 64 + (-1) * 2 ^ 64) by lia.
    rewrite Z.mod_add by lia. rewrite Z.mod_small by lia. lia.
  - rewrite Z.mod_small by lia. exact Hne.
Qed.

(** A compressed chunk whose checksum or whose length fails, from what
    [fread] obtains and what the decompressor returns. *)
Lemma compressed_chunk_rejects
  (h : chunk) (s : state) (cb : list byte) :
  let got := fst (fread (chunk_size h) (in_file (grown E h s))) in
  let sum := Adler.update_adler32 1 (mem_write cb got) (sint (chunk_size h)) in
  let run :=
    fastlz_decompress E (mem_write cb got) (sint (chunk_size h))
      (decompressed_buffer (grown E h s)) (sint (chunk_extra h)) in
  compressed_buffer (grown E h s) = Some cb ->
  sum <> chunk_checksum h \/ ulong (sint (fst run)) <> chunk_extra h ->
  exists s',
    compressed_chunk E h s = Continue s'
    /\ files s' = files s
    /\ f s' = None
    /\ output_file s' = None.
Proof.
  intros got sum run Hcb Herr. subst got sum run.
  destruct (grown_session E h s) as (_ & _ & G3 & _).
  unfold compressed_chunk. rewrite Hcb.
  destruct (fread (chunk_size h) (in_file (grown E h s))) as [got stream].
  cbn [fst] in Herr. fields.
  destruct (Z.eqb_spec
              (Adler.update_adler32 1 (mem_write cb got) (sint (chunk_size h)))
              (chunk_checksum h)) as [Ck|Ck]; cbn [negb].
  2:{ eexists. split; [reflexivity|]. unfold abandon. fields. auto. }
  destruct Herr as [Herr|Herr]; [contradiction|].
  destruct (fastlz_decompress E _ _ _ _) as [result stored].
  cbn [fst] in Herr. fields.
  apply Z.eqb_neq in Herr. rewrite Herr. cbn [negb].
  eexists. split; [reflexivity|]. unfold abandon. fields. auto.
Qed.

(** The pass over a stored chunk whose payload has not the checksum of the
    header: the payload is in the file, which is abandoned. *)
Lemma loop_body_stored_corrupt (s : state) (p : path) (old : list byte) :
  chunk_id (next_header E s) = 17 ->
  chunk_options (next_header E s) = 0 ->
  f s = Some p ->
  output_file s <> None ->
  decompressed_size s <> 0 ->
  chunk_complete E s ->
  disk_lookup p (files s) = Some old ->
  Adler.rfc_adler32 (payload E s) <> chunk_checksum (next_header E s) ->
  exists s',
    loop_body E s = Continue s'
    /\ f s' = None
    /\ output_file s' = None
    /\ disk_lookup p (files s') = Some (old ++ payload E s)
    /\ forall q, q <> p -> disk_lookup q (files s') = disk_lookup q (files s).
Proof.
  intros Hid Hopt Hf Ho Hd Hc Hold Hsum.
  unfold Adler.rfc_adler32 in Hsum.
  set (h := next_header E s) in *.
  pose proof (next_header_size E s) as Hsz. fold h in Hsz.
  destruct (past_header_position E s Hc) as [P1 P2].
  pose proof Hc as [C0 C1]. fold h in C1. unfold ftell in *.
  pose proof (stored_loop_copies (S (Z.to_nat (chunk_size h)))
                (chunk_size h) (1, 0)
                (set_total_extracted
                   (ulong (total_extracted (past_header E s) + chunk_size h))
                   (past_header E s)) p) as K.
  fields. rewrite P1, P2 in K.
  specialize (K Hf ltac:(cbn; unfold Adler.ADLER32_BASE; lia)
                ltac:(cbn; unfold Adler.ADLER32_BASE; lia)
                ltac:(lia) ltac:(lia) ltac:(lia) ltac:(lia)).
  cbv zeta in K.
  assert (Pay : payload E s
                = firstn (Z.to_nat (chunk_size h))
                    (skipn (Z.to_nat (fpos (in_file s) + 16))
                       (contents (in_file s)))) by reflexivity.
  rewrite <- Pay in K.
  change (Adler.pack (1, 0)) with 1 in K.
  destruct K as [K1 K2].
  rewrite loop_body_data by (assumption || congruence). fold h.
  unfold data_chunk. rewrite Hopt. cbn [Z.eqb].
  unfold stored_chunk.
  destruct (stored_loop _ _ _ _) as [checksum t]. cbn [fst snd] in *.
  destruct K2 as [A1 A2].
  destruct (Z.eqb_spec checksum (chunk_checksum h)) as [Ck|Ck];
    [congruence|].
  cbn [negb and_then]. eexists. split; [reflexivity|].
  unfold next_chunk, abandon. fields.
  repeat split; [now apply A1 | exact A2].
Qed.

(** The pass over a compressed chunk whose payload has not the checksum of
    the header, or for which the decompressor returns another length than
    [extra]: nothing is written, and the file is abandoned. *)
Lemma loop_body_compressed_corrupt
  (s : state) (p : path) (cb : list byte) :
  let h := next_header E s in
  let g := grown E h (past_header E s) in
  let run :=
    fastlz_decompress E (mem_write cb (payload E s)) (chunk_size h)
      (decompressed_buffer g) (sint (chunk_extra h)) in
  chunk_id h = 17 ->
  chunk_options h = 1 ->
  f s = Some p ->
  output_file s <> None ->
  decompressed_size s <> 0 ->
  chunk_complete E s ->
  blocks_sized s ->
  compressed_buffer g = Some cb ->
  chunk_size h <= INT_MAX ->
  Adler.rfc_adler32 (payload E s) <> chunk_checksum h
  \/ ulong (sint (fst run)) <> chunk_extra h ->
  exists s',
    loop_body E s = Continue s'
    /\ f s' = None
    /\ output_file s' = None
    /\ files s' = files s.
Proof.
  intros h g run Hid Hopt Hf Ho Hd Hc Hb Hcb Hmax Herr. subst h g run.
  pose proof (next_header_size E s) as Hsz.
  pose proof (next_header_extra E s) as Hex.
  destruct (past_header_position E s Hc) as [P1 P2]. unfold ftell in P1.
  assert (Hb' : blocks_sized (past_header E s))
    by (apply (blocks_same s); [reflexivity .. | exact Hb]).
  destruct (grown_kept E (next_header E s) (past_header E s)
              ltac:(lia) ltac:(lia) Hb') as ((G & _) & Gc & _).
  destruct G as (_ & _ & _ & C & _). pose proof (C cb Hcb) as Lcb.
  pose proof (grown_in_file E (next_header E s) (past_header E s)) as GI.
  assert (Pay : payload E s
                = firstn (Z.to_nat (chunk_size (next_header E s)))
                    (skipn (Z.to_nat (fpos (in_file s) + 16))
                       (contents (in_file s)))) by reflexivity.
  pose proof (compressed_payload_checksum E s cb Hc ltac:(lia) Hmax) as CK.
  pose proof (compressed_chunk_rejects (next_header E s) (past_header E s)
                cb) as A.
  cbv zeta in A. rewrite fread_obtains, GI, P1, P2, <- Pay in A.
  rewrite CK in A. unfold INT_MAX in Hmax.
  rewrite (sint_small (chunk_size (next_header E s))) in A by lia.
  destruct (A Hcb Herr) as (s' & R & F1 & F2 & F3).
  change (files (past_header E s)) with (files s) in F1.
  rewrite loop_body_data by (assumption || congruence).
  unfold data_chunk. rewrite Hopt.
  change (1 =? 0) with false. change (1 =? 1) with true. cbv iota.
  rewrite R. cbn [and_then]. eexists. split; [reflexivity|].
  unfold next_chunk. fields. auto.
Qed.

(** The pass over a data chunk whose options are neither 0 nor 1. *)
Lemma loop_body_unknown_options (s : state) :
  chunk_id (next_header E s) = 17 ->
  chunk_options (next_header E s) <> 0 ->
  chunk_options (next_header E s) <> 1 ->
  f s <> None ->
  output_file s <> None ->
  decompressed_size s <> 0 ->
  exists s',
    loop_body E s = Continue s'
    /\ f s' = None
    /\ output_file s' = None
    /\ files s' = files s.
Proof.
  intros Hid O0 O1 Hf Ho Hd.
  rewrite loop_body_data by assumption. unfold data_chunk.
  apply Z.eqb_neq in O0, O1. rewrite O0, O1. cbn [and_then].
  eexists. split; [reflexivity|].
  unfold next_chunk, abandon. fields. auto.
Qed.

End ErrorFacts.

(** C2, as the code has it.  For a data chunk (id 17) of an open session
    whose payload is whole in the stream, each of the three errors, taken
    on the payload itself (its Adler-32 is not the checksum of the header;
    the decompressor returns another length than [extra]; the options are
    neither 0 nor 1), closes the output file and releases its name; the
    file stays on the disk with what it had, followed by the payload when
    the chunk is a stored one, which is written before it is checked; no
    other file changes; the loop goes on with the next chunk; and at the
    end of the stream the loop returns 0.  For a compressed chunk this
    supposes that [compressed_buffer] is not [NULL] when line 444 tests it
    and that the size fits the [int] that [update_adler32] and the
    decompressor take: with a [NULL] buffer the run aborts at line 447,
    whatever the checksum.  The state is one whose buffers have the sizes
    the program believes they have ([blocks_sized]): so it is when the loop
    is entered, and every pass keeps it so when the decompressor keeps to
    [maxout]. *)
Theorem data_chunk_errors_abandon_the_file
  (E : env) (fsize : Z) (s : state) (p : path) (old : list byte) :
  let h := next_header E s in
  let g := grown E h (past_header E s) in
  ftell (in_file s) < fsize ->
  chunk_id h = 17 ->
  f s = Some p ->
  output_file s <> None ->
  decompressed_size s <> 0 ->
  disk_lookup p (files s) = Some old ->
  chunk_complete E s ->
  blocks_sized s ->
  (chunk_options h = 1 ->
   compressed_buffer g <> None /\ chunk_size h <= INT_MAX) ->
  payload_error E s ->
  (exists s',
      loop_body E s = Continue s'
      /\ f s' = None
      /\ output_file s' = None
      /\ disk_lookup p (files s') = Some (old ++ partial_output E s)
      /\ (forall q, q <> p ->
                    disk_lookup q (files s') = disk_lookup q (files s))
      /\ (forall fuel,
             main_loop E (S fuel) fsize s = main_loop E fuel fsize s'))
  /\ (forall fuel t,
         fsize <= ftell (in_file t) ->
         exists t', main_loop E (S fuel) fsize t = Some (Return 0 t')).
Proof.
  intros h g Hpos Hid Hf Ho Hd Hold Hc Hb Hbuf Err. split.
  2:{ intros fuel t Ht. rewrite main_loop_end by assumption.
      unfold epilogue. eauto. }
  assert (Hf' : f s <> None) by congruence.
  assert (Same : forall s',
             loop_body E s = Continue s' -> f s' = None ->
             output_file s' = None -> files s' = files s ->
             chunk_options h <> 0 ->
             exists s',
               loop_body E s = Continue s'
               /\ f s' = None
               /\ output_file s' = None
               /\ disk_lookup p (files s') = Some (old ++ partial_output E s)
               /\ (forall q, q <> p ->
                             disk_lookup q (files s')
                             = disk_lookup q (files s))
               /\ (forall fuel,
                      main_loop E (S fuel) fsize s
                      = main_loop E fuel fsize s')).
  { intros s' L F1 F2 F3 Hopt. exists s'.
    unfold partial_output. fold h. apply Z.eqb_neq in Hopt. rewrite Hopt.
    rewrite app_nil_r, F3. repeat split; try assumption.
    intros fuel. now apply main_loop_continues. }
  destruct Err as [Hopt Hsum | Hopt Hsum
                   | cb ob result Hopt Hsum Hcb Hob Hres Hint Hne
                   | O0 O1]; fold h in Hopt || idtac.
  - destruct (loop_body_stored_corrupt E s p old Hid Hopt Hf Ho Hd Hc Hold
                Hsum) as (s' & L & F1 & F2 & W & Q).
    exists s'. unfold partial_output. fold h. rewrite Hopt.
    repeat split; try assumption.
    intros fuel. now apply main_loop_continues.
  - destruct (Hbuf Hopt) as [Hnull Hmax].
    destruct (compressed_buffer g) as [cb|] eqn:Hcb; [|contradiction].
    destruct (loop_body_compressed_corrupt E s p cb Hid Hopt Hf Ho Hd Hc Hb
                Hcb Hmax (or_introl Hsum)) as (s' & L & F1 & F2 & F3).
    apply (Same s' L F1 F2 F3). rewrite Hopt. discriminate.
  - destruct (Hbuf Hopt) as [_ Hmax].
    pose proof (next_header_extra E s) as Hex.
    assert (Hlen : ulong (sint result) <> chunk_extra (next_header E s))
      by (apply ulong_sint_differs; assumption).
    rewrite <- Hres in Hlen. rewrite <- Hob in Hlen.
    destruct (loop_body_compressed_corrupt E s p cb Hid Hopt Hf Ho Hd Hc Hb
                Hcb Hmax (or_intror Hlen)) as (s' & L & F1 & F2 & F3).
    apply (Same s' L F1 F2 F3). rewrite Hopt. discriminate.
  - destruct (loop_body_unknown_options E s Hid O0 O1 Hf' Ho Hd)
      as (s' & L & F1 & F2 & F3).
    apply (Same s' L F1 F2 F3). exact O0.
Qed.

Lemma data_chunk_errors_abandon_the_file_witness :
  let E := Sample.plain in
  let stored := Sample.after E (Sample.start E Sample.bad_stored_archive) in
  let packed :=
    Sample.after E (Sample.start E Sample.bad_compressed_archive) in
  let p := Sample.hello_txt in
  ((ftell (in_file stored) < 112
    /\ chunk_id (next_header E stored) = 17
    /\ chunk_options (next_header E stored) = 0
    /\ f stored = Some p
    /\ disk_lookup p (files stored) = Some []
    /\ payload E stored = Sample.world
    /\ Adler.rfc_adler32 (payload E stored)
       <> chunk_checksum (next_header E stored))
   /\ exists s',
       loop_body E stored = Continue s'
       /\ f s' = None
       /\ output_file s' = None
       /\ disk_lookup p (files s') = Some ([] ++ partial_output E stored))
  /\ ((ftell (in_file packed) < 112
       /\ chunk_id (next_header E packed) = 17
       /\ chunk_options (next_header E packed) = 1
       /\ f packed = Some p
       /\ disk_lookup p (files packed) = Some []
       /\ Adler.rfc_adler32 (payload E packed)
          <> chunk_checksum (next_header E packed))
      /\ exists s',
          loop_body E packed = Continue s'
          /\ f s' = None
          /\ output_file s' = None
          /\ disk_lookup p (files s') = Some ([] ++ partial_output E packed)).
Proof.
  intros E stored packed p.
  assert (A1 : ftell (in_file stored) < 112) by (vm_compute; reflexivity).
  assert (A2 : chunk_id (next_header E stored) = 17)
    by (vm_compute; reflexivity).
  assert (A3 : f stored = Some p) by (vm_compute; reflexivity).
  assert (A4 : output_file stored <> None) by (vm_compute; discriminate).
  assert (A5 : decompressed_size stored <> 0) by (vm_compute; discriminate).
  assert (A6 : disk_lookup p (files stored) = Some [])
    by (vm_compute; reflexivity).
  assert (A7 : chunk_complete E stored) by (split; vm_compute; discriminate).
  assert (A8 : blocks_sized stored).
  { repeat split; try (vm_compute; reflexivity || discriminate);
      intros b Hb; vm_compute in Hb; discriminate. }
  assert (A9 : chunk_options (next_header E stored) = 0)
    by (vm_compute; reflexivity).
  assert (A10 : chunk_options (next_header E stored) = 1 ->
                compressed_buffer
                  (grown E (next_header E stored) (past_header E stored))
                <> None
                /\ chunk_size (next_header E stored) <= INT_MAX)
    by (rewrite A9; discriminate).
  assert (A11 : Adler.rfc_adler32 (payload E stored)
                <> chunk_checksum (next_header E stored))
    by (vm_compute; discriminate).
  assert (A12 : payload_error E stored)
    by (apply stored_payload_corrupt; assumption).
  assert (B1 : ftell (in_file packed) < 112) by (vm_compute; reflexivity).
  assert (B2 : chunk_id (next_header E packed) = 17)
    by (vm_compute; reflexivity).
  assert (B3 : f packed = Some p) by (vm_compute; reflexivity).
  assert (B4 : output_file packed <> None) by (vm_compute; discriminate).
  assert (B5 : decompressed_size packed <> 0) by (vm_compute; discriminate).
  assert (B6 : disk_lookup p (files packed) = Some [])
    by (vm_compute; reflexivity).
  assert (B7 : chunk_complete E packed) by (split; vm_compute; discriminate).
  assert (B8 : blocks_sized packed).
  { repeat split; try (vm_compute; reflexivity || discriminate);
      intros b Hb; vm_compute in Hb; discriminate. }
  assert (B9 : chunk_options (next_header E packed) = 1)
    by (vm_compute; reflexivity).
  assert (B10 : chunk_options (next_header E packed) = 1 ->
                compressed_buffer
                  (grown E (next_header E packed) (past_header E packed))
                <> None
                /\ chunk_size (next_header E packed) <= INT_MAX)
    by (intros _; split; vm_compute; discriminate).
  assert (B11 : Adler.rfc_adler32 (payload E packed)
                <> chunk_checksum (next_header E packed))
    by (vm_compute; discriminate).
  assert (B12 : payload_error E packed)
    by (apply compressed_payload_corrupt; assumption).
  split.
  - split.
    { split; [exact A1|]. split; [exact A2|]. split; [exact A9|].
      split; [exact A3|]. split; [exact A6|].
      split; [vm_compute; reflexivity | exact A11]. }
    destruct (proj1 (data_chunk_errors_abandon_the_file E 112 stored p []
                       A1 A2 A3 A4 A5 A6 A7 A8 A10 A12))
      as (s' & L & F1 & F2 & W & _).
    exists s'. auto.
  - split; [repeat split; assumption|].
    destruct (proj1 (data_chunk_errors_abandon_the_file E 112 packed p []
                       B1 B2 B3 B4 B5 B6 B7 B8 B10 B12))
      as (s' & L & F1 & F2 & W & _).
    exists s'. auto.
Defined.

Lemma aborts_inv (r : flow) :
  Sample.aborts r = true -> exists s', r = Abort s'.
Proof. destruct r; cbn [Sample.aborts]; intros H; eauto; discriminate. Qed.

(** C2, where it fails.  The compressed chunk of [corrupt_empty_archive] has
    no bytes and a wrong checksum (7, the Adler-32 of no bytes being 1).  It
    is the first compressed chunk of the archive, so [compressed_buffer] is
    still [NULL] and nothing makes the program allocate it: the run calls
    [abort()] at line 447 instead of abandoning hello.txt and returning 0.
    No [malloc] has failed. *)
Lemma checksum_mismatch_without_buffer_aborts :
  let E := Sample.plain in
  let s := Sample.after E (Sample.start E Sample.corrupt_empty_archive) in
  let h := next_header E s in
  chunk_id h = 17
  /\ chunk_options h = 1
  /\ chunk_size h = 0
  /\ f s = Some Sample.hello_txt
  /\ output_file s <> None
  /\ decompressed_size s <> 0
  /\ chunk_complete E s
  /\ payload E s = []
  /\ Adler.rfc_adler32 (payload E s) <> chunk_checksum h
  /\ payload_error E s
  /\ (forall n size, malloc_ok E n size = true)
  /\ (exists s', loop_body E s = Abort s')
  /\ option_map outcome_code
       (unpack_file E Sample.a_6pk
          (Sample.disk_with Sample.corrupt_empty_archive))
     = Some None.
Proof.
  intros E s h.
  assert (H1 : chunk_options h = 1) by (vm_compute; reflexivity).
  assert (H2 : Adler.rfc_adler32 (payload E s) <> chunk_checksum h)
    by (vm_compute; discriminate).
  split; [vm_compute; reflexivity|]. split; [exact H1|].
  split; [vm_compute; reflexivity|]. split; [vm_compute; reflexivity|].
  split; [vm_compute; discriminate|]. split; [vm_compute; discriminate|].
  split; [split; vm_compute; discriminate|].
  split; [vm_compute; reflexivity|]. split; [exact H2|].
  split; [apply compressed_payload_corrupt; assumption|].
  split; [reflexivity|]. split.
  - apply aborts_inv. vm_compute. reflexivity.
  - vm_compute. reflexivity.
Qed.

(** C10, where it fails.  A seed is an [unsigned long], of 64 bits here.
    Lines 85-86 keep bits 0-15 and 16-31 of the seed and line 122 puts them
    together again: on no bytes the seed 2^32 comes back as 0, and 2^32 + 1
    as 1. *)
Lemma update_adler32_drops_high_seed_bits :
  Adler.update_adler32 (2 ^ 32) [] 0 = 0
  /\ Adler.update_adler32 (2 ^ 32) [] 0 <> 2 ^ 32
  /\ Adler.update_adler32 (2 ^ 32 + 1) [] 0 = 1.
Proof.
  split; [vm_compute; reflexivity|].
  split; [vm_compute; discriminate | vm_compute; reflexivity].
Qed.
